(** * Vimeo importer: transfer orchestrator and rate-limited collection fetcher

    A shallow embedding of the two stateful cores of the repository:

    - [Browser]: the [VideoBrowser] component (rate-limited request helper
      [rateLimitedRequest] and the paginated enumeration [fetchAllData]);
    - [Importer]: the [App] component (the per-item pipeline [runImport],
      the poll registration [pollVideoStatus], the load and resume effects).

    Asynchronous code is modelled by explicit state passing.  Every [await]
    is a point where the environment supplies the outcome of the pending
    request; the timer table of the window and the requests in flight are
    part of the state, so that two continuations of the same item can
    interleave exactly as they can in the browser. *)

From Stdlib Require Import ZArith QArith Qround Ascii String List Sorted.
From stdpp Require Import base gmap list strings pretty sorting.

Local Open Scope Z_scope.

(** ** JavaScript values shared by both components *)

Module Js.

(** A string is truthy unless it is empty. *)
Definition truthy (s : string) : bool :=
  match s with EmptyString => false | String _ _ => true end.

(** [a || b] on possibly absent strings: absent and empty are both falsy. *)
Definition or_else (a : option string) (b : option string) : option string :=
  match a with
  | Some s => if truthy s then Some s else b
  | None => b
  end.

Definition opt_truthy (a : option string) : bool :=
  match a with Some s => truthy s | None => false end.

(** [parts.join(sep)] *)
Fixpoint join (sep : string) (parts : list string) : string :=
  match parts with
  | [] => ""
  | [p] => p
  | p :: rest => p +:+ sep +:+ join sep rest
  end.

Definition is_digit (c : ascii) : bool :=
  let n := nat_of_ascii c in (48 <=? n)%nat && (n <=? 57)%nat.

(** White space of [String.prototype.trim] and [parseInt]; only the ASCII
    part of the class is modelled (tab, line feed, vertical tab, form feed,
    carriage return, space). *)
Definition is_space (c : ascii) : bool :=
  let n := nat_of_ascii c in
  ((9 <=? n)%nat && (n <=? 13)%nat) || (n =? 32)%nat.

Fixpoint trim_start (s : string) : string :=
  match s with
  | String c r => if is_space c then trim_start r else s
  | EmptyString => EmptyString
  end.

(** Drops trailing white space: a character is kept when something that
    is kept follows it, or when it is not white space itself. *)
Fixpoint trim_end (s : string) : string :=
  match s with
  | EmptyString => EmptyString
  | String c r =>
      match trim_end r with
      | EmptyString => if is_space c then EmptyString else String c EmptyString
      | r' => String c r'
      end
  end.

Definition trim (s : string) : string := trim_end (trim_start s).

Fixpoint take_digits (s : string) : string :=
  match s with
  | String c r => if is_digit c then String c (take_digits r) else EmptyString
  | EmptyString => EmptyString
  end.

Definition digit_val (c : ascii) : Z := Z.of_nat (nat_of_ascii c) - 48.

Fixpoint digits_val (acc : Z) (s : string) : Z :=
  match s with
  | String c r => digits_val (10 * acc + digit_val c) r
  | EmptyString => acc
  end.

(** [parseInt(s, 10)]: leading white space, an optional sign, then the
    longest run of decimal digits; [None] stands for [NaN]. *)
Definition parseInt (s : string) : option Z :=
  let s := trim_start s in
  let '(neg, body) :=
    match s with
    | String "-" r => (true, r)
    | String "+" r => (false, r)
    | _ => (false, s)
    end in
  match take_digits body with
  | EmptyString => None
  | ds => Some (if neg : bool then - digits_val 0 ds else digits_val 0 ds)
  end.

(** [Math.ceil (a / b)] for integers [a] and a positive integer [b]. *)
Definition ceil_div (a b : Z) : Z := - ((- a) / b).

(** How a number is printed inside a template literal; [None] is [NaN]. *)
Definition show_num (n : option Z) : string :=
  match n with Some z => pretty z | None => "NaN" end.

(** The body of an error response, as far as the code inspects it:
    [data.message], [data.error], and [JSON.stringify(data)]. *)
Record ErrBody := {
  body_message : option string;
  body_error : option string;
  body_json : string;
}.

(** [error.response]: the status, the headers and the body of a reply that
    rejected the request. *)
Record ErrResponse := {
  err_status : Z;
  err_headers : gmap string string;
  err_data : option ErrBody;
}.

(** What a [catch] block receives.  [response] is present when the remote
    side answered with a rejecting status, [request] when a request was
    sent; a plain [new Error(m)] has neither. *)
Record JsError := {
  response : option ErrResponse;
  request : bool;
  message : string;
}.

(** [new Error(m)] *)
Definition new_Error (m : string) : JsError :=
  {| response := None; request := false; message := m |}.

Definition is_rejected (e : JsError) : Prop := is_Some (response e).

(** The double quote, for the messages that contain one. *)
Definition dquote : string := String (ascii_of_nat 34) EmptyString.

End Js.

(** ** The collection browser ([VideoBrowser]) *)

Module Browser.
Import Js.

(** Rate limiting configuration. *)
Definition REQUEST_DELAY_MS : Z := 500.
Definition MAX_RETRIES : Z := 5.
Definition INITIAL_RETRY_DELAY_MS : Z := 2000.

(** An entry of [video.download].  The [rendition] tag may be missing in
    the JSON the remote side sends, hence the option. *)
Record Download := {
  quality : string;
  rendition : option string;
  size : Z;
  width : Z;
  height : Z;
}.

Record Ancestor := { a_uri : string; a_name : string }.

(** [video.parent_folder]; [ancestor_path] flattens the optional chain
    [metadata?.connections?.ancestor_path]. *)
Record ParentFolder := {
  pf_uri : string;
  pf_name : string;
  ancestor_path : option (list Ancestor);
}.

Record VimeoVideoRaw := {
  uri : string;
  name : string;
  type : string;
  download : option (list Download);
  parent_folder : option ParentFolder;
}.

Record VimeoVideoInfo := {
  vimeoId : string;
  title : string;
  folderId : option string;
  folderName : option string;
  folderPath : option string;
  fileSize : option Z;
}.

Record FolderEntry := { f_name : string; f_path : string }.

Record VimeoPaginatedResponse := {
  total : Z;
  data : option (list VimeoVideoRaw);
  paging_next : option string;
}.

Record AxiosResponse := {
  headers : gmap string string;
  resp_data : VimeoPaginatedResponse;
}.

Inductive FetchStatus := idle | fetching | complete | error.

Record FetchProgress := {
  status : FetchStatus;
  currentPage : Z;
  totalPages : Z;
  totalVideos : Z;
  errorMessage : option string;
}.

(** *** Pure derivations of one entry *)

(** [str.match(/<prefix>(\d+)/)]: the digits captured at the leftmost
    position where [prefix] is followed by at least one digit. *)
Fixpoint strip_prefix (p s : string) : option string :=
  match p, s with
  | EmptyString, _ => Some s
  | String a p', String b s' => if decide (a = b) then strip_prefix p' s' else None
  | String _ _, EmptyString => None
  end.

Fixpoint match_digits_after (prefix s : string) : option string :=
  let here :=
    match strip_prefix prefix s with
    | Some rest =>
        match take_digits rest with
        | EmptyString => None
        | ds => Some ds
        end
    | None => None
    end in
  match here with
  | Some ds => Some ds
  | None =>
      match s with
      | EmptyString => None
      | String _ r => match_digits_after prefix r
      end
  end.

Definition extractVideoId (uri : string) : string :=
  match match_digits_after "/videos/" uri with Some m => m | None => uri end.

Definition extractFolderId (uri : string) : string :=
  match match_digits_after "/projects/" uri with Some m => m | None => uri end.

Definition calculateTotalPages (total perPage : Z) : Z := ceil_div total perPage.

(** The reducer handed to [reduce]:
    [(largest, current) => current.size > largest.size ? current : largest] *)
Definition larger (largest current : Download) : Download :=
  if size current >? size largest then current else largest.

Definition not_source (d : Download) : Prop := rendition d ≠ Some "source".

Global Instance not_source_dec d : Decision (not_source d).
Proof. unfold not_source. apply _. Defined.

(** [fileSize]: the list is filtered, but the fold is seeded with
    [video.download[0]], the first entry of the list before filtering. *)
Definition fileSize_of (download : option (list Download)) : option Z :=
  match download with
  | Some (d0 :: rest) =>
      let largestDownload :=
        fold_left larger (filter not_source (d0 :: rest)) d0 in
      Some (size largestDownload)
  | _ => None
  end.

(** [folderPath]: the ancestor chain is reversed, mapped to names, the
    folder's own name is pushed, and the parts are joined. *)
Definition folderPath_of (pf : ParentFolder) : string :=
  match ancestor_path pf with
  | Some (a :: rest) =>
      let pathParts := map a_name (rev (a :: rest)) in
      join "/" (pathParts ++ [pf_name pf])%list
  | _ => pf_name pf
  end.

(** One iteration of the loop over [data.data]. *)
Definition process_video
    (acc : list VimeoVideoInfo * gmap string FolderEntry)
    (video : VimeoVideoRaw) : list VimeoVideoInfo * gmap string FolderEntry :=
  let '(allVideoInfos, folderMap) := acc in
  if decide (type video ≠ "video") then acc
  else
    let videoId := extractVideoId (uri video) in
    let '(folderId, folderName, folderPath, folderMap) :=
      match parent_folder video with
      | Some pf =>
          let folderId := extractFolderId (pf_uri pf) in
          let folderName := pf_name pf in
          let folderPath := folderPath_of pf in
          let folderMap :=
            match folderMap !! folderId with
            | Some _ => folderMap
            | None =>
                <[folderId := {| f_name := folderName; f_path := folderPath |}]>
                  folderMap
            end in
          (Some folderId, Some folderName, Some folderPath, folderMap)
      | None => (None, None, None, folderMap)
      end in
    let info :=
      {| vimeoId := videoId; title := name video; folderId := folderId;
         folderName := folderName; folderPath := folderPath;
         fileSize := fileSize_of (download video) |} in
    ((allVideoInfos ++ [info])%list, folderMap).

Definition process_page (acc : list VimeoVideoInfo * gmap string FolderEntry)
    (d : option (list VimeoVideoRaw)) :=
  match d with
  | Some vs => fold_left process_video vs acc
  | None => acc
  end.

(** *** Component state and the request helper *)

(** A call of [delay(ms)]: the spacing wait before the first attempt, or
    the wait before a retry ([None] when the advertised duration does not
    parse, that is [NaN]). *)
Inductive Delay := SpacingDelay (ms : Z) | RetryDelay (ms : option Z).

(** The state of the component.  [delays] and [requests] record, in order,
    every call of [delay] and every [axios.get]. *)
Record BrowserState := {
  videos : list VimeoVideoInfo;
  folders : gmap string FolderEntry;
  progress : FetchProgress;
  rateLimitInfo : string;
  lastRequestTime : Z;
  teamOwnerId : string;
  delays : list Delay;
  requests : list string;
}.

Definition setVideos (v : list VimeoVideoInfo) (s : BrowserState) :=
  {| videos := v; folders := folders s; progress := progress s;
     rateLimitInfo := rateLimitInfo s; lastRequestTime := lastRequestTime s;
     teamOwnerId := teamOwnerId s; delays := delays s; requests := requests s |}.

Definition setFolders (f : gmap string FolderEntry) (s : BrowserState) :=
  {| videos := videos s; folders := f; progress := progress s;
     rateLimitInfo := rateLimitInfo s; lastRequestTime := lastRequestTime s;
     teamOwnerId := teamOwnerId s; delays := delays s; requests := requests s |}.

Definition setProgress (f : FetchProgress → FetchProgress) (s : BrowserState) :=
  {| videos := videos s; folders := folders s; progress := f (progress s);
     rateLimitInfo := rateLimitInfo s; lastRequestTime := lastRequestTime s;
     teamOwnerId := teamOwnerId s; delays := delays s; requests := requests s |}.

Definition setRateLimitInfo (i : string) (s : BrowserState) :=
  {| videos := videos s; folders := folders s; progress := progress s;
     rateLimitInfo := i; lastRequestTime := lastRequestTime s;
     teamOwnerId := teamOwnerId s; delays := delays s; requests := requests s |}.

Definition setLastRequestTime (t : Z) (s : BrowserState) :=
  {| videos := videos s; folders := folders s; progress := progress s;
     rateLimitInfo := rateLimitInfo s; lastRequestTime := t;
     teamOwnerId := teamOwnerId s; delays := delays s; requests := requests s |}.

Definition delay (d : Delay) (s : BrowserState) :=
  {| videos := videos s; folders := folders s; progress := progress s;
     rateLimitInfo := rateLimitInfo s; lastRequestTime := lastRequestTime s;
     teamOwnerId := teamOwnerId s; delays := (delays s ++ [d])%list;
     requests := requests s |}.

Definition axios_get (url : string) (s : BrowserState) :=
  {| videos := videos s; folders := folders s; progress := progress s;
     rateLimitInfo := rateLimitInfo s; lastRequestTime := lastRequestTime s;
     teamOwnerId := teamOwnerId s; delays := delays s;
     requests := (requests s ++ [url])%list |}.

(** What the environment contributes to one attempt: the clock reading
    when the request starts and how the request ends. *)
Record Attempt := {
  at_time : Z;
  outcome : JsError + AxiosResponse;
}.

Inductive ReqResult :=
| Returned (r : AxiosResponse)
| Thrown (e : JsError)
| Pending.

Definition rate_limit_message : string :=
  "Rate limit exceeded. Please wait a few minutes and try again.".

(** [axiosError.response?.status === 429] *)
Definition is_429 (e : JsError) : bool :=
  match response e with
  | Some r => err_status r =? 429
  | None => false
  end.

(** [axiosError.response.headers['retry-after']] *)
Definition retry_after (e : JsError) : option string :=
  match response e with
  | Some r => err_headers r !! "retry-after"
  | None => None
  end.

(** The [while (true)] loop of [rateLimitedRequest].  The recursion is on
    the script of attempts; a script that ends while the loop still waits
    for a reply leaves the request [Pending]. *)
Fixpoint retry_loop (url : string) (script : list Attempt)
    (retries retryDelay : Z) (s : BrowserState) : ReqResult * BrowserState :=
  match script with
  | [] => (Pending, s)
  | a :: script' =>
      let s := setLastRequestTime (at_time a) s in
      let s := axios_get url s in
      match outcome a with
      | inr response =>
          let remaining := headers response !! "x-ratelimit-remaining" in
          let limit := headers response !! "x-ratelimit-limit" in
          let s :=
            match remaining, limit with
            | Some r, Some l =>
                if truthy r && truthy l
                then setRateLimitInfo
                       ("API: " +:+ r +:+ "/" +:+ l +:+ " requests remaining") s
                else s
            | _, _ => s
            end in
          (Returned response, s)
      | inl axiosError =>
          if is_429 axiosError then
            let retries := retries + 1 in
            if retries >? MAX_RETRIES then
              (Thrown (new_Error rate_limit_message), s)
            else
              let retryAfter := retry_after axiosError in
              let waitTime :=
                match retryAfter with
                | Some h =>
                    if truthy h then (λ n, n * 1000) <$> parseInt h
                    else Some retryDelay
                | None => Some retryDelay
                end in
              let s :=
                setRateLimitInfo
                  ("Rate limited. Waiting "
                   +:+ show_num ((λ w, ceil_div w 1000) <$> waitTime)
                   +:+ "s before retry " +:+ pretty retries +:+ "/"
                   +:+ pretty MAX_RETRIES +:+ "...") s in
              let s := delay (RetryDelay waitTime) s in
              retry_loop url script' retries (retryDelay * 2) s
          else (Thrown axiosError, s)
      end
  end.

(** One call of [rateLimitedRequest]: [now] is the clock at entry. *)
Record PageEnv := { now : Z; attempts : list Attempt }.

Definition rateLimitedRequest (url : string) (pe : PageEnv) (s : BrowserState)
    : ReqResult * BrowserState :=
  let timeSinceLastRequest := now pe - lastRequestTime s in
  let s :=
    if timeSinceLastRequest <? REQUEST_DELAY_MS
    then delay (SpacingDelay (REQUEST_DELAY_MS - timeSinceLastRequest)) s
    else s in
  retry_loop url (attempts pe) 0 INITIAL_RETRY_DELAY_MS s.

(** *** The enumeration *)

(** The updaters handed to [setProgress]: each spreads [prev] and
    overrides the fields named in the source. *)
Definition with_totals (tp tv : Z) (prev : FetchProgress) : FetchProgress :=
  {| status := status prev; currentPage := currentPage prev;
     totalPages := tp; totalVideos := tv; errorMessage := errorMessage prev |}.

Definition with_page (cp tv : Z) (prev : FetchProgress) : FetchProgress :=
  {| status := status prev; currentPage := cp;
     totalPages := totalPages prev; totalVideos := tv;
     errorMessage := errorMessage prev |}.

Definition with_complete (cp tv : Z) (prev : FetchProgress) : FetchProgress :=
  {| status := complete; currentPage := cp;
     totalPages := totalPages prev; totalVideos := tv;
     errorMessage := errorMessage prev |}.

Definition with_error (m : string) (prev : FetchProgress) : FetchProgress :=
  {| status := error; currentPage := currentPage prev;
     totalPages := totalPages prev; totalVideos := totalVideos prev;
     errorMessage := Some m |}.

Definition getBasePath (s : BrowserState) : string :=
  if truthy (trim (teamOwnerId s))
  then "https://api.vimeo.com/users/" +:+ trim (teamOwnerId s)
  else "https://api.vimeo.com/me".

Inductive LoopResult :=
| Done (allVideoInfos : list VimeoVideoInfo)
       (folderMap : gmap string FolderEntry) (totalPages : Z) (s : BrowserState)
| Failed (e : JsError) (s : BrowserState)
| Awaiting (s : BrowserState).

(** The [while (nextUrl)] loop; one element of [env] per page request. *)
Fixpoint fetch_pages (env : list PageEnv) (nextUrl : option string)
    (currentPage totalPages : Z) (allVideoInfos : list VimeoVideoInfo)
    (folderMap : gmap string FolderEntry) (s : BrowserState) : LoopResult :=
  match nextUrl with
  | None => Done allVideoInfos folderMap totalPages s
  | Some url =>
      match env with
      | [] => Awaiting s
      | pe :: env' =>
          match rateLimitedRequest url pe s with
          | (Returned response, s) =>
              let d := resp_data response in
              let '(totalPages, s) :=
                if currentPage =? 1 then
                  let totalPages := calculateTotalPages (total d) 100 in
                  (totalPages,
                   setProgress (with_totals totalPages (total d)) s)
                else (totalPages, s) in
              let '(allVideoInfos, folderMap) :=
                process_page (allVideoInfos, folderMap) (data d) in
              let s :=
                setProgress
                  (with_page currentPage (Z.of_nat (length allVideoInfos))) s in
              let nextUrl :=
                match paging_next d with
                | Some n =>
                    if truthy n then Some ("https://api.vimeo.com" +:+ n)
                    else None
                | None => None
                end in
              fetch_pages env' nextUrl (currentPage + 1) totalPages
                allVideoInfos folderMap s
          | (Thrown e, s) => Failed e s
          | (Pending, s) => Awaiting s
          end
      end
  end.

(** The message the [catch] block of [fetchAllData] derives. *)
Definition fetch_error_message (e : JsError) : string :=
  let from_body :=
    match response e with
    | Some r =>
        match err_data r with
        | Some b => or_else (body_error b) (body_message b)
        | None => None
        end
    | None => None
    end in
  match or_else from_body (Some (message e)) with
  | Some m => m
  | None => "Failed to fetch data"
  end.

Definition fetchAllData (vimeoToken : string) (env : list PageEnv)
    (s : BrowserState) : BrowserState :=
  if negb (truthy (trim vimeoToken)) then
    setProgress
      (with_error "Please enter a Vimeo token in the Credentials section of the Importer tab.") s
  else
    let s := setVideos [] s in
    let s := setFolders ∅ s in
    let s :=
      setProgress (λ _,
        {| status := fetching; currentPage := 0; totalPages := 0;
           totalVideos := 0; errorMessage := None |}) s in
    let basePath := getBasePath s in
    match fetch_pages env (Some (basePath +:+ "/videos?per_page=100")) 1 1 [] ∅ s with
    | Done allVideoInfos folderMap totalPages s =>
        let s := setFolders folderMap s in
        let s := setVideos allVideoInfos s in
        setProgress
          (with_complete totalPages (Z.of_nat (length allVideoInfos))) s
    | Failed e s =>
        setProgress (with_error ("Error: " +:+ fetch_error_message e)) s
    | Awaiting s => s
    end.

(** *** Vocabulary of the properties *)

(** The size the specification asks for: the largest rendition among
    those not of the 'source' class, the first maximum winning. *)
Definition largest_non_source_size (dl : list Download) : option Z :=
  match filter not_source dl with
  | [] => None
  | d :: rest => Some (size (fold_left larger rest d))
  end.

Definition rendition_of (sz : Z) (r : option string) : Download :=
  {| quality := "hd"; rendition := r; size := sz; width := 1280; height := 720 |}.

Definition folder (nm : string) (chain : option (list Ancestor)) : ParentFolder :=
  {| pf_uri := "/users/1/projects/7"; pf_name := nm; ancestor_path := chain |}.

Definition ancestor (nm : string) : Ancestor :=
  {| a_uri := "/users/1/projects/0"; a_name := nm |}.

(** The waits before retries, among the calls of [delay]. *)
Definition retry_delays (l : list Delay) : list (option Z) :=
  omap (λ d, match d with RetryDelay ms => Some ms | SpacingDelay _ => None end) l.

(** A quota rejection that carries no retry-after header. *)
Definition quota_rejection_no_header (e : JsError) : Prop :=
  is_429 e = true ∧ retry_after e = None.

(** A quota rejection, whatever its headers. *)
Definition quota_rejection (a : Attempt) : Prop :=
  ∃ e, outcome a = inl e ∧ is_429 e = true.

(** How a script of attempts ends, whatever the state: with a reply, with
    an error, or still waiting. *)
Fixpoint script_result (script : list Attempt) (retries : Z) : ReqResult :=
  match script with
  | [] => Pending
  | a :: script' =>
      match outcome a with
      | inr response => Returned response
      | inl e =>
          if is_429 e then
            if retries + 1 >? MAX_RETRIES
            then Thrown (new_Error rate_limit_message)
            else script_result script' (retries + 1)
          else Thrown e
      end
  end.

(** The page request is answered, and the answer names a next page. *)
Definition page_continues (pe : PageEnv) : Prop :=
  ∃ r n, script_result (attempts pe) 0 = Returned r
         ∧ paging_next (resp_data r) = Some n ∧ truthy n = true.

(** The parts of the state the request helper leaves alone. *)
Definition same_results (s s' : BrowserState) : Prop :=
  videos s' = videos s ∧ folders s' = folders s ∧ progress s' = progress s
  ∧ teamOwnerId s' = teamOwnerId s.

Definition sample_rejection : JsError :=
  {| response :=
       Some {| err_status := 429; err_headers := ∅; err_data := None |};
     request := true;
     message := "Request failed with status code 429" |}.

Definition sample_page (n : option string) : AxiosResponse :=
  {| headers := ∅;
     resp_data :=
       {| total := 150;
          data :=
            Some [{| uri := "/videos/12"; name := "clip"; type := "video";
                     download := None; parent_folder := None |}];
          paging_next := n |} |}.

Definition empty_browser : BrowserState :=
  {| videos := []; folders := ∅;
     progress :=
       {| status := idle; currentPage := 0; totalPages := 0;
          totalVideos := 0; errorMessage := None |};
     rateLimitInfo := ""; lastRequestTime := 0; teamOwnerId := "";
     delays := []; requests := [] |}.

(** *** Grouping and further vocabulary *)

(** [groupedVideos]: one group per folder of the map, one for the root
    (key [None]), then every video is pushed to the group of its folder
    id, a group being created when the id has none.  The [forEach] over
    the folder map sets the empty list under every folder id. *)
Definition groupedVideos (videos : list VimeoVideoInfo)
    (folders : gmap string FolderEntry)
    : gmap (option string) (list VimeoVideoInfo) :=
  let groups : gmap (option string) (list VimeoVideoInfo) :=
    kmap Some ((λ _, []) <$> folders) in
  let groups := <[None := []]> groups in
  fold_left
    (λ groups video,
       let group := default [] (groups !! folderId video) in
       <[folderId video := (group ++ [video])%list]> groups)
    videos groups.

(** [s] consists of decimal digits. *)
Fixpoint digits_only (s : string) : bool :=
  match s with
  | EmptyString => true
  | String c r => is_digit c && digits_only r
  end.

(** [s] does not begin with a decimal digit. *)
Definition no_leading_digit (s : string) : bool :=
  match s with
  | EmptyString => true
  | String c _ => negb (is_digit c)
  end.

(** The entry the loop derives from a video, which does not depend on the
    entries and folders collected so far. *)
Definition video_info (video : VimeoVideoRaw) : VimeoVideoInfo :=
  {| vimeoId := extractVideoId (uri video);
     title := name video;
     folderId := (λ pf, extractFolderId (pf_uri pf)) <$> parent_folder video;
     folderName := pf_name <$> parent_folder video;
     folderPath := folderPath_of <$> parent_folder video;
     fileSize := fileSize_of (download video) |}.

(** What the pages of an enumeration contribute, page by page, given how
    each page request ends. *)
Definition collect (pages : list PageEnv)
    : list VimeoVideoInfo * gmap string FolderEntry :=
  fold_left
    (λ acc pe,
       match script_result (attempts pe) 0 with
       | Returned r => process_page acc (data (resp_data r))
       | _ => acc
       end)
    pages ([], ∅).

(** [k] waits that start at [d] and double each time. *)
Fixpoint doubling (d : Z) (k : nat) : list Z :=
  match k with
  | O => []
  | S k' => d :: doubling (d * 2) k'
  end.

(** A script of rejections [errs], each with the clock reading of its
    attempt, followed by the attempt that is answered with [resp]. *)
Definition rejections_then (errs : list (Z * JsError)) (t : Z)
    (resp : AxiosResponse) : list Attempt :=
  ((λ te, {| at_time := te.1; outcome := inl te.2 |}) <$> errs)
  ++ [{| at_time := t; outcome := inr resp |}].

(** The page request is answered, and the answer names no next page. *)
Definition page_is_last (pe : PageEnv) : Prop :=
  ∃ r, script_result (attempts pe) 0 = Returned r
       ∧ match paging_next (resp_data r) with
         | Some n => truthy n = false
         | None => True
         end.

(** A rejection that is not a quota rejection. *)
Definition other_rejection (e : JsError) : Prop := is_429 e = false.

(** A quota rejection whose retry-after header reads as [n] seconds. *)
Definition quota_rejection_after (n : Z) (e : JsError) : Prop :=
  is_429 e = true
  ∧ ∃ h, retry_after e = Some h ∧ truthy h = true ∧ parseInt h = Some n.

Definition sample_rejection_after (h : string) : JsError :=
  {| response :=
       Some {| err_status := 429; err_headers := {["retry-after" := h]};
               err_data := None |};
     request := true;
     message := "Request failed with status code 429" |}.

Definition sample_not_found : JsError :=
  {| response :=
       Some {| err_status := 404; err_headers := ∅; err_data := None |};
     request := true;
     message := "Request failed with status code 404" |}.

End Browser.

(** ** The transfer orchestrator ([App]) *)

Module Importer.
Import Js.

Inductive ImportStage :=
| checking
| fetching_vimeo
| downloading
| creating_video
| uploading
| uploading_thumbnail
| polling
| complete
| error.

Global Instance ImportStage_eq_dec : EqDecision ImportStage.
Proof. solve_decision. Defined.

(** An entry of [vimeoData.download]; [public_name] may be missing in the
    JSON the remote side sends. *)
Record DownloadEntry := {
  quality : string;
  type : string;
  width : Z;
  height : Z;
  size : Z;
  link : string;
  public_name : option string;
  rendition : string;
}.

Record PictureSize := { ps_width : Z; ps_height : Z; ps_link : string }.

Record Pictures := {
  active : bool;
  base_link : string;
  sizes : option (list PictureSize);
}.

Record VimeoVideoData := {
  name : string;
  description : string;
  duration : Z;
  download : option (list DownloadEntry);
  pictures : option Pictures;
}.

Inductive Visibility := private | public.

Record Options := {
  visibility : Visibility;
  language : string;
  autoTranscribe : bool;
  tags : string;
  categoryId : string;
}.

Record ImportItem := {
  id : string;
  vimeoId : string;
  stage : ImportStage;
  progress : Q;
  statusText : string;
  vimeoData : option VimeoVideoData;
  igniteVideoId : option string;
  thumbnailUrl : option string;
  errorMessage : option string;
  options : Options;
}.

(** Stages that can be resumed or are final. *)
Definition RESUMABLE_STAGES : list ImportStage := [polling].
Definition FINAL_STAGES : list ImportStage := [complete; error].

(** *** Updaters

    Every updater in the source spreads the previous item and overrides
    some fields: [{ ...prev, stage: .., progress: .. }].  A [Patch] lists
    the overridden fields; [id], [vimeoId] and [options] are never
    overridden. *)
Record Patch := {
  p_stage : option ImportStage;
  p_progress : option Q;
  p_statusText : option string;
  p_vimeoData : option VimeoVideoData;
  p_igniteVideoId : option string;
  p_thumbnailUrl : option (option string);
  p_errorMessage : option string;
}.

Definition no_patch : Patch :=
  {| p_stage := None; p_progress := None; p_statusText := None;
     p_vimeoData := None; p_igniteVideoId := None; p_thumbnailUrl := None;
     p_errorMessage := None |}.

Definition apply_patch (p : Patch) (prev : ImportItem) : ImportItem :=
  {| id := id prev;
     vimeoId := vimeoId prev;
     stage := default (stage prev) (p_stage p);
     progress := default (progress prev) (p_progress p);
     statusText := default (statusText prev) (p_statusText p);
     vimeoData :=
       match p_vimeoData p with Some d => Some d | None => vimeoData prev end;
     igniteVideoId :=
       match p_igniteVideoId p with
       | Some v => Some v
       | None => igniteVideoId prev
       end;
     thumbnailUrl := default (thumbnailUrl prev) (p_thumbnailUrl p);
     errorMessage :=
       match p_errorMessage p with
       | Some m => Some m
       | None => errorMessage prev
       end;
     options := options prev |}.

(** [prev.map((item) => (item.id === id ? updater(item) : item))] *)
Definition update_items (i : string) (p : Patch) (items : list ImportItem)
    : list ImportItem :=
  (λ item, if decide (id item = i) then apply_patch p item else item) <$> items.

(** *** Error messages *)

(** [extractAxiosError] *)
Definition extractAxiosError (err : JsError) : string :=
  match response err with
  | Some r =>
      let msg :=
        match err_data r with
        | Some d =>
            match or_else (or_else (body_message d) (body_error d))
                          (Some (body_json d)) with
            | Some m => m
            | None => "Request failed"
            end
        | None => "Request failed"
        end in
      pretty (err_status r) +:+ ": " +:+ msg
  | None =>
      if request err then "No response from server"
      else if truthy (message err) then message err else "Unknown error"
  end.

(** [formatBytes], with the logarithm and the one-digit rounding done in
    exact integer arithmetic (the source uses floating point); meant for
    non-negative sizes. *)
Definition formatBytes (bytes : Z) : string :=
  if bytes =? 0 then "0 B"
  else
    let i := Z.log2 bytes / 10 in
    let unit := 1024 ^ i in
    let tenths := (20 * bytes + unit) / (2 * unit) in
    let digits :=
      if tenths mod 10 =? 0 then pretty (tenths / 10)
      else pretty (tenths / 10) +:+ "." +:+ pretty (tenths mod 10) in
    digits +:+ " " +:+ nth (Z.to_nat i) ["B"; "KB"; "MB"; "GB"] "undefined".

(** [Math.round] on an exact quotient. *)
Definition round (x : Q) : Z := Qfloor (x + (1 # 2))%Q.

(** [Math.round((evt.loaded / evt.total) * 100)] *)
Definition percent_of (loaded total : Z) : Z :=
  round (inject_Z loaded / inject_Z total * 100)%Q.

(** *** Rendition and thumbnail selection *)

Definition not_source (d : DownloadEntry) : Prop := public_name d ≠ Some "source".

Global Instance not_source_dec d : Decision (not_source d).
Proof. unfold not_source. apply _. Defined.

(** [(largest, current) => current.size > largest.size ? current : largest] *)
Definition larger (largest current : DownloadEntry) : DownloadEntry :=
  if size current >? size largest then current else largest.

(** [arr.reduce(f)] without an initial value: the first element seeds the
    fold; the caller has excluded the empty array. *)
Definition reduce {A} (f : A → A → A) (l : list A) : option A :=
  match l with
  | [] => None
  | x :: rest => Some (fold_left f rest x)
  end.

(** The validation and selection of [runImport]: either the message of the
    error thrown, or the selected rendition. *)
Definition select_download (d : option (list DownloadEntry))
    : string + DownloadEntry :=
  match d with
  | None | Some [] => inl "No download links available."
  | Some dl =>
      let downloadOptions := filter not_source dl in
      match reduce larger downloadOptions with
      | None => inl "No suitable download rendition found."
      | Some selectedDownload => inr selectedDownload
      end
  end.

Definition wider (largest current : PictureSize) : PictureSize :=
  if ps_width current >? ps_width largest then current else largest.

(** The thumbnail to transfer, when the source has an eligible one:
    [pictures?.active && pictures.sizes && pictures.sizes.length > 0]. *)
Definition select_thumbnail (d : VimeoVideoData) : option PictureSize :=
  match pictures d with
  | Some p =>
      if active p then
        match sizes p with
        | Some l => reduce wider l
        | None => None
        end
      else None
  | None => None
  end.

(** Builders for the object literals handed to [updateImport]. *)
Definition with_stage (x : ImportStage) (p : Patch) : Patch :=
  {| p_stage := Some x; p_progress := p_progress p;
     p_statusText := p_statusText p; p_vimeoData := p_vimeoData p;
     p_igniteVideoId := p_igniteVideoId p; p_thumbnailUrl := p_thumbnailUrl p;
     p_errorMessage := p_errorMessage p |}.

Definition with_progress (x : Q) (p : Patch) : Patch :=
  {| p_stage := p_stage p; p_progress := Some x;
     p_statusText := p_statusText p; p_vimeoData := p_vimeoData p;
     p_igniteVideoId := p_igniteVideoId p; p_thumbnailUrl := p_thumbnailUrl p;
     p_errorMessage := p_errorMessage p |}.

Definition with_statusText (x : string) (p : Patch) : Patch :=
  {| p_stage := p_stage p; p_progress := p_progress p;
     p_statusText := Some x; p_vimeoData := p_vimeoData p;
     p_igniteVideoId := p_igniteVideoId p; p_thumbnailUrl := p_thumbnailUrl p;
     p_errorMessage := p_errorMessage p |}.

Definition with_vimeoData (x : VimeoVideoData) (p : Patch) : Patch :=
  {| p_stage := p_stage p; p_progress := p_progress p;
     p_statusText := p_statusText p; p_vimeoData := Some x;
     p_igniteVideoId := p_igniteVideoId p; p_thumbnailUrl := p_thumbnailUrl p;
     p_errorMessage := p_errorMessage p |}.

Definition with_igniteVideoId (x : string) (p : Patch) : Patch :=
  {| p_stage := p_stage p; p_progress := p_progress p;
     p_statusText := p_statusText p; p_vimeoData := p_vimeoData p;
     p_igniteVideoId := Some x; p_thumbnailUrl := p_thumbnailUrl p;
     p_errorMessage := p_errorMessage p |}.

Definition with_thumbnailUrl (x : option string) (p : Patch) : Patch :=
  {| p_stage := p_stage p; p_progress := p_progress p;
     p_statusText := p_statusText p; p_vimeoData := p_vimeoData p;
     p_igniteVideoId := p_igniteVideoId p; p_thumbnailUrl := Some x;
     p_errorMessage := p_errorMessage p |}.

Definition with_errorMessage (x : string) (p : Patch) : Patch :=
  {| p_stage := p_stage p; p_progress := p_progress p;
     p_statusText := p_statusText p; p_vimeoData := p_vimeoData p;
     p_igniteVideoId := p_igniteVideoId p; p_thumbnailUrl := p_thumbnailUrl p;
     p_errorMessage := Some x |}.

(** *** One invocation of [runImport]

    [runImport] suspends at every [await].  A [Task] is a suspended
    invocation: its argument and the request it waits for, together with
    the local variables that are live across that [await]. *)

Definition Blob := string.

(** An element of [data.docs] in the reply to the duplicate pre-check. *)
Record Doc := { doc_id : string; doc_title : string }.

(** The body of the reply to the thumbnail upload. *)
Record ThumbnailData := {
  customThumbnailUrl : option string;
  thumbnailUrl_reply : option string;
}.

Inductive Pending :=
| AwaitCheck
| AwaitVimeoData
| AwaitDownload (vimeoData : VimeoVideoData) (selectedDownload : DownloadEntry)
| AwaitCreate (vimeoData : VimeoVideoData) (selectedDownload : DownloadEntry)
    (videoBlob : Blob)
| AwaitUpload (vimeoData : VimeoVideoData) (selectedDownload : DownloadEntry)
    (igniteVideoId : string)
| AwaitThumbGet (vimeoData : VimeoVideoData) (igniteVideoId : string)
| AwaitThumbPut (vimeoData : VimeoVideoData) (igniteVideoId : string)
    (thumb : Blob).

Record Task := { importItem : ImportItem; pending : Pending }.

(** How a pending request ends: [inl] is the error a rejected promise
    carries, [inr] the data of the reply. *)
Inductive Reply :=
| CheckReply (r : JsError + option (list Doc))
| VimeoReply (r : JsError + VimeoVideoData)
| BlobReply (r : JsError + Blob)
| CreateReply (r : JsError + (string * string))
| PutReply (r : JsError + unit)
| ThumbnailReply (r : JsError + ThumbnailData).

(** Where the invocation goes after the updates of one continuation. *)
Inductive Next :=
| Continue (p : Pending)
| StartPolling (igniteVideoId : string)
| Caught.

Record Outcome := { patches : list Patch; next : Next }.

(** The [catch] block of [runImport]; the timer is stopped by the caller
    of [resume_task]. *)
Definition catch_block (error : JsError) : Outcome :=
  let errorMessage := extractAxiosError error in
  {| patches :=
       [with_stage Importer.error
          (with_errorMessage errorMessage (with_statusText "Failed" no_patch))];
     next := Caught |}.

(** [checkExistingVimeoImport]: a rejected request is caught inside the
    helper and reported as "does not exist". *)
Definition checkExistingVimeoImport (r : JsError + option (list Doc))
    : option Doc :=
  match r with
  | inr (Some (d :: _)) => Some d
  | inr _ => None
  | inl _ => None
  end.

Definition already_imported_message (d : Doc) : string :=
  "Already imported (ID: " +:+ doc_id d +:+ ", Title: " +:+ dquote
  +:+ doc_title d +:+ dquote +:+ ")".

(** Step 6 of [runImport]. *)
Definition step_start_polling (thumbnailUrl : option string)
    (igniteVideoId : string) : Outcome :=
  {| patches :=
       [with_stage polling
          (with_statusText "Processing..."
             (with_progress 98 (with_thumbnailUrl thumbnailUrl no_patch)))];
     next := StartPolling igniteVideoId |}.

Definition prepend (ps : list Patch) (o : Outcome) : Outcome :=
  {| patches := (ps ++ patches o)%list; next := next o |}.

(** The continuation that runs when the pending request of [t] ends with
    [r]; [None] when [r] is not a reply to that request. *)
Definition resume_task (t : Task) (r : Reply) : option Outcome :=
  match pending t, r with
  | AwaitCheck, CheckReply r =>
      Some
        match checkExistingVimeoImport r with
        | Some d => catch_block (new_Error (already_imported_message d))
        | None =>
            {| patches :=
                 [with_stage fetching_vimeo
                    (with_statusText "Fetching Vimeo data..."
                       (with_progress 5 no_patch))];
               next := Continue AwaitVimeoData |}
        end
  | AwaitVimeoData, VimeoReply r =>
      Some
        match r with
        | inl e => catch_block e
        | inr vimeoData =>
            prepend [with_vimeoData vimeoData (with_progress 10 no_patch)]
              match select_download (download vimeoData) with
              | inl msg => catch_block (new_Error msg)
              | inr selectedDownload =>
                  {| patches :=
                       [with_stage downloading
                          (with_statusText
                             ("Downloading ("
                              +:+ formatBytes (size selectedDownload) +:+ ")...")
                             (with_progress 15 no_patch))];
                     next := Continue (AwaitDownload vimeoData selectedDownload) |}
              end
        end
  | AwaitDownload vimeoData selectedDownload, BlobReply r =>
      Some
        match r with
        | inl e => catch_block e
        | inr videoBlob =>
            {| patches :=
                 [with_stage creating_video
                    (with_statusText "Creating video in Ignite..."
                       (with_progress 52 no_patch))];
               next := Continue (AwaitCreate vimeoData selectedDownload videoBlob) |}
        end
  | AwaitCreate vimeoData selectedDownload videoBlob, CreateReply r =>
      Some
        match r with
        | inl e => catch_block e
        | inr (igniteVideoId, signedUrl) =>
            {| patches :=
                 [with_igniteVideoId igniteVideoId (with_progress 55 no_patch);
                  with_stage uploading
                    (with_statusText "Uploading to Ignite..." no_patch)];
               next := Continue (AwaitUpload vimeoData selectedDownload igniteVideoId) |}
        end
  | AwaitUpload vimeoData selectedDownload igniteVideoId, PutReply r =>
      Some
        match r with
        | inl e => catch_block e
        | inr _ =>
            match select_thumbnail vimeoData with
            | Some largestThumb =>
                {| patches :=
                     [with_stage uploading_thumbnail
                        (with_statusText "Uploading thumbnail..."
                           (with_progress 92 no_patch))];
                   next := Continue (AwaitThumbGet vimeoData igniteVideoId) |}
            | None => step_start_polling None igniteVideoId
            end
        end
  | AwaitThumbGet vimeoData igniteVideoId, BlobReply r =>
      Some
        match r with
        | inl thumbError => step_start_polling None igniteVideoId
        | inr thumb =>
            {| patches := [];
               next := Continue (AwaitThumbPut vimeoData igniteVideoId thumb) |}
        end
  | AwaitThumbPut vimeoData igniteVideoId thumb, ThumbnailReply r =>
      Some
        match r with
        | inl thumbError => step_start_polling None igniteVideoId
        | inr d =>
            let thumbnailUrl :=
              or_else (customThumbnailUrl d) (thumbnailUrl_reply d) in
            prepend
              [with_thumbnailUrl thumbnailUrl (with_progress 95 no_patch)]
              (step_start_polling thumbnailUrl igniteVideoId)
        end
  | _, _ => None
  end.

(** The updates of a whole invocation, given the replies to its requests
    in order; it stops at the first reply that does not fit. *)
Fixpoint run_task (t : Task) (replies : list Reply) : list Patch :=
  match replies with
  | [] => []
  | r :: rest =>
      match resume_task t r with
      | Some o =>
          (patches o ++
             match next o with
             | Continue p =>
                 run_task {| importItem := importItem t; pending := p |} rest
             | _ => []
             end)%list
      | None => []
      end
  end.

(** The stages an invocation assigns, in order. *)
Definition stages_assigned (t : Task) (replies : list Reply)
    : list ImportStage :=
  omap p_stage (run_task t replies).

(** [onDownloadProgress] and the [onProgress] callback of the upload:
    nothing happens when [evt.total] is missing or zero. *)
Definition progress_patch (base : Q) (verb : string) (loaded : Z)
    (total : option Z) : option Patch :=
  match total with
  | Some tot =>
      if tot =? 0 then None
      else
        let percent := percent_of loaded tot in
        Some (with_progress (base + inject_Z percent * 0.35)%Q
                (with_statusText (verb +:+ "... " +:+ pretty percent +:+ "%")
                   no_patch))
  | None => None
  end.

(** *** Status polling *)

Definition to_upper_ascii (c : ascii) : ascii :=
  let n := nat_of_ascii c in
  if (97 <=? n)%nat && (n <=? 122)%nat then ascii_of_nat (n - 32) else c.

(** [toUpperCase], on the ASCII letters. *)
Fixpoint toUpperCase (s : string) : string :=
  match s with
  | EmptyString => EmptyString
  | String c r => String (to_upper_ascii c) (toUpperCase r)
  end.

Definition doneStatuses : list string :=
  ["COMPLETE"; "COMPLETED"; "READY"; "ENCODED"].
Definition errorStatuses : list string := ["FAILED"; "ERROR"].

(** The verdict of one tick on the status the destination reports. *)
Inductive Verdict := IsDone | IsError | InProgress.

Definition classify (status : string) : Verdict :=
  if decide (status ∈ doneStatuses) then IsDone
  else if decide (status ∈ errorStatuses) then IsError
  else InProgress.

(** The updates of the continuation of [run] on a reply with raw status
    [raw]: [(data.status || '').toString().toUpperCase()], then the
    status text, then the transition, if any. *)
Definition poll_patches (raw : option string) : list Patch * Verdict :=
  let status := toUpperCase (default "" (or_else raw None)) in
  let shown := with_statusText ("Processing: " +:+ status) no_patch in
  match classify status with
  | IsDone =>
      ([shown;
        with_stage complete
          (with_statusText "Import complete!" (with_progress 100 no_patch))],
       IsDone)
  | IsError =>
      ([shown;
        with_stage Importer.error
          (with_errorMessage ("Encoding failed: " +:+ status) no_patch)],
       IsError)
  | InProgress => ([shown], InProgress)
  end.

(** *** The state of the component and of its window *)

(** The keys of [localStorage] the orchestrator reads back;
    [stored_imports] is the parsed queue, [None] when the key is missing
    or does not parse. *)
Record Storage := {
  stored_vimeo_token : option string;
  stored_ignite_token : option string;
  stored_imports : option (list ImportItem);
}.

(** [pollTimers] is [pollTimersRef.current].  [intervals] is the timer
    table of the window: the live interval timers, each with the
    [(importId, videoId)] its [run] closure polls.  [polls] are the
    requests of [run] that are in flight, [tasks] the suspended
    invocations of [runImport]. *)
Record State := {
  vimeoToken : string;
  igniteToken : string;
  imports : list ImportItem;
  settingsLoaded : bool;
  pollTimers : gmap string nat;
  resumedPollingIds : gset string;
  intervals : gmap nat (string * string);
  nextTimerId : nat;
  polls : list (string * string);
  tasks : list Task;
  storage : Storage;
}.

Definition setVimeoToken (x : string) (s : State) : State :=
  {| vimeoToken := x; igniteToken := igniteToken s; imports := imports s;
     settingsLoaded := settingsLoaded s; pollTimers := pollTimers s;
     resumedPollingIds := resumedPollingIds s; intervals := intervals s;
     nextTimerId := nextTimerId s; polls := polls s; tasks := tasks s;
     storage := storage s |}.

Definition setIgniteToken (x : string) (s : State) : State :=
  {| vimeoToken := vimeoToken s; igniteToken := x; imports := imports s;
     settingsLoaded := settingsLoaded s; pollTimers := pollTimers s;
     resumedPollingIds := resumedPollingIds s; intervals := intervals s;
     nextTimerId := nextTimerId s; polls := polls s; tasks := tasks s;
     storage := storage s |}.

Definition setImports (f : list ImportItem → list ImportItem) (s : State)
    : State :=
  {| vimeoToken := vimeoToken s; igniteToken := igniteToken s;
     imports := f (imports s);
     settingsLoaded := settingsLoaded s; pollTimers := pollTimers s;
     resumedPollingIds := resumedPollingIds s; intervals := intervals s;
     nextTimerId := nextTimerId s; polls := polls s; tasks := tasks s;
     storage := storage s |}.

(** Replaces the three parts that make up the timers: the ref, the
    window's table and the next handle the window hands out. *)
Definition set_timers (m : gmap string nat) (iv : gmap nat (string * string))
    (n : nat) (s : State) : State :=
  {| vimeoToken := vimeoToken s; igniteToken := igniteToken s;
     imports := imports s;
     settingsLoaded := settingsLoaded s; pollTimers := m;
     resumedPollingIds := resumedPollingIds s; intervals := iv;
     nextTimerId := n; polls := polls s; tasks := tasks s;
     storage := storage s |}.

Definition set_resumed (r : gset string) (s : State) : State :=
  {| vimeoToken := vimeoToken s; igniteToken := igniteToken s;
     imports := imports s;
     settingsLoaded := settingsLoaded s; pollTimers := pollTimers s;
     resumedPollingIds := r; intervals := intervals s;
     nextTimerId := nextTimerId s; polls := polls s; tasks := tasks s;
     storage := storage s |}.

Definition set_polls (l : list (string * string)) (s : State) : State :=
  {| vimeoToken := vimeoToken s; igniteToken := igniteToken s;
     imports := imports s;
     settingsLoaded := settingsLoaded s; pollTimers := pollTimers s;
     resumedPollingIds := resumedPollingIds s; intervals := intervals s;
     nextTimerId := nextTimerId s; polls := l; tasks := tasks s;
     storage := storage s |}.

Definition set_tasks (l : list Task) (s : State) : State :=
  {| vimeoToken := vimeoToken s; igniteToken := igniteToken s;
     imports := imports s;
     settingsLoaded := settingsLoaded s; pollTimers := pollTimers s;
     resumedPollingIds := resumedPollingIds s; intervals := intervals s;
     nextTimerId := nextTimerId s; polls := polls s; tasks := l;
     storage := storage s |}.

Definition set_storage (st : Storage) (s : State) : State :=
  {| vimeoToken := vimeoToken s; igniteToken := igniteToken s;
     imports := imports s;
     settingsLoaded := settingsLoaded s; pollTimers := pollTimers s;
     resumedPollingIds := resumedPollingIds s; intervals := intervals s;
     nextTimerId := nextTimerId s; polls := polls s; tasks := tasks s;
     storage := st |}.

(** [updateImport] *)
Definition updateImport (i : string) (p : Patch) (s : State) : State :=
  setImports (update_items i p) s.

Definition apply_patches (i : string) (ps : list Patch) (s : State) : State :=
  fold_left (λ s p, updateImport i p s) ps s.

(** *** Timers *)

(** A timer handle is truthy unless it is zero. *)
Definition handle_truthy (t : nat) : bool := negb (t =? 0)%nat.

(** [window.clearInterval(t)] *)
Definition clearInterval (t : nat) (s : State) : State :=
  set_timers (pollTimers s) (delete t (intervals s)) (nextTimerId s) s.

(** The end of a poll, in the continuation of [run]:
    [const t = get(id); if (t) clearInterval(t); delete(id)]. *)
Definition stop_poll_timer (i : string) (s : State) : State :=
  let s :=
    match pollTimers s !! i with
    | Some t => if handle_truthy t then clearInterval t s else s
    | None => s
    end in
  set_timers (delete i (pollTimers s)) (intervals s) (nextTimerId s) s.

(** The cancellation in the [catch] block, in [removeImport] and in
    [clearFinished]: [if (t) { clearInterval(t); delete(id) }]. *)
Definition cancel_timer (i : string) (s : State) : State :=
  match pollTimers s !! i with
  | Some t =>
      if handle_truthy t then
        let s := clearInterval t s in
        set_timers (delete i (pollTimers s)) (intervals s) (nextTimerId s) s
      else s
  | None => s
  end.

(** [pollVideoStatus]: any existing timer of the item is cleared, [run] is
    called once at once (its request goes in flight), and a new interval
    is registered under the item's id. *)
Definition pollVideoStatus (importId videoId : string) (s : State) : State :=
  let s :=
    match pollTimers s !! importId with
    | Some existing =>
        if handle_truthy existing then clearInterval existing s else s
    | None => s
    end in
  let s := set_polls (polls s ++ [(importId, videoId)])%list s in
  let timerId := nextTimerId s in
  set_timers (<[importId := timerId]> (pollTimers s))
    (<[timerId := (importId, videoId)]> (intervals s)) (S timerId) s.

(** The body of the [forEach] of the resume effect. *)
Definition resume_item (s : State) (item : ImportItem) : State :=
  match igniteVideoId item with
  | Some v =>
      if decide (stage item = polling) then
        if truthy v then
          if decide (id item ∈ resumedPollingIds s) then s
          else
            match pollTimers s !! id item with
            | Some _ => s
            | None =>
                let s := set_resumed ({[id item]} ∪ resumedPollingIds s) s in
                pollVideoStatus (id item) v s
            end
        else s
      else s
  | None => s
  end.

(** The resume effect: it does nothing until the settings are loaded and
    a destination token is present. *)
Definition resumeEffect (s : State) : State :=
  if negb (settingsLoaded s) || negb (truthy (igniteToken s)) then s
  else fold_left resume_item (imports s) s.

(** The persist effects of the tokens and of the queue. *)
Definition persistEffects (s : State) : State :=
  if settingsLoaded s then
    set_storage
      {| stored_vimeo_token :=
           if truthy (vimeoToken s) then Some (vimeoToken s)
           else stored_vimeo_token (storage s);
         stored_ignite_token :=
           if truthy (igniteToken s) then Some (igniteToken s)
           else stored_ignite_token (storage s);
         stored_imports := Some (imports s) |} s
  else s.

(** The effects that run after a render. *)
Definition effects (s : State) : State := resumeEffect (persistEffects s).

(** *** Loading *)

(** The update of the load effect for an interrupted item. *)
Definition interrupted_patch : Patch :=
  with_stage error
    (with_errorMessage "Import was interrupted. Please try again."
       (with_statusText "Interrupted" no_patch)).

(** The [map] of the load effect: an item in a final or resumable stage
    is kept, any other was interrupted. *)
Definition process_loaded (item : ImportItem) : ImportItem :=
  if decide (stage item ∈ FINAL_STAGES) then item
  else if decide (stage item ∈ RESUMABLE_STAGES) then item
  else
    apply_patch interrupted_patch item.

(** The load effect on a fresh process: a new ref, an empty timer table,
    nothing in flight. *)
Definition loadEffect (st : Storage) : State :=
  {| vimeoToken :=
       match stored_vimeo_token st with
       | Some t => if truthy t then t else ""
       | None => ""
       end;
     igniteToken :=
       match stored_ignite_token st with
       | Some t => if truthy t then t else ""
       | None => ""
       end;
     imports :=
       match stored_imports st with
       | Some parsed => process_loaded <$> parsed
       | None => []
       end;
     settingsLoaded := true;
     pollTimers := ∅;
     resumedPollingIds := ∅;
     intervals := ∅;
     nextTimerId := 1;
     polls := [];
     tasks := [];
     storage := st |}.

(** A process start: the load effect, then the effects of the render it
    causes. *)
Definition mount (st : Storage) : State := effects (loadEffect st).

(** *** Handlers *)

(** [canImport], for the text [input] of the video id field. *)
Definition canImport (input : string) (s : State) : bool :=
  truthy (trim (vimeoToken s)) && truthy (trim (igniteToken s))
  && truthy (trim input).

(** The item [startImport] creates at clock reading [now]. *)
Definition newImport (now : Z) (input : string) (opts : Options) : ImportItem :=
  {| id := pretty now +:+ "-" +:+ trim input;
     vimeoId := trim input;
     stage := checking;
     progress := 0;
     statusText := "Starting...";
     vimeoData := None;
     igniteVideoId := None;
     thumbnailUrl := None;
     errorMessage := None;
     options := opts |}.

(** [startImport], with [runImport] run up to its first [await]. *)
Definition startImport (now : Z) (input : string) (opts : Options) (s : State)
    : State :=
  if canImport input s then
    let item := newImport now input opts in
    let s := setImports (λ prev, item :: prev) s in
    let s :=
      updateImport (id item)
        (with_statusText "Checking for existing import..." no_patch) s in
    set_tasks (tasks s ++ [{| importItem := item; pending := AwaitCheck |}])%list s
  else s.

(** The continuation of the [k]-th suspended invocation on reply [r]. *)
Definition taskReply (k : nat) (r : Reply) (s : State) : option State :=
  t ← tasks s !! k;
  o ← resume_task t r;
  let i := id (importItem t) in
  let s := apply_patches i (patches o) s in
  Some
    match next o with
    | Continue p =>
        set_tasks
          (<[k := {| importItem := importItem t; pending := p |}]> (tasks s)) s
    | StartPolling v => pollVideoStatus i v (set_tasks (delete k (tasks s)) s)
    | Caught => cancel_timer i (set_tasks (delete k (tasks s)) s)
    end.

Definition downloadProgress (k : nat) (loaded : Z) (total : option Z)
    (s : State) : option State :=
  t ← tasks s !! k;
  match pending t with
  | AwaitDownload _ _ =>
      Some
        match progress_patch 15 "Downloading" loaded total with
        | Some p => updateImport (id (importItem t)) p s
        | None => s
        end
  | _ => None
  end.

Definition uploadProgress (k : nat) (loaded : Z) (total : option Z)
    (s : State) : option State :=
  t ← tasks s !! k;
  match pending t with
  | AwaitUpload _ _ _ =>
      Some
        match progress_patch 55 "Uploading" loaded total with
        | Some p => updateImport (id (importItem t)) p s
        | None => s
        end
  | _ => None
  end.

(** The interval [t] fires: [run] sends its request. *)
Definition timerFires (t : nat) (s : State) : option State :=
  c ← intervals s !! t;
  Some (set_polls (polls s ++ [c])%list s).

(** The [k]-th request of [run] in flight ends with [r]; a rejected
    request is logged and nothing else happens. *)
Definition pollReply (k : nat) (r : JsError + option string) (s : State)
    : option State :=
  c ← polls s !! k;
  let importId := c.1 in
  let s := set_polls (delete k (polls s)) s in
  Some
    match r with
    | inl _ => s
    | inr raw =>
        let '(ps, verdict) := poll_patches raw in
        let s := apply_patches importId ps s in
        match verdict with
        | InProgress => s
        | _ => stop_poll_timer importId s
        end
    end.

(** The remove button is rendered for items in these stages only. *)
Definition removable (item : ImportItem) : Prop :=
  stage item = complete ∨ stage item = error ∨ stage item = polling.

Global Instance removable_dec item : Decision (removable item).
Proof. unfold removable. apply _. Defined.

Definition removeImport (i : string) (s : State) : State :=
  let s := cancel_timer i s in
  setImports (filter (λ item, id item ≠ i)) s.

Definition finished (item : ImportItem) : Prop :=
  stage item = complete ∨ stage item = error.

Global Instance finished_dec item : Decision (finished item).
Proof. unfold finished. apply _. Defined.

Definition clearFinished (s : State) : State :=
  let s :=
    fold_left
      (λ s item, if decide (finished item) then cancel_timer (id item) s else s)
      (imports s) s in
  setImports (filter (λ item, ¬ finished item)) s.

(** *** The step function *)

Inductive Event :=
| EditVimeoToken (x : string)
| EditIgniteToken (x : string)
| StartImport (now : Z) (input : string) (opts : Options)
| TaskReply (k : nat) (r : Reply)
| DownloadProgress (k : nat) (loaded : Z) (total : option Z)
| UploadProgress (k : nat) (loaded : Z) (total : option Z)
| TimerFires (t : nat)
| PollReply (k : nat) (r : JsError + option string)
| RemoveImport (i : string)
| ClearFinished
| Reload.

(** What the handler of an event does; [None] when the event cannot
    happen in [s].  The start button is disabled unless [canImport]; the
    clock separates the id of a new item from the ids in the queue; the
    remove button exists for a removable item only. *)
Definition handle (s : State) (e : Event) : option State :=
  match e with
  | EditVimeoToken x => Some (setVimeoToken x s)
  | EditIgniteToken x => Some (setIgniteToken x s)
  | StartImport now input opts =>
      if canImport input s then
        if decide (id (newImport now input opts) ∈ id <$> imports s) then None
        else Some (startImport now input opts s)
      else None
  | TaskReply k r => taskReply k r s
  | DownloadProgress k loaded total => downloadProgress k loaded total s
  | UploadProgress k loaded total => uploadProgress k loaded total s
  | TimerFires t => timerFires t s
  | PollReply k r => pollReply k r s
  | RemoveImport i =>
      if decide (Exists (λ item, id item = i ∧ removable item) (imports s))
      then Some (removeImport i s)
      else None
  | ClearFinished => Some (clearFinished s)
  | Reload => Some (loadEffect (storage s))
  end.

(** One event: its handler, then the effects of the render.  The updates
    a handler or a continuation makes are taken to be rendered together,
    so the effects see the state the handler ends in; the resume effect
    has the queue and the token among its dependencies and runs after
    every change of either. *)
Definition step (s : State) (e : Event) : option State :=
  effects <$> handle s e.

Fixpoint run (s : State) (evs : list Event) : option State :=
  match evs with
  | [] => Some s
  | e :: rest => s' ← step s e; run s' rest
  end.

(** The queue a store may hold: the ids of its items are distinct. *)
Definition valid_storage (st : Storage) : Prop :=
  match stored_imports st with
  | Some l => NoDup (id <$> l)
  | None => True
  end.

(** The states of a process started on some store and driven by events. *)
Definition reachable (s : State) : Prop :=
  ∃ st evs, valid_storage st ∧ run (mount st) evs = Some s.

Definition empty_storage : Storage :=
  {| stored_vimeo_token := None; stored_ignite_token := None;
     stored_imports := None |}.

(** *** Timers of an item *)

(** [t] is a live timer of the window that polls for item [i]. *)
Definition timer_of (s : State) (i : string) (t : nat) : Prop :=
  ∃ v, intervals s !! t = Some (i, v).

(** Item [i] has exactly one live timer, and it is the one registered
    under [i] in [pollTimersRef]. *)
Definition exactly_one_timer (s : State) (i : string) : Prop :=
  ∃ t, pollTimers s !! i = Some t ∧ timer_of s i t
       ∧ ∀ t', timer_of s i t' → t' = t.

(** [sub] occurs in [s]. *)
Definition contains (sub s : string) : Prop :=
  ∃ pre post, s = pre +:+ sub +:+ post.

(** A rejection by the remote side of one of the four requests whose
    failure reaches the [catch] block of [runImport]: the metadata fetch,
    the binary download, the record creation and the binary upload. *)
Definition fatal_rejection (p : Pending) (r : Reply) (e : JsError) : Prop :=
  match p, r with
  | AwaitVimeoData, VimeoReply (inl e') => e' = e
  | AwaitDownload _ _, BlobReply (inl e') => e' = e
  | AwaitCreate _ _ _, CreateReply (inl e') => e' = e
  | AwaitUpload _ _ _, PutReply (inl e') => e' = e
  | _, _ => False
  end.

(** The patch of the [catch] block for the message [m]. *)
Definition error_patch (m : string) : Patch :=
  with_stage error (with_errorMessage m (with_statusText "Failed" no_patch)).

(** The state a fresh process on an empty store is in after [evs], and
    the fresh process itself if [evs] cannot happen. *)
Definition after (evs : list Event) : State :=
  default (mount empty_storage) (run (mount empty_storage) evs).

(** The item after a sequence of patches. *)
Definition patched (ps : list Patch) (item : ImportItem) : ImportItem :=
  fold_left (λ it p, apply_patch p it) ps item.

(** The fields the resume effect never writes. *)
Definition same_queue (s s' : State) : Prop :=
  imports s' = imports s ∧ tasks s' = tasks s
  ∧ igniteToken s' = igniteToken s ∧ vimeoToken s' = vimeoToken s
  ∧ settingsLoaded s' = settingsLoaded s ∧ storage s' = storage s.

(** *** Invariants *)

(** The ref and the window agree: the handle registered under an id is a
    live timer that polls for that id, every live timer is the one
    registered under the id it polls for, and handles are positive and
    below the next handle. *)
Definition timers_wf (m : gmap string nat) (iv : gmap nat (string * string))
    (n : nat) : Prop :=
  (∀ i t, m !! i = Some t → ∃ v, iv !! t = Some (i, v))
  ∧ (∀ t i v, iv !! t = Some (i, v) → m !! i = Some t)
  ∧ (∀ t c, iv !! t = Some c → (0 < t < n)%nat)
  ∧ (0 < n)%nat.

Definition timers_ok (s : State) : Prop :=
  timers_wf (pollTimers s) (intervals s) (nextTimerId s).

(** Every item in 'polling' has a timer or has not been resumed yet. *)
Definition polling_tracked (s : State) : Prop :=
  ∀ item, item ∈ imports s → stage item = polling →
    is_Some (pollTimers s !! id item) ∨ id item ∉ resumedPollingIds s.

(** The same for the items of all ids but [i]. *)
Definition polling_tracked_but (i : string) (s : State) : Prop :=
  ∀ item, item ∈ imports s → stage item = polling → id item ≠ i →
    is_Some (pollTimers s !! id item) ∨ id item ∉ resumedPollingIds s.

(** After the effects: an item in 'polling' without a timer is one the
    resume effect has passed over, for want of a destination id or of a
    destination token. *)
Definition polling_ok (s : State) : Prop :=
  ∀ item, item ∈ imports s → stage item = polling →
    is_Some (pollTimers s !! id item)
    ∨ ((id item ∉ resumedPollingIds s)
       ∧ (opt_truthy (igniteVideoId item) = false
          ∨ truthy (igniteToken s) = false)).

(** What holds after a handler, before the effects. *)
Definition handled_ok (s : State) : Prop :=
  timers_ok s ∧ NoDup (id <$> imports s) ∧ settingsLoaded s = true
  ∧ polling_tracked s.

(** What holds in every reachable state. *)
Definition state_ok (s : State) : Prop :=
  timers_ok s ∧ NoDup (id <$> imports s) ∧ settingsLoaded s = true
  ∧ polling_ok s ∧ stored_imports (storage s) = Some (imports s).

(** A patch that does not put the item in 'polling'. *)
Definition not_to_polling (p : Patch) : Prop := p_stage p ≠ Some polling.

(** [s'] differs from [s] at most in the timers, and in the entry of
    [pollTimersRef] only under the id [i]; the requests in flight and the
    suspended invocations may differ too. *)
Definition touches_only (i : string) (s s' : State) : Prop :=
  imports s' = imports s
  ∧ resumedPollingIds s' = resumedPollingIds s
  ∧ settingsLoaded s' = settingsLoaded s
  ∧ igniteToken s' = igniteToken s
  ∧ storage s' = storage s
  ∧ ∀ j, j ≠ i → pollTimers s' !! j = pollTimers s !! j.

(** No item of id [i] is in 'polling'. *)
Definition none_polling (i : string) (s : State) : Prop :=
  ∀ item, item ∈ imports s → id item = i → stage item ≠ polling.

(** What a run of the resume effect from [s] guarantees of the state
    [s'] it ends in: timers and resumed ids are only added, and an id
    that is newly resumed has a timer. *)
Definition resumed_from (s s' : State) : Prop :=
  same_queue s s'
  ∧ (∀ i, is_Some (pollTimers s !! i) → is_Some (pollTimers s' !! i))
  ∧ (∀ i, i ∈ resumedPollingIds s → i ∈ resumedPollingIds s')
  ∧ (∀ i, i ∈ resumedPollingIds s' →
       i ∈ resumedPollingIds s ∨ is_Some (pollTimers s' !! i)).

(** *** Sample data *)

Definition sample_options : Options :=
  {| visibility := private; language := ""; autoTranscribe := false;
     tags := ""; categoryId := "" |}.

Definition sample_entry (sz : Z) (nm : option string) : DownloadEntry :=
  {| quality := "hd"; type := "video/mp4"; width := 1280; height := 720;
     size := sz; link := "https://player.vimeo.com/file.mp4";
     public_name := nm; rendition := "720p" |}.

Definition sample_video : VimeoVideoData :=
  {| name := "Clip"; description := ""; duration := 60;
     download :=
       Some [sample_entry 10 (Some "source"); sample_entry 8 None;
             sample_entry 9 None];
     pictures := None |}.

(** A reply that rejects the request with status [st]. *)
Definition rejection (st : Z) : JsError :=
  {| response :=
       Some {| err_status := st; err_headers := ∅;
               err_data :=
                 Some {| body_message := Some "denied"; body_error := None;
                         body_json := "{}" |} |};
     request := true;
     message := "Request failed" |}.

(** An item as persisted in stage [st]. *)
Definition sample_item (i : string) (st : ImportStage) (v : option string)
    : ImportItem :=
  {| id := i; vimeoId := "42"; stage := st; progress := 98;
     statusText := "Processing..."; vimeoData := None; igniteVideoId := v;
     thumbnailUrl := None; errorMessage := None; options := sample_options |}.

(** The events that bring a fresh process to the polling stage of one
    import whose every request succeeds. *)
Definition to_polling : list Event :=
  [EditVimeoToken "vimeo-token"; EditIgniteToken "ignite-token";
   StartImport 1700000000000 "42" sample_options;
   TaskReply 0 (CheckReply (inr (Some [])));
   TaskReply 0 (VimeoReply (inr sample_video));
   TaskReply 0 (BlobReply (inr "bytes"));
   TaskReply 0 (CreateReply (inr ("rec-1", "https://upload.example/signed")));
   TaskReply 0 (PutReply (inr ()))].

(** The requests of [run] in flight for item [i]. *)
Definition polls_for (i : string) (s : State) : list (string * string) :=
  filter (λ c, c.1 = i) (polls s).

(** One request of [run] is in flight for every id that has a timer, and
    none for the others. *)
Definition polled_once (s : State) : Prop :=
  ∀ i, length (polls_for i s)
       = if decide (is_Some (pollTimers s !! i)) then 1%nat else 0%nat.

(** A store that holds a queue with one item in 'polling' and no
    destination token. *)
Definition storage_without_token : Storage :=
  {| stored_vimeo_token := Some "vimeo-token";
     stored_ignite_token := None;
     stored_imports :=
       Some [sample_item "1700000000000-42" polling (Some "rec-1")] |}.

(** A store with both tokens whose queue holds an item in 'polling' that
    has no destination id. *)
Definition storage_without_record_id : Storage :=
  {| stored_vimeo_token := Some "vimeo-token";
     stored_ignite_token := Some "ignite-token";
     stored_imports := Some [sample_item "1700000000000-42" polling None] |}.

(** A store with both tokens and a queue of three items: one in
    'polling', one interrupted while uploading, one complete. *)
Definition storage_with_queue : Storage :=
  {| stored_vimeo_token := Some "vimeo-token";
     stored_ignite_token := Some "ignite-token";
     stored_imports :=
       Some [sample_item "1700000000000-42" polling (Some "rec-1");
             sample_item "1700000000001-43" uploading (Some "rec-2");
             sample_item "1700000000002-44" complete (Some "rec-3")] |}.

(** An import whose record creation is answered with an empty record id
    and that reaches 'polling'; then the page is reloaded. *)
Definition empty_record_id_then_reload : list Event :=
  take 6 to_polling
  ++ [TaskReply 0 (CreateReply (inr ("", "https://upload.example/signed")));
      TaskReply 0 (PutReply (inr ()));
      Reload].

(** An import reaches 'polling' (the first request of [run] is in
    flight), the interval fires before that request is answered (a second
    request is in flight), the first is answered with status "failed" and
    then the second with status "ready". *)
Definition overlapping_polls : list Event :=
  to_polling
  ++ [TimerFires 1;
      PollReply 0 (inr (Some "failed"));
      PollReply 0 (inr (Some "ready"))].

(** *** Further functions of the component *)

(** [s] is empty or begins with a character that is not white space. *)
Definition tight_start (s : string) : Prop :=
  match s with
  | EmptyString => True
  | String c _ => is_space c = false
  end.

(** [hasActiveTransfers]: some item is in a stage in which a download or
    an upload is under way. *)
Definition activeStages : list ImportStage :=
  [checking; fetching_vimeo; downloading; creating_video; uploading;
   uploading_thumbnail].

Definition hasActiveTransfers (s : State) : bool :=
  bool_decide (Exists (λ item, stage item ∈ activeStages) (imports s)).

(** [s.split(sep)] for a one-character separator; the result is never
    empty. *)
Fixpoint split_on (sep : ascii) (s : string) : list string :=
  match s with
  | EmptyString => [EmptyString]
  | String c r =>
      if decide (c = sep) then EmptyString :: split_on sep r
      else
        match split_on sep r with
        | p :: ps => String c p :: ps
        | [] => [String c EmptyString]
        end
  end.

(** The body [createIgniteVideo] sends; [language], [tags] and
    [categories] are set only when the option is not blank.  Lengths are
    counted in characters of the model's strings. *)
Record UploadPayload := {
  pl_title : string;
  pl_visibility : Visibility;
  pl_autoTranscribe : bool;
  pl_vimeoId : string;
  pl_language : option string;
  pl_tags : option (list string);
  pl_categories : option (list string);
}.

Definition upload_payload (title vimeoVideoId : string) (o : Options)
    : UploadPayload :=
  {| pl_title := substring 0 100 title;
     pl_visibility := visibility o;
     pl_autoTranscribe := autoTranscribe o;
     pl_vimeoId := vimeoVideoId;
     pl_language :=
       if truthy (trim (language o)) then Some (trim (language o)) else None;
     pl_tags :=
       if truthy (trim (tags o))
       then Some (filter (λ t, truthy t = true)
                    (trim <$> split_on "," (tags o)))
       else None;
     pl_categories :=
       if truthy (trim (categoryId o)) then Some [trim (categoryId o)]
       else None |}.

(** [testCors] *)
Inductive CorsTestResult := untested | testing | success | failure | cors_error.

(** [(smallest, current) => current.size < smallest.size ? current : smallest] *)
Definition smaller (smallest current : DownloadEntry) : DownloadEntry :=
  if size current <? size smallest then current else smallest.

(** The rendition [testCors] probes: the smallest of all, the source
    class included. *)
Definition testDownload (d : VimeoVideoData) : option DownloadEntry :=
  match download d with
  | Some dl => reduce smaller dl
  | None => None
  end.

Definition cors_passed : string :=
  "CORS test passed! Client-side downloads should work.".

(** The result and the message [testCors] ends with, given the reply to
    the metadata request and, when a probe is sent, the reply to it. *)
Definition testCors (meta : JsError + VimeoVideoData) (probe : JsError + unit)
    : CorsTestResult * string :=
  match meta with
  | inl e =>
      (cors_error, "Failed to fetch Vimeo data: " +:+ extractAxiosError e)
  | inr vimeoData =>
      match testDownload vimeoData with
      | None =>
          (cors_error,
           "No download links available. Make sure your Vimeo token has download access.")
      | Some _ =>
          match probe with
          | inr _ => (success, cors_passed)
          | inl err =>
              match response err with
              | None =>
                  (failure,
                   "CORS blocked. Vimeo download URLs do not allow browser access.")
              | Some _ => (success, cors_passed)
              end
          end
      end
  end.

(** The position of a stage in the pipeline. *)
Definition stage_rank (st : ImportStage) : nat :=
  match st with
  | checking => 0
  | fetching_vimeo => 1
  | downloading => 2
  | creating_video => 3
  | uploading => 4
  | uploading_thumbnail => 5
  | polling => 6
  | complete => 7
  | error => 8
  end.

(** The stage an invocation is in while it waits for a request. *)
Definition pending_rank (p : Pending) : nat :=
  match p with
  | AwaitCheck => 0
  | AwaitVimeoData => 1
  | AwaitDownload _ _ => 2
  | AwaitCreate _ _ _ => 3
  | AwaitUpload _ _ _ => 4
  | AwaitThumbGet _ _ => 5
  | AwaitThumbPut _ _ _ => 5
  end.

(** The ranks of the stages a list of updates assigns, in order. *)
Definition ranks (ps : list Patch) : list nat :=
  stage_rank <$> omap p_stage ps.

(** A token that is set is the token in the store. *)
Definition tokens_stored (s : State) : Prop :=
  (truthy (vimeoToken s) = true →
   stored_vimeo_token (storage s) = Some (vimeoToken s))
  ∧ (truthy (igniteToken s) = true →
     stored_ignite_token (storage s) = Some (igniteToken s)).

(** The rejected reply to a thumbnail request. *)
Definition thumbnail_rejection (p : Pending) (r : Reply) : Prop :=
  match p, r with
  | AwaitThumbGet _ _, BlobReply (inl _) => True
  | AwaitThumbPut _ _ _, ThumbnailReply (inl _) => True
  | _, _ => False
  end.

Definition sample_pictures : VimeoVideoData :=
  {| name := "Clip"; description := ""; duration := 60;
     download := Some [sample_entry 8 None];
     pictures :=
       Some {| active := true; base_link := "https://i.vimeocdn.com/video/1";
               sizes :=
                 Some [{| ps_width := 640; ps_height := 360;
                          ps_link := "https://i.vimeocdn.com/video/1_640" |}] |} |}.

(** The events that bring a fresh process to the upload of the thumbnail
    of one import. *)
Definition to_thumbnail : list Event :=
  [EditVimeoToken "vimeo-token"; EditIgniteToken "ignite-token";
   StartImport 1700000000000 "42" sample_options;
   TaskReply 0 (CheckReply (inr (Some [])));
   TaskReply 0 (VimeoReply (inr sample_pictures));
   TaskReply 0 (BlobReply (inr "bytes"));
   TaskReply 0 (CreateReply (inr ("rec-1", "https://upload.example/signed")));
   TaskReply 0 (PutReply (inr ()));
   TaskReply 0 (BlobReply (inr "jpeg"))].

End Importer.

(** * Properties of the collection browser *)

Module BrowserFacts.
Import Js Browser.

(** ** The reported file size *)

Lemma larger_idem d : larger d d = d.
Proof. unfold larger. destruct (size d >? size d); reflexivity. Qed.

(** The fold agrees with the specification whenever the seed survives
    the filter, that is when the first entry is not of the source class. *)
Lemma fileSize_first_not_source d0 rest :
  not_source d0 →
  fileSize_of (Some (d0 :: rest)) = largest_non_source_size (d0 :: rest).
Proof.
  intros Hd0. unfold fileSize_of, largest_non_source_size.
  rewrite filter_cons_True by exact Hd0.
  simpl. rewrite larger_idem. reflexivity.
Qed.

(** C1 (the code departs from the claim).  For the download list
    [{size:10, rendition:'source'}, {size:8}, {size:9}] the fetcher
    reports the size 10 of the source rendition, because the fold is
    seeded with the unfiltered first entry; the largest rendition that is
    not of the source class has size 9. *)
Theorem fileSize_reports_source_rendition :
  let dl := [rendition_of 10 (Some "source"); rendition_of 8 None;
             rendition_of 9 None] in
  fileSize_of (Some dl) = Some 10
  ∧ largest_non_source_size dl = Some 9.
Proof. split; reflexivity. Qed.

(** ** The folder path *)

Lemma folderPath_of_chain u nm chain :
  folderPath_of {| pf_uri := u; pf_name := nm; ancestor_path := Some chain |}
  = join "/" (map a_name (rev chain) ++ [nm]).
Proof.
  unfold folderPath_of; simpl. destruct chain as [|a chain]; reflexivity.
Qed.

Lemma process_video_folderPath acc fm v pf :
  type v = "video" → parent_folder v = Some pf →
  folderPath <$> last (process_video (acc, fm) v).1
  = Some (Some (folderPath_of pf)).
Proof.
  intros Hty Hpf. unfold process_video.
  destruct (decide (type v ≠ "video")) as [Hne|_]; [congruence|].
  rewrite Hpf. simpl. rewrite last_snoc. reflexivity.
Qed.

(** C10.  For a video whose folder is named "C" and has the ancestor
    chain [B; A] (immediate parent first), the entry the fetcher derives
    carries the folder path "A/B/C"; in general the path is the reversed
    chain of ancestor names, followed by the folder's own name, joined
    with '/'. *)
Theorem folder_path_root_first :
  (∀ acc fm u nm dl,
     folderPath <$>
       last (process_video (acc, fm)
               {| uri := u; name := nm; type := "video"; download := dl;
                  parent_folder :=
                    Some (folder "C" (Some [ancestor "B"; ancestor "A"])) |}).1
     = Some (Some "A/B/C"))
  ∧ (∀ u nm chain,
       folderPath_of {| pf_uri := u; pf_name := nm; ancestor_path := Some chain |}
       = join "/" (map a_name (rev chain) ++ [nm])).
Proof.
  split.
  - intros. erewrite process_video_folderPath by reflexivity. reflexivity.
  - apply folderPath_of_chain.
Qed.

(** ** The retry loop *)

Lemma same_results_refl s : same_results s s.
Proof. repeat split. Qed.

Lemma same_results_trans s1 s2 s3 :
  same_results s1 s2 → same_results s2 s3 → same_results s1 s3.
Proof.
  intros (?&?&?&?) (?&?&?&?). repeat split; congruence.
Qed.

Lemma retry_loop_result url script :
  ∀ retries d s,
    (retry_loop url script retries d s).1 = script_result script retries
    ∧ same_results s (retry_loop url script retries d s).2.
Proof.
  induction script as [|a script IH]; intros retries d s.
  - split; [reflexivity | apply same_results_refl].
  - cbn [retry_loop script_result].
    destruct (outcome a) as [e|r].
    + destruct (is_429 e).
      * destruct (retries + 1 >? MAX_RETRIES).
        -- split; [reflexivity | repeat split].
        -- match goal with
           | |- context [retry_loop url script ?r ?d' ?s'] =>
               destruct (IH r d' s') as [Hres Hsame]
           end.
           split; [exact Hres|].
           eapply same_results_trans; [|exact Hsame]. repeat split.
      * split; [reflexivity | repeat split].
    + split; [reflexivity|].
      destruct (headers r !! "x-ratelimit-remaining") as [x|];
        [destruct (headers r !! "x-ratelimit-limit") as [y|];
         [destruct (truthy x && truthy y)|]|]; repeat split.
Qed.

Lemma rateLimitedRequest_result url pe s :
  (rateLimitedRequest url pe s).1 = script_result (attempts pe) 0
  ∧ same_results s (rateLimitedRequest url pe s).2.
Proof.
  unfold rateLimitedRequest.
  destruct (now pe - lastRequestTime s <? REQUEST_DELAY_MS).
  - match goal with
    | |- context [retry_loop url ?sc ?r ?d ?s'] =>
        destruct (retry_loop_result url sc r d s') as [Hres Hsame]
    end.
    split; [exact Hres|].
    eapply same_results_trans; [|exact Hsame]. repeat split.
  - apply retry_loop_result.
Qed.

(** Once more rejections than the ceiling allows have come in, the
    request is given up with the rate-limit error. *)
Lemma script_result_ceiling script :
  ∀ retries,
    0 ≤ retries ≤ MAX_RETRIES →
    Forall quota_rejection script →
    MAX_RETRIES + 1 - retries ≤ Z.of_nat (length script) →
    script_result script retries = Thrown (new_Error rate_limit_message).
Proof.
  unfold MAX_RETRIES.
  induction script as [|a script IH]; intros retries Hr Hall Hlen.
  - simpl in Hlen. lia.
  - apply Forall_cons in Hall as [(e & He & H429) Hall].
    cbn [script_result]. rewrite He, H429.
    destruct (retries + 1 >? MAX_RETRIES) eqn:Hgt; [reflexivity|].
    unfold MAX_RETRIES in Hgt.
    apply IH; [lia | exact Hall |].
    rewrite length_cons in Hlen. lia.
Qed.

(** One more request goes out for a rejection without a retry-after
    header while the ceiling is not reached: the wait is the current
    backoff, and the backoff doubles. *)
Lemma retry_loop_backoff url t e script retries d s :
  quota_rejection_no_header e →
  retries + 1 ≤ MAX_RETRIES →
  ∃ s1,
    retry_loop url ({| at_time := t; outcome := inl e |} :: script) retries d s
    = retry_loop url script (retries + 1) (d * 2) s1
    ∧ delays s1 = delays s ++ [RetryDelay (Some d)]
    ∧ requests s1 = requests s ++ [url].
Proof.
  intros [H429 Hhdr] Hle. eexists. cbn [retry_loop outcome].
  rewrite H429, Hhdr.
  replace (retries + 1 >? MAX_RETRIES) with false by (symmetry; lia).
  split; [reflexivity|]. split; reflexivity.
Qed.

Lemma retry_loop_success url t r script retries d s :
  ∃ s1,
    retry_loop url ({| at_time := t; outcome := inr r |} :: script) retries d s
    = (Returned r, s1)
    ∧ delays s1 = delays s ∧ requests s1 = requests s ++ [url].
Proof.
  cbn [retry_loop outcome].
  destruct (headers r !! "x-ratelimit-remaining") as [x|];
    [destruct (headers r !! "x-ratelimit-limit") as [y|];
     [destruct (truthy x && truthy y)|]|];
    eexists; (split; [reflexivity|]); split; reflexivity.
Qed.

Lemma retry_delays_app l1 l2 :
  retry_delays (l1 ++ l2) = retry_delays l1 ++ retry_delays l2.
Proof. unfold retry_delays. apply omap_app. Qed.

(** C7.  Three consecutive quota rejections without a retry-after header
    followed by a success: the request is sent four times (three
    retries), the waits before the retries are 2000, 4000 and 8000 ms
    (the initial delay, doubled each time, hence non-decreasing), and the
    caller receives the successful response. *)
Theorem three_rejections_then_success
    url clock t1 t2 t3 t4 e1 e2 e3 resp s :
  quota_rejection_no_header e1 →
  quota_rejection_no_header e2 →
  quota_rejection_no_header e3 →
  let script :=
    [{| at_time := t1; outcome := inl e1 |};
     {| at_time := t2; outcome := inl e2 |};
     {| at_time := t3; outcome := inl e3 |};
     {| at_time := t4; outcome := inr resp |}] in
  let out := rateLimitedRequest url {| now := clock; attempts := script |} s in
  out.1 = Returned resp
  ∧ requests out.2 = requests s ++ [url; url; url; url]
  ∧ retry_delays (delays out.2)
    = retry_delays (delays s)
      ++ [Some INITIAL_RETRY_DELAY_MS; Some (2 * INITIAL_RETRY_DELAY_MS);
          Some (4 * INITIAL_RETRY_DELAY_MS)]
  ∧ [INITIAL_RETRY_DELAY_MS; 2 * INITIAL_RETRY_DELAY_MS;
     4 * INITIAL_RETRY_DELAY_MS] = [2000; 4000; 8000]
  ∧ StronglySorted Z.le [2000; 4000; 8000].
Proof.
  intros H1 H2 H3 script out.
  assert (∃ s0, out = retry_loop url script 0 INITIAL_RETRY_DELAY_MS s0
                ∧ retry_delays (delays s0) = retry_delays (delays s)
                ∧ requests s0 = requests s) as (s0 & -> & Hd0 & Hr0).
  { subst out. unfold rateLimitedRequest. cbn [now attempts].
    destruct (clock - lastRequestTime s <? REQUEST_DELAY_MS).
    - eexists. split; [reflexivity|]. split; [|reflexivity].
      cbn [delays delay]. rewrite retry_delays_app. cbn. apply app_nil_r.
    - eexists. split; [reflexivity|]. split; reflexivity. }
  subst script.
  destruct (retry_loop_backoff url t1 e1
              [{| at_time := t2; outcome := inl e2 |};
               {| at_time := t3; outcome := inl e3 |};
               {| at_time := t4; outcome := inr resp |}]
              0 INITIAL_RETRY_DELAY_MS s0 H1) as (s1 & -> & Hd1 & Hr1);
    [unfold MAX_RETRIES; lia|].
  destruct (retry_loop_backoff url t2 e2
              [{| at_time := t3; outcome := inl e3 |};
               {| at_time := t4; outcome := inr resp |}]
              (0 + 1) (INITIAL_RETRY_DELAY_MS * 2) s1 H2)
    as (s2 & -> & Hd2 & Hr2); [unfold MAX_RETRIES; lia|].
  destruct (retry_loop_backoff url t3 e3
              [{| at_time := t4; outcome := inr resp |}]
              (0 + 1 + 1) (INITIAL_RETRY_DELAY_MS * 2 * 2) s2 H3)
    as (s3 & -> & Hd3 & Hr3); [unfold MAX_RETRIES; lia|].
  destruct (retry_loop_success url t4 resp [] (0 + 1 + 1 + 1)
              (INITIAL_RETRY_DELAY_MS * 2 * 2 * 2) s3)
    as (s4 & -> & Hd4 & Hr4).
  cbn [fst snd].
  split; [reflexivity|]. split.
  - rewrite Hr4, Hr3, Hr2, Hr1, Hr0. rewrite <- !app_assoc. reflexivity.
  - split.
    + rewrite Hd4, Hd3, Hd2, Hd1. rewrite !retry_delays_app, Hd0.
      rewrite <- !app_assoc. reflexivity.
    + split; [reflexivity|].
      repeat constructor; lia.
Qed.

Lemma three_rejections_then_success_witness :
  let out :=
    rateLimitedRequest "https://api.vimeo.com/me/videos?per_page=100"
      {| now := 100;
         attempts :=
           [{| at_time := 500; outcome := inl sample_rejection |};
            {| at_time := 2500; outcome := inl sample_rejection |};
            {| at_time := 6500; outcome := inl sample_rejection |};
            {| at_time := 14500; outcome := inr (sample_page None) |}] |}
      empty_browser in
  out.1 = Returned (sample_page None)
  ∧ retry_delays (delays out.2) = [Some 2000; Some 4000; Some 8000].
Proof.
  assert (Hq : quota_rejection_no_header sample_rejection)
    by (split; reflexivity).
  destruct (three_rejections_then_success
              "https://api.vimeo.com/me/videos?per_page=100" 100
              500 2500 6500 14500 sample_rejection sample_rejection
              sample_rejection (sample_page None) empty_browser Hq Hq Hq)
    as (Hres & _ & Hdel & _).
  split; [exact Hres | exact Hdel].
Defined.

(** The ceiling counts requests: a request that is always rejected is
    sent [MAX_RETRIES + 1] times in all, and no more. *)
Lemma retry_loop_gives_up url script :
  ∀ retries d s,
    0 ≤ retries ≤ MAX_RETRIES →
    Forall quota_rejection script →
    MAX_RETRIES + 1 - retries ≤ Z.of_nat (length script) →
    requests (retry_loop url script retries d s).2
    = requests s ++ repeat url (Z.to_nat (MAX_RETRIES + 1 - retries)).
Proof.
  unfold MAX_RETRIES.
  induction script as [|a script IH]; intros retries d s Hr Hall Hlen.
  - simpl in Hlen. lia.
  - apply Forall_cons in Hall as [(e & He & H429) Hall].
    cbn [retry_loop]. rewrite He, H429.
    destruct (retries + 1 >? MAX_RETRIES) eqn:Hgt; unfold MAX_RETRIES in Hgt.
    + replace (5 + 1 - retries) with 1 by lia. reflexivity.
    + rewrite IH; [| lia | exact Hall | rewrite length_cons in Hlen; lia].
      cbn [requests delay setRateLimitInfo axios_get setLastRequestTime].
      rewrite <- app_assoc. f_equal.
      replace (Z.to_nat (5 + 1 - retries))
        with (S (Z.to_nat (5 + 1 - (retries + 1)))) by lia.
      reflexivity.
Qed.

(** ** The enumeration is all-or-nothing *)

(** While pages keep coming the loop goes on; at the page whose every
    attempt is rejected it fails, and the published list and map are
    those it started with. *)
Lemma fetch_pages_quota_failure pre bad rest :
  Forall page_continues pre →
  Forall quota_rejection (attempts bad) →
  MAX_RETRIES + 1 ≤ Z.of_nat (length (attempts bad)) →
  ∀ url cp tp acc fm s,
    ∃ s', fetch_pages (pre ++ bad :: rest) (Some url) cp tp acc fm s
          = Failed (new_Error rate_limit_message) s'
          ∧ videos s' = videos s ∧ folders s' = folders s.
Proof.
  intros Hpre Hbad Hlen.
  induction Hpre as [|pe pre (r & n & Hr & Hn & Hnt) _ IH];
    intros url cp tp acc fm s.
  - cbn [app fetch_pages].
    destruct (rateLimitedRequest_result url bad s) as [Hres (Hv & Hf & _)].
    destruct (rateLimitedRequest url bad s) as [res s1]. cbn [fst snd] in *.
    rewrite script_result_ceiling in Hres;
      [| unfold MAX_RETRIES; lia | exact Hbad | lia].
    subst res. eauto.
  - cbn [app fetch_pages].
    destruct (rateLimitedRequest_result url pe s) as [Hres (Hv & Hf & _)].
    destruct (rateLimitedRequest url pe s) as [res s1]. cbn [fst snd] in *.
    rewrite Hr in Hres. subst res. rewrite Hn, Hnt.
    destruct (cp =? 1);
      destruct (process_page (acc, fm) (data (resp_data r))) as [acc' fm'];
      match goal with
      | |- context [fetch_pages _ (Some ?u) ?c ?t ?a ?f ?s0] =>
          destruct (IH u c t a f s0) as (s' & -> & Hv' & Hf')
      end;
      eexists; (split; [reflexivity|]); cbn in Hv', Hf'; split; congruence.
Qed.

(** C6.  When the enumeration reaches a page request whose every attempt
    is rejected with a quota error, and there are more such attempts than
    the retry ceiling allows, [fetchAllData] ends in a fatal error and
    publishes nothing: the video list and the folder map are empty and
    the progress status is 'error' with the rate-limit message. *)
Theorem quota_exhaustion_is_all_or_nothing vimeoToken pre bad rest s :
  truthy (trim vimeoToken) = true →
  Forall page_continues pre →
  Forall quota_rejection (attempts bad) →
  MAX_RETRIES + 1 ≤ Z.of_nat (length (attempts bad)) →
  let s' := fetchAllData vimeoToken (pre ++ bad :: rest) s in
  videos s' = [] ∧ folders s' = ∅
  ∧ status (progress s') = error
  ∧ errorMessage (progress s') = Some ("Error: " +:+ rate_limit_message).
Proof.
  intros Htok Hpre Hbad Hlen. unfold fetchAllData. rewrite Htok.
  cbn [negb].
  match goal with
  | |- context [fetch_pages _ (Some ?u) ?c ?t ?a ?f ?s0] =>
      destruct (fetch_pages_quota_failure pre bad rest Hpre Hbad Hlen
                  u c t a f s0) as (s1 & -> & Hv & Hf)
  end.
  cbn in Hv, Hf. cbn. repeat split; assumption.
Qed.

Lemma quota_exhaustion_is_all_or_nothing_witness :
  let bad :=
    {| now := 1100;
       attempts :=
         repeat {| at_time := 1600; outcome := inl sample_rejection |} 6 |} in
  let first :=
    {| now := 1000;
       attempts :=
         [{| at_time := 1000; outcome := inr (sample_page (Some "/me/videos?page=2")) |}] |} in
  let s' := fetchAllData "token" ([first] ++ bad :: []) empty_browser in
  videos s' = [] ∧ folders s' = ∅ ∧ status (progress s') = error
  ∧ errorMessage (progress s') = Some ("Error: " +:+ rate_limit_message).
Proof.
  apply (quota_exhaustion_is_all_or_nothing "token").
  - reflexivity.
  - constructor; [|constructor].
    exists (sample_page (Some "/me/videos?page=2")), "/me/videos?page=2".
    repeat split.
  - cbn. repeat constructor; exists sample_rejection; split; reflexivity.
  - cbn. unfold MAX_RETRIES. lia.
Defined.

(** ** Further properties of the browser *)

(** X1.  [calculateTotalPages] is the ceiling of the quotient: for a
    positive page size the pages cover the total, and one page fewer
    would not. *)
Theorem calculateTotalPages_ceiling total perPage :
  0 < perPage →
  perPage * (calculateTotalPages total perPage - 1) < total
  ∧ total ≤ perPage * calculateTotalPages total perPage.
Proof.
  intros Hpos. unfold calculateTotalPages, ceil_div.
  pose proof (Z.div_mod (- total) perPage ltac:(lia)) as Hdm.
  pose proof (Z.mod_pos_bound (- total) perPage Hpos) as Hb.
  nia.
Qed.

Lemma calculateTotalPages_ceiling_witness :
  100 * (calculateTotalPages 250 100 - 1) < 250
  ∧ 250 ≤ 100 * calculateTotalPages 250 100.
Proof. apply calculateTotalPages_ceiling. lia. Defined.

Lemma strip_prefix_app p s : strip_prefix p (p +:+ s) = Some s.
Proof.
  induction p as [|a p IH]; [destruct s; reflexivity|].
  change (String a p +:+ s) with (String a (p +:+ s)).
  cbn [strip_prefix]. rewrite decide_True by reflexivity. exact IH.
Qed.

Lemma take_digits_app ds rest :
  digits_only ds = true → no_leading_digit rest = true →
  take_digits (ds +:+ rest) = ds.
Proof.
  intros Hds Hrest. induction ds as [|c ds IH].
  - change ("" +:+ rest) with rest. destruct rest as [|c r]; [reflexivity|].
    cbn in *. destruct (is_digit c); [discriminate | reflexivity].
  - change (String c ds +:+ rest) with (String c (ds +:+ rest)).
    cbn in *. apply andb_true_iff in Hds as [Hc Hds]. rewrite Hc.
    f_equal. apply IH, Hds.
Qed.

Lemma match_digits_after_head p ds rest :
  ds ≠ "" → digits_only ds = true → no_leading_digit rest = true →
  match_digits_after p (p +:+ ds +:+ rest) = Some ds.
Proof.
  intros Hne Hds Hrest.
  destruct (p +:+ ds +:+ rest) eqn:E; cbn [match_digits_after];
    rewrite <- E, strip_prefix_app, take_digits_app by assumption;
    destruct ds; [contradiction | reflexivity | contradiction | reflexivity].
Qed.

(** X2.  For a uri that is "/videos/" followed by a non-empty run of
    digits, and then anything that does not go on with a digit,
    [extractVideoId] is that run of digits. *)
Theorem extractVideoId_digits ds rest :
  ds ≠ "" → digits_only ds = true → no_leading_digit rest = true →
  extractVideoId ("/videos/" +:+ ds +:+ rest) = ds.
Proof.
  intros Hne Hds Hrest. unfold extractVideoId.
  rewrite match_digits_after_head by assumption. reflexivity.
Qed.

Lemma extractVideoId_digits_witness :
  extractVideoId ("/videos/" +:+ "123456789" +:+ ":abcdef") = "123456789".
Proof.
  apply extractVideoId_digits; [discriminate | reflexivity | reflexivity].
Defined.




Lemma fold_larger_bounds l :
  ∀ x,
    size x ≤ size (fold_left larger l x)
    ∧ Forall (λ d, size d ≤ size (fold_left larger l x)) l
    ∧ (fold_left larger l x = x ∨ fold_left larger l x ∈ l).
Proof.
  induction l as [|y l IH]; intros x; cbn [fold_left].
  - split; [lia|]. split; [constructor | left; reflexivity].
  - destruct (IH (larger x y)) as (Hx & Hall & Hmem).
    assert (Hxy : size x ≤ size (larger x y) ∧ size y ≤ size (larger x y)
                  ∧ (larger x y = x ∨ larger x y = y)).
    { unfold larger. destruct (size y >? size x) eqn:E; repeat split; auto; lia. }
    destruct Hxy as (H1 & H2 & H3).
    split; [lia|]. split; [constructor; [lia | exact Hall]|].
    destruct Hmem as [->|Hin]; [|right; right; exact Hin].
    destruct H3 as [->| ->]; [left; reflexivity | right; left].
Qed.

(** X4.  For a non-empty download list the reported file size is the
    largest size among the first entry and the entries that are not of
    the source class: it bounds all of them and is the size of one. *)
Theorem fileSize_is_max_of_first_and_non_source d0 rest :
  ∃ m, fileSize_of (Some (d0 :: rest)) = Some m
       ∧ size d0 ≤ m
       ∧ (∀ d, d ∈ d0 :: rest → not_source d → size d ≤ m)
       ∧ (m = size d0
          ∨ ∃ d, d ∈ d0 :: rest ∧ not_source d ∧ m = size d).
Proof.
  eexists. split; [reflexivity|].
  destruct (fold_larger_bounds (filter not_source (d0 :: rest)) d0)
    as (H0 & Hall & Hmem).
  split; [exact H0|]. split.
  - intros d Hin Hns. rewrite Forall_forall in Hall. apply Hall.
    apply list_elem_of_filter. split; assumption.
  - destruct Hmem as [->|Hin]; [left; reflexivity|].
    right. apply list_elem_of_filter in Hin as [Hns Hin]. eauto.
Qed.

Lemma process_video_info acc fm v :
  (process_video (acc, fm) v).1
  = acc ++ (if decide (type v = "video") then [video_info v] else []).
Proof.
  unfold process_video, video_info.
  destruct (decide (type v ≠ "video")) as [Hne|Heq].
  - rewrite decide_False by exact Hne. cbn. symmetry. apply app_nil_r.
  - rewrite decide_True by (destruct (decide (type v = "video")); tauto).
    destruct (parent_folder v) as [pf|]; [|reflexivity].
    cbn. destruct (fm !! extractFolderId (pf_uri pf)); reflexivity.
Qed.

(** X5.  A page contributes its entries of type "video", in order, and
    nothing else: live events and other types are skipped, and what an
    entry contributes does not depend on what was collected before. *)
Theorem process_page_keeps_videos vs :
  ∀ acc fm,
    (process_page (acc, fm) (Some vs)).1
    = acc ++ (video_info <$> filter (λ v, type v = "video") vs).
Proof.
  cbn [process_page].
  induction vs as [|v vs IH]; intros acc fm;
    [cbn; symmetry; apply app_nil_r|].
  cbn [fold_left].
  pose proof (process_video_info acc fm v) as Hv.
  destruct (process_video (acc, fm) v) as [acc1 fm1]. cbn [fst] in Hv.
  rewrite IH, Hv. destruct (decide (type v = "video")) as [Hty|Hty].
  - rewrite filter_cons_True by exact Hty. cbn. rewrite <- app_assoc.
    reflexivity.
  - rewrite filter_cons_False by exact Hty. rewrite app_nil_r. reflexivity.
Qed.

Lemma process_video_folders acc fm v :
  fm ⊆ (process_video (acc, fm) v).2
  ∧ ∀ f, folderId (video_info v) = Some f → type v = "video" →
         is_Some ((process_video (acc, fm) v).2 !! f).
Proof.
  unfold process_video, video_info.
  destruct (decide (type v ≠ "video")) as [Hne|_];
    [split; [reflexivity | intros; contradiction]|].
  destruct (parent_folder v) as [pf|]; cbn;
    [|split; [reflexivity | discriminate]].
  destruct (fm !! extractFolderId (pf_uri pf)) as [e|] eqn:E; cbn.
  - split; [reflexivity|]. intros f [= <-] _. rewrite E. eauto.
  - split; [apply insert_subseteq; exact E|].
    intros f [= <-] _. rewrite lookup_insert_eq. eauto.
Qed.

(** X6.  Over a page the folder map only grows, so the first name and
    path seen for a folder id are the ones kept, and every entry the page
    contributes with a folder id finds that id in the map. *)
Theorem process_page_folders vs :
  ∀ acc fm,
    fm ⊆ (process_page (acc, fm) (Some vs)).2
    ∧ ∀ v f, v ∈ vs → type v = "video" →
             folderId (video_info v) = Some f →
             is_Some ((process_page (acc, fm) (Some vs)).2 !! f).
Proof.
  cbn [process_page].
  induction vs as [|v vs IH]; intros acc fm.
  - split; [reflexivity|]. intros v f Hin. apply elem_of_nil in Hin.
    contradiction.
  - cbn [fold_left].
    destruct (process_video_folders acc fm v) as [Hsub Hv].
    destruct (process_video (acc, fm) v) as [acc1 fm1]. cbn [snd] in *.
    destruct (IH acc1 fm1) as [Hsub' Hrest].
    split; [etrans; eassumption|].
    intros w f Hin Hty Hf. apply elem_of_cons in Hin as [->|Hin].
    + destruct (Hv f Hf Hty) as [e He]. exists e.
      eapply lookup_weaken; eassumption.
    + eapply Hrest; eassumption.
Qed.

(** X7.  A rejection that is not a quota rejection is passed on at once:
    the request was sent once, nothing was waited for beyond the spacing,
    and the caller gets that very error. *)
Theorem other_errors_are_not_retried url clock t e script s :
  other_rejection e →
  let out :=
    rateLimitedRequest url
      {| now := clock;
         attempts := {| at_time := t; outcome := inl e |} :: script |} s in
  out.1 = Thrown e
  ∧ requests out.2 = requests s ++ [url]
  ∧ retry_delays (delays out.2) = retry_delays (delays s).
Proof.
  intros He. unfold other_rejection in He. unfold rateLimitedRequest.
  cbn [now attempts retry_loop outcome]. rewrite He.
  destruct (clock - lastRequestTime s <? REQUEST_DELAY_MS);
    cbn; repeat split.
  rewrite retry_delays_app. cbn. apply app_nil_r.
Qed.

Lemma other_errors_are_not_retried_witness :
  let out :=
    rateLimitedRequest "https://api.vimeo.com/me/videos?per_page=100"
      {| now := 100;
         attempts := [{| at_time := 500; outcome := inl sample_not_found |}] |}
      empty_browser in
  out.1 = Thrown sample_not_found
  ∧ requests out.2 = ["https://api.vimeo.com/me/videos?per_page=100"].
Proof.
  destruct (other_errors_are_not_retried
              "https://api.vimeo.com/me/videos?per_page=100" 100 500
              sample_not_found [] empty_browser eq_refl) as (H1 & H2 & _).
  split; [exact H1 | exact H2].
Defined.


Lemma retry_loop_requests_bound url script :
  ∀ retries d s,
    0 ≤ retries ≤ MAX_RETRIES →
    ∃ k, Z.of_nat k ≤ MAX_RETRIES + 1 - retries
         ∧ requests (retry_loop url script retries d s).2
           = requests s ++ repeat url k.
Proof.
  unfold MAX_RETRIES.
  induction script as [|a script IH]; intros retries d s Hr.
  - exists 0%nat. cbn. split; [lia | symmetry; apply app_nil_r].
  - cbn [retry_loop]. destruct (outcome a) as [e|r].
    + destruct (is_429 e); [|exists 1%nat; split; [lia | reflexivity]].
      destruct (retries + 1 >? MAX_RETRIES) eqn:Hgt; unfold MAX_RETRIES in Hgt;
        [exists 1%nat; split; [lia | reflexivity]|].
      match goal with
      | |- context [retry_loop url script ?r ?d' ?s'] =>
          destruct (IH r d' s') as (k & Hk & Hreq); [lia|]
      end.
      exists (S k). split; [lia|]. rewrite Hreq. cbn.
      rewrite <- app_assoc. reflexivity.
    + exists 1%nat. split; [lia|].
      destruct (headers r !! "x-ratelimit-remaining") as [x|];
        [destruct (headers r !! "x-ratelimit-limit") as [y|];
         [destruct (truthy x && truthy y)|]|]; reflexivity.
Qed.

(** X8.  Whatever the remote side answers, one call of
    [rateLimitedRequest] sends its request at most [MAX_RETRIES + 1] = 6
    times, and always to the url it was given. *)
Theorem request_count_is_bounded url pe s :
  ∃ k, (k ≤ 6)%nat
       ∧ requests (rateLimitedRequest url pe s).2 = requests s ++ repeat url k.
Proof.
  unfold rateLimitedRequest.
  match goal with
  | |- context [retry_loop url ?sc ?r ?d ?s'] =>
      destruct (retry_loop_requests_bound url sc r d s') as (k & Hk & Hreq);
        [unfold MAX_RETRIES; lia|]
  end.
  exists k. unfold MAX_RETRIES in Hk. split; [lia|]. rewrite Hreq.
  destruct (now pe - lastRequestTime s <? REQUEST_DELAY_MS); reflexivity.
Qed.

Lemma doubling_lookup k :
  ∀ d i x, doubling d k !! i = Some x → x = d * 2 ^ Z.of_nat i.
Proof.
  induction k as [|k IH]; intros d i x; [discriminate|].
  destruct i as [|i]; cbn [doubling].
  - intros [= <-]. cbn. lia.
  - intros H. apply IH in H. subst x.
    rewrite Nat2Z.inj_succ, Z.pow_succ_r by lia. lia.
Qed.

Lemma retry_loop_backoffs url errs t resp :
  ∀ retries d s,
    Forall (λ te, quota_rejection_no_header te.2) errs →
    retries + Z.of_nat (length errs) ≤ MAX_RETRIES →
    let out := retry_loop url (rejections_then errs t resp) retries d s in
    out.1 = Returned resp
    ∧ retry_delays (delays out.2)
      = retry_delays (delays s) ++ (Some <$> doubling d (length errs)).
Proof.
  unfold rejections_then.
  induction errs as [|[t0 e] errs IH]; intros retries d s Hall Hlen; cbn zeta.
  - cbn [fmap list_fmap app length doubling].
    destruct (retry_loop_success url t resp [] retries d s) as (s1 & -> & Hd & _).
    cbn [fst snd]. rewrite Hd. split; [reflexivity|].
    symmetry. apply app_nil_r.
  - apply Forall_cons in Hall as [He Hall]. cbn [fmap list_fmap app].
    cbn [fst snd] in *. rewrite length_cons in Hlen.
    destruct (retry_loop_backoff url t0 e
                (((λ te, {| at_time := te.1; outcome := inl te.2 |}) <$> errs)
                 ++ [{| at_time := t; outcome := inr resp |}])
                retries d s He) as (s1 & -> & Hd1 & _); [lia|].
    destruct (IH (retries + 1) (d * 2) s1 Hall) as [Hres Hdel]; [lia|].
    cbn zeta in *. split; [exact Hres|].
    rewrite Hdel, Hd1, retry_delays_app. cbn [length doubling fmap list_fmap].
    rewrite <- app_assoc. reflexivity.
Qed.

(** X9.  Up to [MAX_RETRIES] = 5 consecutive quota rejections without a
    retry-after header, followed by a success, end in that success; the
    waits before the retries start at the initial delay and double each
    time, the i-th being 2000 * 2^i ms. *)
Theorem backoff_doubles url clock errs t resp s :
  Forall (λ te, quota_rejection_no_header te.2) errs →
  (length errs ≤ 5)%nat →
  let out :=
    rateLimitedRequest url
      {| now := clock; attempts := rejections_then errs t resp |} s in
  out.1 = Returned resp
  ∧ retry_delays (delays out.2)
    = retry_delays (delays s)
      ++ (Some <$> doubling INITIAL_RETRY_DELAY_MS (length errs))
  ∧ ∀ i x, doubling INITIAL_RETRY_DELAY_MS (length errs) !! i = Some x →
           x = 2000 * 2 ^ Z.of_nat i.
Proof.
  intros Hall Hlen. unfold rateLimitedRequest. cbn [now attempts].
  split; [|split].
  - destruct (clock - lastRequestTime s <? REQUEST_DELAY_MS);
      apply retry_loop_backoffs; try assumption; unfold MAX_RETRIES; lia.
  - destruct (clock - lastRequestTime s <? REQUEST_DELAY_MS).
    + match goal with
      | |- context [retry_loop url _ ?r ?d ?s'] =>
          destruct (retry_loop_backoffs url errs t resp r d s' Hall) as [_ ->];
            [unfold MAX_RETRIES; lia|]
      end.
      cbn [delays delay]. rewrite retry_delays_app. cbn.
      rewrite app_nil_r. reflexivity.
    + apply retry_loop_backoffs; try assumption. unfold MAX_RETRIES. lia.
  - intros i x H. apply doubling_lookup in H. exact H.
Qed.

Lemma backoff_doubles_witness :
  let out :=
    rateLimitedRequest "https://api.vimeo.com/me/videos?per_page=100"
      {| now := 100;
         attempts :=
           rejections_then
             [(500, sample_rejection); (2500, sample_rejection);
              (6500, sample_rejection); (14500, sample_rejection);
              (30500, sample_rejection)]
             62500 (sample_page None) |}
      empty_browser in
  out.1 = Returned (sample_page None)
  ∧ retry_delays (delays out.2)
    = [Some 2000; Some 4000; Some 8000; Some 16000; Some 32000].
Proof.
  destruct (backoff_doubles
              "https://api.vimeo.com/me/videos?per_page=100" 100
              [(500, sample_rejection); (2500, sample_rejection);
               (6500, sample_rejection); (14500, sample_rejection);
               (30500, sample_rejection)]
              62500 (sample_page None) empty_browser)
    as (Hres & Hdel & _).
  - repeat constructor.
  - cbn. lia.
  - split; [exact Hres | exact Hdel].
Defined.

Lemma retry_loop_retry_after url t e n script retries d s :
  quota_rejection_after n e →
  retries + 1 ≤ MAX_RETRIES →
  ∃ s1,
    retry_loop url ({| at_time := t; outcome := inl e |} :: script) retries d s
    = retry_loop url script (retries + 1) (d * 2) s1
    ∧ delays s1 = delays s ++ [RetryDelay (Some (n * 1000))]
    ∧ requests s1 = requests s ++ [url].
Proof.
  intros (H429 & h & Hh & Htr & Hparse) Hle. eexists.
  cbn [retry_loop outcome]. rewrite H429, Hh, Htr, Hparse.
  replace (retries + 1 >? MAX_RETRIES) with false by (symmetry; lia).
  split; [reflexivity|]. split; reflexivity.
Qed.

(** X10.  A quota rejection that advertises a retry-after of [n] seconds
    makes the helper wait [n * 1000] ms instead of the backoff; the
    backoff is doubled all the same, so a following rejection without the
    header waits twice the initial delay. *)
Theorem retry_after_is_honoured url clock t1 t2 t3 e1 e2 n resp s :
  quota_rejection_after n e1 →
  quota_rejection_no_header e2 →
  let out :=
    rateLimitedRequest url
      {| now := clock;
         attempts :=
           [{| at_time := t1; outcome := inl e1 |};
            {| at_time := t2; outcome := inl e2 |};
            {| at_time := t3; outcome := inr resp |}] |} s in
  out.1 = Returned resp
  ∧ retry_delays (delays out.2)
    = retry_delays (delays s)
      ++ [Some (n * 1000); Some (2 * INITIAL_RETRY_DELAY_MS)].
Proof.
  intros H1 H2 out.
  assert (∃ s0, out = retry_loop url
                        [{| at_time := t1; outcome := inl e1 |};
                         {| at_time := t2; outcome := inl e2 |};
                         {| at_time := t3; outcome := inr resp |}]
                        0 INITIAL_RETRY_DELAY_MS s0
                ∧ retry_delays (delays s0) = retry_delays (delays s))
    as (s0 & -> & Hd0).
  { subst out. unfold rateLimitedRequest. cbn [now attempts].
    destruct (clock - lastRequestTime s <? REQUEST_DELAY_MS).
    - eexists. split; [reflexivity|].
      cbn [delays delay]. rewrite retry_delays_app. cbn. apply app_nil_r.
    - eexists. split; reflexivity. }
  destruct (retry_loop_retry_after url t1 e1 n
              [{| at_time := t2; outcome := inl e2 |};
               {| at_time := t3; outcome := inr resp |}]
              0 INITIAL_RETRY_DELAY_MS s0 H1) as (s1 & -> & Hd1 & _);
    [unfold MAX_RETRIES; lia|].
  destruct (retry_loop_backoff url t2 e2
              [{| at_time := t3; outcome := inr resp |}]
              (0 + 1) (INITIAL_RETRY_DELAY_MS * 2) s1 H2)
    as (s2 & -> & Hd2 & _); [unfold MAX_RETRIES; lia|].
  destruct (retry_loop_success url t3 resp [] (0 + 1 + 1)
              (INITIAL_RETRY_DELAY_MS * 2 * 2) s2) as (s3 & -> & Hd3 & _).
  cbn [fst snd]. split; [reflexivity|].
  rewrite Hd3, Hd2, Hd1, !retry_delays_app, Hd0, <- !app_assoc. reflexivity.
Qed.

Lemma retry_after_is_honoured_witness :
  let out :=
    rateLimitedRequest "https://api.vimeo.com/me/videos?per_page=100"
      {| now := 100;
         attempts :=
           [{| at_time := 500; outcome := inl (sample_rejection_after "30") |};
            {| at_time := 30500; outcome := inl sample_rejection |};
            {| at_time := 34500; outcome := inr (sample_page None) |}] |}
      empty_browser in
  out.1 = Returned (sample_page None)
  ∧ retry_delays (delays out.2) = [Some 30000; Some 4000].
Proof.
  apply (retry_after_is_honoured
           "https://api.vimeo.com/me/videos?per_page=100" 100 500 30500 34500
           (sample_rejection_after "30") sample_rejection 30
           (sample_page None) empty_browser).
  - split; [reflexivity|]. exists "30". repeat split.
  - split; reflexivity.
Defined.

(** X11.  With a token that is empty or white space only, [fetchAllData]
    sends no request and waits for nothing; it only sets the status to
    'error' with a message.  The list and the map of an earlier
    enumeration stay published. *)
Theorem blank_token_fetches_nothing vimeoToken env s :
  truthy (trim vimeoToken) = false →
  let s' := fetchAllData vimeoToken env s in
  requests s' = requests s ∧ delays s' = delays s
  ∧ videos s' = videos s ∧ folders s' = folders s
  ∧ status (progress s') = error
  ∧ is_Some (errorMessage (progress s')).
Proof.
  intros Htok. unfold fetchAllData. rewrite Htok. cbn. repeat split. eauto.
Qed.

Lemma blank_token_fetches_nothing_witness :
  let s' := fetchAllData "   " [] (setVideos [video_info
                 {| uri := "/videos/12"; name := "clip"; type := "video";
                    download := None; parent_folder := None |}] empty_browser) in
  requests s' = [] ∧ length (videos s') = 1%nat
  ∧ status (progress s') = error.
Proof.
  destruct (blank_token_fetches_nothing "   " []
              (setVideos [video_info
                 {| uri := "/videos/12"; name := "clip"; type := "video";
                    download := None; parent_folder := None |}] empty_browser)
              eq_refl) as (Hr & _ & Hv & _ & Hs & _).
  split; [exact Hr|]. split; [rewrite Hv; reflexivity | exact Hs].
Defined.

(** The loop over pages that are all answered, the last one naming no
    next page: it ends, with what the pages contribute added to what it
    started with. *)
Lemma fetch_pages_done pre :
  ∀ last url cp tp acc fm s,
    Forall page_continues pre → page_is_last last →
    ∃ tp' s',
      fetch_pages (pre ++ [last]) (Some url) cp tp acc fm s
      = Done
          (fold_left
             (λ a pe,
                match script_result (attempts pe) 0 with
                | Returned r => process_page a (data (resp_data r))
                | _ => a
                end) (pre ++ [last]) (acc, fm)).1
          (fold_left
             (λ a pe,
                match script_result (attempts pe) 0 with
                | Returned r => process_page a (data (resp_data r))
                | _ => a
                end) (pre ++ [last]) (acc, fm)).2
          tp' s'
      ∧ errorMessage (progress s') = errorMessage (progress s).
Proof.
  induction pre as [|pe pre IH]; intros last url cp tp acc fm s Hpre Hlast.
  - destruct Hlast as (r & Hr & Hnext). cbn [app fetch_pages fold_left].
    destruct (rateLimitedRequest_result url last s) as [Hres (_ & _ & Hp & _)].
    destruct (rateLimitedRequest url last s) as [res s1]. cbn [fst snd] in *.
    rewrite Hr in Hres. subst res. rewrite Hr.
    assert (Hnone : match paging_next (resp_data r) with
                    | Some n => if truthy n
                                then Some ("https://api.vimeo.com" +:+ n)
                                else None
                    | None => None
                    end = None).
    { destruct (paging_next (resp_data r)) as [n|]; [rewrite Hnext|];
        reflexivity. }
    rewrite Hnone.
    destruct (cp =? 1);
      destruct (process_page (acc, fm) (data (resp_data r))) as [acc' fm'];
      cbn [fetch_pages fst snd]; do 2 eexists; (split; [reflexivity|]);
      cbn; rewrite Hp; reflexivity.
  - apply Forall_cons in Hpre as [(r & n & Hr & Hn & Hnt) Hpre].
    cbn [app fetch_pages fold_left].
    destruct (rateLimitedRequest_result url pe s) as [Hres (_ & _ & Hp & _)].
    destruct (rateLimitedRequest url pe s) as [res s1]. cbn [fst snd] in *.
    rewrite Hr in Hres. subst res. rewrite Hr, Hn, Hnt.
    destruct (cp =? 1);
      destruct (process_page (acc, fm) (data (resp_data r))) as [acc' fm'];
      match goal with
      | |- context [fetch_pages _ (Some ?u) ?c ?t ?a ?f ?s0] =>
          destruct (IH last u c t a f s0 Hpre Hlast) as (tp' & s' & -> & He)
      end;
      do 2 eexists; (split; [reflexivity|]); rewrite He; cbn; rewrite Hp;
      reflexivity.
Qed.

(** X12.  When every page request of an enumeration is answered (after
    whatever retries) and the last answer names no next page,
    [fetchAllData] publishes the entries and folders of all the pages, in
    page order, sets the status to 'complete' with no error message, and
    reports as many videos as it publishes. *)
Theorem enumeration_publishes_all_pages vimeoToken pre last s :
  truthy (trim vimeoToken) = true →
  Forall page_continues pre → page_is_last last →
  let s' := fetchAllData vimeoToken (pre ++ [last]) s in
  videos s' = (collect (pre ++ [last])).1
  ∧ folders s' = (collect (pre ++ [last])).2
  ∧ status (progress s') = complete
  ∧ totalVideos (progress s') = Z.of_nat (length (videos s'))
  ∧ errorMessage (progress s') = None.
Proof.
  intros Htok Hpre Hlast. unfold fetchAllData, collect. rewrite Htok.
  cbn [negb].
  match goal with
  | |- context [fetch_pages _ (Some ?u) ?c ?t ?a ?f ?s0] =>
      destruct (fetch_pages_done pre last u c t a f s0 Hpre Hlast)
        as (tp' & s1 & -> & He)
  end.
  cbn in He. cbn. rewrite He. repeat split.
Qed.

Lemma enumeration_publishes_all_pages_witness :
  let first :=
    {| now := 1000;
       attempts :=
         [{| at_time := 1000; outcome := inl sample_rejection |};
          {| at_time := 3000;
             outcome := inr (sample_page (Some "/me/videos?page=2")) |}] |} in
  let second :=
    {| now := 3100;
       attempts := [{| at_time := 3500; outcome := inr (sample_page None) |}] |} in
  let s' := fetchAllData "token" ([first] ++ [second]) empty_browser in
  title <$> videos s' = ["clip"; "clip"]
  ∧ status (progress s') = complete.
Proof.
  intros first second s'.
  destruct (enumeration_publishes_all_pages "token" [first] second
              empty_browser eq_refl) as (Hv & _ & Hs & _).
  - constructor; [|constructor].
    exists (sample_page (Some "/me/videos?page=2")), "/me/videos?page=2".
    repeat split.
  - exists (sample_page None). split; [reflexivity | exact I].
  - split; [fold s' in Hv; rewrite Hv; reflexivity | exact Hs].
Defined.

Lemma group_fold vs :
  ∀ (g : gmap (option string) (list VimeoVideoInfo)) k,
    fold_left
      (λ groups video,
         let group := default [] (groups !! folderId video) in
         <[folderId video := group ++ [video]]> groups) vs g !! k
    = match g !! k, filter (λ v, folderId v = k) vs with
      | Some l, f => Some (l ++ f)
      | None, [] => None
      | None, f => Some f
      end.
Proof.
  induction vs as [|v vs IH]; intros g k.
  - cbn. destruct (g !! k) as [l|]; [rewrite app_nil_r|]; reflexivity.
  - cbn [fold_left]. rewrite IH. cbn zeta.
    destruct (decide (folderId v = k)) as [Hk|Hk].
    + rewrite filter_cons_True by exact Hk. rewrite Hk, lookup_insert_eq.
      destruct (g !! k) as [l|]; cbn; [rewrite <- app_assoc|]; reflexivity.
    + rewrite filter_cons_False by exact Hk.
      rewrite lookup_insert_ne by exact Hk. reflexivity.
Qed.

(** X13.  In the grouped view every group lists exactly the videos of its
    folder id, in the order of the flat list; the root group and a group
    for every folder of the map exist even when empty, and every video is
    in a group. *)
Theorem groups_partition_videos videos folders :
  let g := groupedVideos videos folders in
  (∀ k l, g !! k = Some l → l = filter (λ v, folderId v = k) videos)
  ∧ is_Some (g !! None)
  ∧ (∀ f, is_Some (folders !! f) → is_Some (g !! Some f))
  ∧ (∀ v, v ∈ videos → is_Some (g !! folderId v)).
Proof.
  unfold groupedVideos. cbn zeta.
  set (g0 := <[None := []]> (kmap Some ((λ _, []) <$> folders))
        : gmap (option string) (list VimeoVideoInfo)).
  assert (Hg0 : ∀ k l, g0 !! k = Some l → l = []).
  { intros k l. subst g0. destruct k as [f|].
    - rewrite lookup_insert_ne by discriminate.
      rewrite lookup_kmap by apply _. rewrite lookup_fmap.
      destruct (folders !! f); cbn; congruence.
    - rewrite lookup_insert_eq. congruence. }
  split; [|split; [|split]].
  - intros k l. rewrite group_fold.
    destruct (g0 !! k) as [l0|] eqn:E.
    + rewrite (Hg0 k l0 E). cbn. congruence.
    + destruct (filter (λ v, folderId v = k) videos); congruence.
  - rewrite group_fold. subst g0. rewrite lookup_insert_eq. eauto.
  - intros f [e He]. rewrite group_fold. subst g0.
    rewrite lookup_insert_ne by discriminate.
    rewrite lookup_kmap by apply _. rewrite lookup_fmap, He. cbn. eauto.
  - intros v Hin. rewrite group_fold.
    destruct (g0 !! folderId v); [eauto|].
    destruct (filter (λ w, folderId w = folderId v) videos) eqn:E; [|eauto].
    exfalso. assert (Hv : v ∈ filter (λ w, folderId w = folderId v) videos)
      by (apply list_elem_of_filter; split; [reflexivity | exact Hin]).
    rewrite E in Hv. apply elem_of_nil in Hv. exact Hv.
Qed.

End BrowserFacts.

(** * Properties of the transfer orchestrator *)

Module ImporterFacts.
Import Js Importer.

(** ** Rendition selection *)

(** The fold keeps the first of the largest entries: what precedes it is
    strictly smaller, what follows is not larger. *)
Lemma fold_larger_first_max rest :
  ∀ x, ∃ pre post,
    x :: rest = pre ++ fold_left larger rest x :: post
    ∧ Forall (λ y, size y < size (fold_left larger rest x)) pre
    ∧ Forall (λ y, size y ≤ size (fold_left larger rest x)) post.
Proof.
  induction rest as [|y rest IH] using rev_ind; intros x.
  - exists [], []. repeat split; constructor.
  - destruct (IH x) as (pre & post & Heq & Hpre & Hpost).
    rewrite fold_left_app. cbn [fold_left]. unfold larger at 1 3 5.
    destruct (size y >? size (fold_left larger rest x)) eqn:Hgt.
    + exists (pre ++ fold_left larger rest x :: post), [].
      split; [rewrite <- Heq; reflexivity|].
      split; [|constructor].
      apply Forall_app. split.
      * eapply Forall_impl; [exact Hpre|]. simpl. intros; lia.
      * constructor; [lia|].
        eapply Forall_impl; [exact Hpost|]. simpl. intros; lia.
    + exists pre, (post ++ [y]).
      split; [rewrite app_comm_cons, Heq, <- app_assoc; reflexivity|].
      split; [exact Hpre|].
      apply Forall_app. split; [exact Hpost|].
      constructor; [lia | constructor].
Qed.

(** C8.  On the renditions [{size:10, source}, {size:8}, {size:9}] the
    orchestrator selects the one of size 9; in general the selected
    rendition is an entry of the list without the source-class entries,
    every entry before it there is strictly smaller and every entry after
    it is not larger (the first maximum wins). *)
Theorem download_selection :
  select_download
    (Some [sample_entry 10 (Some "source"); sample_entry 8 None;
           sample_entry 9 None])
  = inr (sample_entry 9 None)
  ∧ ∀ dl d,
      select_download (Some dl) = inr d →
      ∃ pre post,
        filter not_source dl = pre ++ d :: post
        ∧ Forall (λ y, size y < size d) pre
        ∧ Forall (λ y, size y ≤ size d) post.
Proof.
  split; [reflexivity|].
  intros dl d Hsel. unfold select_download in Hsel.
  destruct dl as [|d0 dl]; [discriminate|].
  destruct (filter not_source (d0 :: dl)) as [|x rest]; [discriminate|].
  cbn [reduce] in Hsel. injection Hsel as <-.
  apply fold_larger_first_max.
Qed.

Lemma download_selection_witness :
  ∃ pre post,
    filter not_source
      [sample_entry 9 None; sample_entry 10 (Some "source");
       sample_entry 9 (Some "hd"); sample_entry 8 None]
    = pre ++ sample_entry 9 None :: post
    ∧ Forall (λ y, size y < 9) pre ∧ Forall (λ y, size y ≤ 9) post.
Proof.
  apply (proj2 download_selection
           [sample_entry 9 None; sample_entry 10 (Some "source");
            sample_entry 9 (Some "hd"); sample_entry 8 None]
           (sample_entry 9 None)).
  reflexivity.
Defined.

(** ** What the effects leave alone *)

Lemma same_queue_refl s : same_queue s s.
Proof. repeat split. Qed.

Lemma same_queue_trans s1 s2 s3 :
  same_queue s1 s2 → same_queue s2 s3 → same_queue s1 s3.
Proof.
  intros (?&?&?&?&?&?) (?&?&?&?&?&?). repeat split; congruence.
Qed.

Lemma pollVideoStatus_same_queue i v s : same_queue s (pollVideoStatus i v s).
Proof.
  unfold pollVideoStatus.
  destruct (pollTimers s !! i) as [t|]; [destruct (handle_truthy t)|];
    repeat split.
Qed.

Lemma resume_item_same_queue s item : same_queue s (resume_item s item).
Proof.
  unfold resume_item.
  destruct (igniteVideoId item) as [v|]; [|apply same_queue_refl].
  destruct (decide (stage item = polling)); [|apply same_queue_refl].
  destruct (truthy v); [|apply same_queue_refl].
  destruct (decide (id item ∈ resumedPollingIds s)); [apply same_queue_refl|].
  destruct (pollTimers s !! id item); [apply same_queue_refl|].
  eapply same_queue_trans; [|apply pollVideoStatus_same_queue]. repeat split.
Qed.

Lemma resume_fold_same_queue l :
  ∀ s, same_queue s (fold_left resume_item l s).
Proof.
  induction l as [|item l IH]; intros s; [apply same_queue_refl|].
  cbn [fold_left]. eapply same_queue_trans; [apply resume_item_same_queue|].
  apply IH.
Qed.

Lemma resumeEffect_same_queue s : same_queue s (resumeEffect s).
Proof.
  unfold resumeEffect.
  destruct (negb (settingsLoaded s) || negb (truthy (igniteToken s)));
    [apply same_queue_refl | apply resume_fold_same_queue].
Qed.

Lemma effects_imports s : imports (effects s) = imports s.
Proof.
  unfold effects. destruct (resumeEffect_same_queue (persistEffects s)) as [-> _].
  unfold persistEffects. destruct (settingsLoaded s); reflexivity.
Qed.

Lemma effects_tasks s : tasks (effects s) = tasks s.
Proof.
  unfold effects.
  destruct (resumeEffect_same_queue (persistEffects s)) as (_ & -> & _).
  unfold persistEffects. destruct (settingsLoaded s); reflexivity.
Qed.

(** ** Updates of the queue *)

Lemma apply_patch_id p item : id (apply_patch p item) = id item.
Proof. reflexivity. Qed.

Lemma update_items_ids i p l : id <$> update_items i p l = id <$> l.
Proof.
  unfold update_items. rewrite <- list_fmap_compose. apply list_fmap_ext.
  intros _ item _. simpl. destruct (decide (id item = i)); reflexivity.
Qed.

Lemma patched_id ps : ∀ item, id (patched ps item) = id item.
Proof.
  induction ps as [|p ps IH]; intros item; [reflexivity|].
  unfold patched in *. cbn [fold_left]. rewrite IH. reflexivity.
Qed.

Lemma apply_patches_imports i ps :
  ∀ s, imports (apply_patches i ps s)
       = (λ item, if decide (id item = i) then patched ps item else item)
           <$> imports s.
Proof.
  induction ps as [|p ps IH]; intros s.
  - cbn. symmetry. rewrite <- (list_fmap_id (imports s)) at 2.
    apply list_fmap_ext. intros _ item _. simpl.
    destruct (decide (id item = i)); reflexivity.
  - unfold apply_patches in *. cbn [fold_left]. rewrite IH.
    cbn [updateImport setImports imports]. unfold update_items.
    rewrite <- list_fmap_compose. apply list_fmap_ext.
    intros _ item _. simpl.
    destruct (decide (id item = i)) as [Hi|Hi].
    + rewrite decide_True by (rewrite apply_patch_id; exact Hi). reflexivity.
    + rewrite decide_False by exact Hi. reflexivity.
Qed.

(** [apply_patches] writes the queue only. *)
Lemma apply_patches_frame i ps :
  ∀ s, tasks (apply_patches i ps s) = tasks s
       ∧ pollTimers (apply_patches i ps s) = pollTimers s
       ∧ intervals (apply_patches i ps s) = intervals s
       ∧ nextTimerId (apply_patches i ps s) = nextTimerId s
       ∧ resumedPollingIds (apply_patches i ps s) = resumedPollingIds s
       ∧ polls (apply_patches i ps s) = polls s
       ∧ settingsLoaded (apply_patches i ps s) = settingsLoaded s
       ∧ igniteToken (apply_patches i ps s) = igniteToken s
       ∧ vimeoToken (apply_patches i ps s) = vimeoToken s
       ∧ storage (apply_patches i ps s) = storage s.
Proof.
  induction ps as [|p ps IH]; intros s; [repeat split|].
  unfold apply_patches in *. cbn [fold_left].
  destruct (IH (updateImport i p s)) as (?&?&?&?&?&?&?&?&?&?).
  repeat split; assumption.
Qed.

Lemma cancel_timer_imports i s : imports (cancel_timer i s) = imports s.
Proof.
  unfold cancel_timer.
  destruct (pollTimers s !! i) as [t|]; [destruct (handle_truthy t)|];
    reflexivity.
Qed.

Lemma cancel_timer_tasks i s : tasks (cancel_timer i s) = tasks s.
Proof.
  unfold cancel_timer.
  destruct (pollTimers s !! i) as [t|]; [destruct (handle_truthy t)|];
    reflexivity.
Qed.

(** ** A single reply to a suspended import *)

(** A reply that ends in the [catch] block: every item with the id of
    the import is in stage 'error' with the message extracted from the
    error, and the invocation is over. *)
Lemma caught_step s k t r e :
  tasks s !! k = Some t →
  resume_task t r = Some (catch_block e) →
  ∃ s', step s (TaskReply k r) = Some s'
        ∧ imports s'
          = update_items (id (importItem t)) (error_patch (extractAxiosError e))
              (imports s)
        ∧ (∀ item', item' ∈ imports s' → id item' = id (importItem t) →
             stage item' = error
             ∧ errorMessage item' = Some (extractAxiosError e))
        ∧ tasks s' = delete k (tasks s).
Proof.
  intros Ht Hres. unfold step, handle, taskReply.
  rewrite Ht. cbn [mbind option_bind]. rewrite Hres. cbn [mbind option_bind].
  eexists. split; [reflexivity|].
  rewrite effects_imports, effects_tasks.
  cbn [catch_block next patches].
  rewrite cancel_timer_imports, cancel_timer_tasks.
  split; [reflexivity|]. split; [|reflexivity].
  intros item' Hin Hid.
  cbn [apply_patches fold_left updateImport setImports imports set_tasks] in Hin.
  unfold update_items in Hin. apply list_elem_of_fmap in Hin as (item & -> & _).
  destruct (decide (id item = id (importItem t))) as [_|Hne];
    [split; reflexivity | contradiction].
Qed.

Lemma append_assoc (a b c : string) : (a +:+ b) +:+ c = a +:+ b +:+ c.
Proof.
  induction a as [|x a IH]; [reflexivity|].
  change (String x ((a +:+ b) +:+ c) = String x (a +:+ b +:+ c)).
  f_equal. exact IH.
Qed.

Lemma contains_intro pre sub post : contains sub (pre +:+ sub +:+ post).
Proof. exists pre, post. reflexivity. Qed.

Lemma already_imported_contains d :
  contains (doc_id d) (already_imported_message d)
  ∧ contains (doc_title d) (already_imported_message d).
Proof.
  unfold already_imported_message. split.
  - apply contains_intro.
  - exists ("Already imported (ID: " +:+ doc_id d +:+ ", Title: " +:+ dquote),
      (dquote +:+ ")").
    rewrite !append_assoc. reflexivity.
Qed.

(** C5.  When the pre-check finds a record tagged with the source id, the
    import goes from 'checking' straight to 'error': the reply is answered
    by one update that puts every item of that id in stage 'error', the
    message names the id and the title of the existing record, the
    invocation ends there, and 'error' is the only stage it ever assigns
    (so 'fetching_vimeo' is never entered). *)
Theorem duplicate_stops_import s k t d ds :
  tasks s !! k = Some t →
  pending t = AwaitCheck →
  let found := CheckReply (inr (Some (d :: ds))) in
  let msg := already_imported_message d in
  ∃ s', step s (TaskReply k found) = Some s'
        ∧ imports s' = update_items (id (importItem t)) (error_patch msg) (imports s)
        ∧ (∀ item', item' ∈ imports s' → id item' = id (importItem t) →
             stage item' = error ∧ errorMessage item' = Some msg)
        ∧ contains (doc_id d) msg ∧ contains (doc_title d) msg
        ∧ tasks s' = delete k (tasks s)
        ∧ ∀ replies, stages_assigned t (found :: replies) = [error].
Proof.
  intros Ht Hp found msg.
  assert (Hres : resume_task t found = Some (catch_block (new_Error msg))).
  { unfold resume_task. rewrite Hp. reflexivity. }
  destruct (caught_step s k t found (new_Error msg) Ht Hres)
    as (s' & Hstep & Himp & Hitems & Htasks).
  assert (Hmsg : extractAxiosError (new_Error msg) = msg) by reflexivity.
  rewrite Hmsg in Himp.
  exists s'. split; [exact Hstep|]. split; [exact Himp|].
  split; [exact Hitems|].
  destruct (already_imported_contains d) as [Hid Htitle].
  split; [exact Hid|]. split; [exact Htitle|]. split; [exact Htasks|].
  intros replies. unfold stages_assigned. cbn [run_task]. rewrite Hres.
  reflexivity.
Qed.

Lemma duplicate_stops_import_witness :
  let s := after (take 3 to_polling) in
  let d := {| doc_id := "rec-0"; doc_title := "Clip" |} in
  ∃ s', step s (TaskReply 0 (CheckReply (inr (Some [d])))) = Some s'
        ∧ stage <$> imports s' = [error]
        ∧ errorMessage <$> imports s'
          = [Some ("Already imported (ID: rec-0, Title: " +:+ dquote
                   +:+ "Clip" +:+ dquote +:+ ")")].
Proof.
  intros s d.
  destruct (duplicate_stops_import s 0
              {| importItem := newImport 1700000000000 "42" sample_options;
                 pending := AwaitCheck |} d [])
    as (s' & Hstep & Himp & _); [reflexivity | reflexivity |].
  exists s'. split; [exact Hstep|]. rewrite Himp. split; reflexivity.
Defined.

(** ** Rejected requests *)

Lemma fatal_rejection_caught t r e :
  fatal_rejection (pending t) r e → resume_task t r = Some (catch_block e).
Proof.
  unfold fatal_rejection, resume_task.
  destruct (pending t); destruct r as [r|r|r|r|r|r]; try contradiction;
    destruct r as [e'|x]; try contradiction; intros ->; reflexivity.
Qed.

Lemma rejected_message e :
  is_rejected e →
  ∃ r msg, response e = Some r
           ∧ extractAxiosError e = pretty (err_status r) +:+ ": " +:+ msg.
Proof.
  intros [r Hr]. unfold extractAxiosError. rewrite Hr. eauto.
Qed.

(** C2, as the code has it.  A rejection of the metadata fetch, of the
    binary download, of the record creation or of the binary upload puts
    the item in stage 'error' with the message "<status>: <text>" and
    ends the invocation, which is not started again.  A rejected
    duplicate pre-check is taken for "no duplicate": the item moves on to
    'fetching_vimeo' and the invocation waits for the metadata.  A
    rejected status poll changes nothing but the list of requests in
    flight: the item is untouched and its timer stays. *)
Theorem rejected_request_outcomes :
  (∀ s k t r e,
     tasks s !! k = Some t → fatal_rejection (pending t) r e →
     is_rejected e →
     ∃ s', step s (TaskReply k r) = Some s'
           ∧ (∀ item', item' ∈ imports s' → id item' = id (importItem t) →
                stage item' = error
                ∧ errorMessage item' = Some (extractAxiosError e))
           ∧ (∃ st msg, response e = Some st
                ∧ extractAxiosError e = pretty (err_status st) +:+ ": " +:+ msg)
           ∧ tasks s' = delete k (tasks s))
  ∧ (∀ s k t e,
       tasks s !! k = Some t → pending t = AwaitCheck →
       ∃ s', step s (TaskReply k (CheckReply (inl e))) = Some s'
             ∧ (∀ item', item' ∈ imports s' → id item' = id (importItem t) →
                  stage item' = fetching_vimeo)
             ∧ tasks s' !! k
               = Some {| importItem := importItem t; pending := AwaitVimeoData |})
  ∧ (∀ s k c e,
       polls s !! k = Some c →
       handle s (PollReply k (inl e)) = Some (set_polls (delete k (polls s)) s)
       ∧ ∃ s', step s (PollReply k (inl e)) = Some s'
               ∧ imports s' = imports s).
Proof.
  split; [|split].
  - intros s k t r e Ht Hfatal Hrej.
    destruct (caught_step s k t r e Ht (fatal_rejection_caught t r e Hfatal))
      as (s' & Hstep & _ & Hitems & Htasks).
    exists s'. split; [exact Hstep|]. split; [exact Hitems|].
    split; [apply rejected_message; exact Hrej | exact Htasks].
  - intros s k t e Ht Hp. unfold step, handle, taskReply.
    rewrite Ht. cbn [mbind option_bind]. unfold resume_task. rewrite Hp.
    cbn [checkExistingVimeoImport mbind option_bind fmap option_fmap option_map
         next patches].
    eexists. split; [reflexivity|].
    rewrite effects_imports, effects_tasks. split.
    + intros item' Hin Hid.
      cbn [apply_patches fold_left updateImport setImports imports set_tasks]
        in Hin.
      unfold update_items in Hin.
      apply list_elem_of_fmap in Hin as (item & -> & _).
      destruct (decide (id item = id (importItem t))) as [_|Hne];
        [reflexivity | contradiction].
    + cbn [tasks set_tasks apply_patches fold_left updateImport setImports].
      apply list_lookup_insert_eq. eapply lookup_lt_Some. exact Ht.
  - intros s k c e Hc. unfold step, handle, pollReply. rewrite Hc.
    cbn [mbind option_bind]. split; [reflexivity|].
    eexists. split; [reflexivity|]. rewrite effects_imports. reflexivity.
Qed.

Lemma rejected_request_outcomes_witness :
  let s := after (take 4 to_polling) in
  ∃ s', step s (TaskReply 0 (VimeoReply (inl (rejection 403)))) = Some s'
        ∧ ∀ item', item' ∈ imports s' → id item' = "1700000000000-42" →
            stage item' = error ∧ errorMessage item' = Some "403: denied".
Proof.
  intros s.
  destruct (proj1 rejected_request_outcomes s 0%nat
              {| importItem := newImport 1700000000000 "42" sample_options;
                 pending := AwaitVimeoData |}
              (VimeoReply (inl (rejection 403))) (rejection 403))
    as (s' & Hstep & Hitems & _);
    [reflexivity | reflexivity | eexists; reflexivity |].
  exists s'. split; [exact Hstep | exact Hitems].
Defined.

(** C2 fails as stated.  On a fresh process, the duplicate pre-check of a
    new import is rejected with status 500: the item is in stage
    'fetching_vimeo' with no error message.  And when an import that
    reached 'polling' has its status poll rejected with status 500, the
    item stays in 'polling' with no error message, its timer registered. *)
Lemma rejected_precheck_and_poll_are_swallowed :
  (∃ s', run (mount empty_storage)
           (take 3 to_polling
            ++ [TaskReply 0 (CheckReply (inl (rejection 500)))]) = Some s'
         ∧ stage <$> imports s' = [fetching_vimeo]
         ∧ errorMessage <$> imports s' = [None])
  ∧ (∃ s', run (mount empty_storage)
             (to_polling ++ [PollReply 0 (inl (rejection 500))]) = Some s'
           ∧ stage <$> imports s' = [polling]
           ∧ errorMessage <$> imports s' = [None]
           ∧ pollTimers s' !! "1700000000000-42" = Some 1%nat).
Proof.
  split; (eexists; split; [vm_compute; reflexivity|]); repeat split.
Qed.

(** ** The timer table *)

Lemma timers_wf_empty : timers_wf ∅ ∅ 1.
Proof.
  unfold timers_wf. split; [|split; [|split]].
  - intros i t H. rewrite lookup_empty in H. discriminate.
  - intros t i v H. rewrite lookup_empty in H. discriminate.
  - intros t c H. rewrite lookup_empty in H. discriminate.
  - lia.
Qed.

Lemma timers_wf_truthy m iv n i t :
  timers_wf m iv n → m !! i = Some t → handle_truthy t = true.
Proof.
  intros (Hm & _ & Hlt & _) Hi. destruct (Hm i t Hi) as [v Hv].
  specialize (Hlt t _ Hv). unfold handle_truthy.
  destruct t; [lia | reflexivity].
Qed.

(** Clearing the timer of [i] and forgetting its handle. *)
Lemma timers_wf_cancel m iv n i t :
  timers_wf m iv n → m !! i = Some t →
  timers_wf (delete i m) (delete t iv) n.
Proof.
  intros (Hm & Hiv & Hlt & Hn) Hi. split; [|split; [|split]].
  - intros j t' Hj. apply lookup_delete_Some in Hj as [Hne Hj].
    destruct (Hm j t' Hj) as [v Hv]. exists v.
    rewrite lookup_delete_ne; [exact Hv|].
    intros Heq. subst t'. destruct (Hm i t Hi) as [v' Hv']. congruence.
  - intros t' j v Ht'. apply lookup_delete_Some in Ht' as [Hne Ht'].
    rewrite lookup_delete_ne; [eapply Hiv; exact Ht'|].
    intros Heq. subst j. specialize (Hiv _ _ _ Ht'). congruence.
  - intros t' c Ht'. apply lookup_delete_Some in Ht' as [_ Ht'].
    eapply Hlt, Ht'.
  - exact Hn.
Qed.

(** Registering a new timer for [i] after clearing the one it had. *)
Lemma timers_wf_register m iv n i v :
  timers_wf m iv n →
  timers_wf (<[i := n]> m)
    (<[n := (i, v)]> match m !! i with Some t => delete t iv | None => iv end)
    (S n).
Proof.
  intros Hwf.
  assert (Hwf' : timers_wf (delete i m)
                   match m !! i with Some t => delete t iv | None => iv end n).
  { destruct (m !! i) as [t|] eqn:Hi.
    - apply timers_wf_cancel; assumption.
    - rewrite delete_id by exact Hi. exact Hwf. }
  destruct Hwf' as (Hm & Hiv & Hlt & Hn).
  set (iv' := match m !! i with Some t => delete t iv | None => iv end) in *.
  assert (Hfresh : iv' !! n = None).
  { destruct (iv' !! n) as [c|] eqn:Hc; [|reflexivity].
    specialize (Hlt n c Hc). lia. }
  split; [|split; [|split]].
  - intros j t Hj. destruct (decide (i = j)) as [<-|Hne].
    + rewrite lookup_insert_eq in Hj. injection Hj as <-.
      exists v. apply lookup_insert_eq.
    + rewrite lookup_insert_ne in Hj by exact Hne.
      destruct (Hm j t) as [v' Hv'];
        [rewrite lookup_delete_ne by exact Hne; exact Hj|].
      exists v'. rewrite lookup_insert_ne; [exact Hv'|].
      intros Heq. subst t. congruence.
  - intros t j v' Ht. destruct (decide (n = t)) as [<-|Hne].
    + rewrite lookup_insert_eq in Ht. injection Ht as <- <-.
      apply lookup_insert_eq.
    + rewrite lookup_insert_ne in Ht by exact Hne.
      specialize (Hiv t j v' Ht).
      apply lookup_delete_Some in Hiv as [Hij Hj].
      rewrite lookup_insert_ne by exact Hij. exact Hj.
  - intros t c Ht. destruct (decide (n = t)) as [<-|Hne]; [lia|].
    rewrite lookup_insert_ne in Ht by exact Hne. specialize (Hlt t c Ht). lia.
  - lia.
Qed.

Lemma cancel_timer_ok i s : timers_ok s → timers_ok (cancel_timer i s).
Proof.
  unfold timers_ok, cancel_timer. intros Hwf.
  destruct (pollTimers s !! i) as [t|] eqn:Hi; [|exact Hwf].
  rewrite (timers_wf_truthy _ _ _ _ _ Hwf Hi).
  cbn. apply timers_wf_cancel; assumption.
Qed.

Lemma stop_poll_timer_ok i s : timers_ok s → timers_ok (stop_poll_timer i s).
Proof.
  unfold timers_ok, stop_poll_timer. intros Hwf.
  destruct (pollTimers s !! i) as [t|] eqn:Hi.
  - rewrite (timers_wf_truthy _ _ _ _ _ Hwf Hi).
    cbn. apply timers_wf_cancel; assumption.
  - cbn. rewrite delete_id by exact Hi. exact Hwf.
Qed.

Lemma pollVideoStatus_ok i v s : timers_ok s → timers_ok (pollVideoStatus i v s).
Proof.
  unfold timers_ok, pollVideoStatus. intros Hwf.
  pose proof (timers_wf_register _ _ _ i v Hwf) as Hreg.
  destruct (pollTimers s !! i) as [t|] eqn:Hi.
  - rewrite (timers_wf_truthy _ _ _ _ _ Hwf Hi). cbn. exact Hreg.
  - cbn. exact Hreg.
Qed.

(** The handle registered under an id is its only live timer. *)
Lemma timers_ok_exactly_one s i :
  timers_ok s → is_Some (pollTimers s !! i) → exactly_one_timer s i.
Proof.
  intros (Hm & Hiv & _) [t Ht]. exists t. split; [exact Ht|].
  split; [apply (Hm i t Ht)|].
  intros t' [v' Hv']. specialize (Hiv _ _ _ Hv'). congruence.
Qed.

Lemma pollVideoStatus_registered i v s :
  is_Some (pollTimers (pollVideoStatus i v s) !! i).
Proof.
  unfold pollVideoStatus.
  destruct (pollTimers s !! i) as [t|]; [destruct (handle_truthy t)|];
    cbn; rewrite lookup_insert_eq; eauto.
Qed.

(** ** Items in 'polling' and their timers *)

Lemma NoDup_ids_eq (l : list ImportItem) a b :
  NoDup (id <$> l) → a ∈ l → b ∈ l → id a = id b → a = b.
Proof.
  induction l as [|x l IH]; intros Hnd Ha Hb Hid.
  - apply elem_of_nil in Ha. contradiction.
  - cbn in Hnd. apply NoDup_cons in Hnd as [Hx Hnd].
    apply elem_of_cons in Ha as [->|Ha]; apply elem_of_cons in Hb as [->|Hb].
    + reflexivity.
    + exfalso. apply Hx. rewrite Hid. apply list_elem_of_fmap. eauto.
    + exfalso. apply Hx. rewrite <- Hid. apply list_elem_of_fmap. eauto.
    + apply IH; assumption.
Qed.

Lemma touches_only_refl i s : touches_only i s s.
Proof. repeat split. Qed.

Lemma touches_only_trans i s1 s2 s3 :
  touches_only i s1 s2 → touches_only i s2 s3 → touches_only i s1 s3.
Proof.
  intros (?&?&?&?&?&Hl1) (?&?&?&?&?&Hl2).
  repeat split; try congruence.
  intros j Hj. rewrite Hl2, Hl1 by exact Hj. reflexivity.
Qed.

Lemma cancel_timer_touches i s : touches_only i s (cancel_timer i s).
Proof.
  unfold cancel_timer.
  destruct (pollTimers s !! i) as [t|]; [destruct (handle_truthy t)|];
    try apply touches_only_refl.
  repeat split. intros j Hj. cbn. apply lookup_delete_ne. congruence.
Qed.

Lemma stop_poll_timer_touches i s : touches_only i s (stop_poll_timer i s).
Proof.
  unfold stop_poll_timer.
  destruct (pollTimers s !! i) as [t|]; [destruct (handle_truthy t)|];
    (repeat split; intros j Hj; cbn; apply lookup_delete_ne; congruence).
Qed.

Lemma pollVideoStatus_touches i v s : touches_only i s (pollVideoStatus i v s).
Proof.
  unfold pollVideoStatus.
  destruct (pollTimers s !! i) as [t|]; [destruct (handle_truthy t)|];
    (repeat split; intros j Hj; cbn; apply lookup_insert_ne; congruence).
Qed.

Lemma set_tasks_touches i l s : touches_only i s (set_tasks l s).
Proof. repeat split. Qed.

Lemma tracked_weaken i s : polling_tracked s → polling_tracked_but i s.
Proof. intros H item Hin Hst _. apply H; assumption. Qed.

Lemma tracked_but_touches i s s' :
  touches_only i s s' → polling_tracked_but i s → polling_tracked_but i s'.
Proof.
  intros (Himp & Hres & _ & _ & _ & Hlook) H item Hin Hst Hne.
  rewrite Himp in Hin. rewrite Hres, Hlook by exact Hne.
  apply H; assumption.
Qed.

Lemma tracked_but_patches i ps s :
  polling_tracked_but i s → polling_tracked_but i (apply_patches i ps s).
Proof.
  intros H item Hin Hst Hne.
  destruct (apply_patches_frame i ps s) as (_ & -> & _ & _ & -> & _).
  rewrite apply_patches_imports in Hin.
  apply list_elem_of_fmap in Hin as (item0 & -> & Hin).
  destruct (decide (id item0 = i)) as [Hi|Hi].
  - rewrite patched_id in Hne. contradiction.
  - apply H; assumption.
Qed.

Lemma tracked_of_registered i s :
  polling_tracked_but i s → is_Some (pollTimers s !! i) → polling_tracked s.
Proof.
  intros H Hreg item Hin Hst.
  destruct (decide (id item = i)) as [->|Hne]; [left; exact Hreg|].
  apply H; assumption.
Qed.

Lemma tracked_of_none_polling i s :
  polling_tracked_but i s → none_polling i s → polling_tracked s.
Proof.
  intros H Hnone item Hin Hst.
  destruct (decide (id item = i)) as [Hi|Hne].
  - exfalso. exact (Hnone item Hin Hi Hst).
  - apply H; assumption.
Qed.

(** The stage an item is left in by a sequence of patches. *)
Lemma patched_stage ps :
  ∀ item,
    stage (patched ps item)
    = fold_left (λ st p, default st (p_stage p)) ps (stage item).
Proof.
  induction ps as [|p ps IH]; intros item; [reflexivity|].
  unfold patched in *. cbn [fold_left]. rewrite IH. reflexivity.
Qed.

Lemma patched_stage_kept ps item :
  Forall not_to_polling ps →
  stage (patched ps item) = polling → stage item = polling.
Proof.
  rewrite patched_stage. generalize (stage item) as st.
  induction ps as [|p ps IH]; intros st Hall Hst; [exact Hst|].
  apply Forall_cons in Hall as [Hp Hall]. cbn [fold_left] in Hst.
  specialize (IH _ Hall Hst). unfold not_to_polling in Hp.
  destruct (p_stage p) as [x|]; [cbn in IH; congruence | exact IH].
Qed.

Lemma patched_stage_last ps p x item :
  p_stage p = Some x → stage (patched (ps ++ [p]) item) = x.
Proof.
  intros Hp. rewrite patched_stage, fold_left_app. cbn. rewrite Hp.
  reflexivity.
Qed.

Lemma tracked_patches i ps s :
  Forall not_to_polling ps →
  polling_tracked s → polling_tracked (apply_patches i ps s).
Proof.
  intros Hall H item Hin Hst.
  destruct (apply_patches_frame i ps s) as (_ & -> & _ & _ & -> & _).
  rewrite apply_patches_imports in Hin.
  apply list_elem_of_fmap in Hin as (item0 & -> & Hin).
  destruct (decide (id item0 = i)) as [Hi|Hi].
  - rewrite patched_id. apply H; [exact Hin|].
    eapply patched_stage_kept; eassumption.
  - apply H; assumption.
Qed.

Lemma none_polling_patches i ps p x s :
  p_stage p = Some x → x ≠ polling →
  none_polling i (apply_patches i (ps ++ [p]) s).
Proof.
  intros Hp Hx item Hin Hid.
  rewrite apply_patches_imports in Hin.
  apply list_elem_of_fmap in Hin as (item0 & -> & Hin).
  destruct (decide (id item0 = i)) as [Hi|Hi].
  - rewrite (patched_stage_last ps p x item0 Hp). exact Hx.
  - contradiction.
Qed.

Lemma none_polling_touches i s s' :
  imports s' = imports s → none_polling i s → none_polling i s'.
Proof. intros Himp H item Hin. rewrite Himp in Hin. apply H. exact Hin. Qed.

(** ** The resume effect *)

Lemma resumed_from_refl s : resumed_from s s.
Proof.
  split; [apply same_queue_refl|]. repeat split; auto.
Qed.

Lemma resumed_from_trans s1 s2 s3 :
  resumed_from s1 s2 → resumed_from s2 s3 → resumed_from s1 s3.
Proof.
  intros (Hq1 & Ht1 & Hr1 & Hn1) (Hq2 & Ht2 & Hr2 & Hn2).
  split; [eapply same_queue_trans; eassumption|].
  split; [auto|]. split; [auto|].
  intros i Hi. destruct (Hn2 i Hi) as [Hi2|Hi2]; [|right; exact Hi2].
  destruct (Hn1 i Hi2) as [Hi1|Hi1]; [left; exact Hi1 | right; auto].
Qed.

Lemma pollVideoStatus_keeps_timers i v s j :
  is_Some (pollTimers s !! j) → is_Some (pollTimers (pollVideoStatus i v s) !! j).
Proof.
  intros Hj. destruct (decide (j = i)) as [->|Hne].
  - apply pollVideoStatus_registered.
  - destruct (pollVideoStatus_touches i v s) as (_ & _ & _ & _ & _ & Hlook).
    rewrite Hlook by exact Hne. exact Hj.
Qed.

Lemma pollVideoStatus_resumed i v s :
  resumedPollingIds (pollVideoStatus i v s) = resumedPollingIds s.
Proof. apply (pollVideoStatus_touches i v s). Qed.

Lemma resume_item_from s item : resumed_from s (resume_item s item).
Proof.
  unfold resume_item.
  destruct (igniteVideoId item) as [v|]; [|apply resumed_from_refl].
  destruct (decide (stage item = polling)); [|apply resumed_from_refl].
  destruct (truthy v); [|apply resumed_from_refl].
  destruct (decide (id item ∈ resumedPollingIds s)); [apply resumed_from_refl|].
  destruct (pollTimers s !! id item) eqn:Hlook; [apply resumed_from_refl|].
  split; [|split; [|split]].
  - eapply same_queue_trans; [|apply pollVideoStatus_same_queue]. repeat split.
  - intros i Hi.
    apply (pollVideoStatus_keeps_timers (id item) v
             (set_resumed ({[id item]} ∪ resumedPollingIds s) s) i Hi).
  - intros i Hi. rewrite pollVideoStatus_resumed. cbn. set_solver.
  - intros i Hi. rewrite pollVideoStatus_resumed in Hi. cbn in Hi.
    apply elem_of_union in Hi as [Hi|Hi]; [|left; exact Hi].
    apply elem_of_singleton in Hi as ->. right.
    apply pollVideoStatus_registered.
Qed.

Lemma resume_item_ok s item : timers_ok s → timers_ok (resume_item s item).
Proof.
  intros Hok. unfold resume_item.
  destruct (igniteVideoId item) as [v|]; [|exact Hok].
  destruct (decide (stage item = polling)); [|exact Hok].
  destruct (truthy v); [|exact Hok].
  destruct (decide (id item ∈ resumedPollingIds s)); [exact Hok|].
  destruct (pollTimers s !! id item); [exact Hok|].
  apply pollVideoStatus_ok. exact Hok.
Qed.

(** An item the effect is meant for has a timer afterwards, unless its id
    was marked as resumed before. *)
Lemma resume_item_covers s item :
  stage item = polling → opt_truthy (igniteVideoId item) = true →
  is_Some (pollTimers (resume_item s item) !! id item)
  ∨ id item ∈ resumedPollingIds s.
Proof.
  intros Hst Hv. unfold resume_item.
  destruct (igniteVideoId item) as [v|]; [|discriminate]. cbn in Hv.
  rewrite decide_True by exact Hst. rewrite Hv.
  destruct (decide (id item ∈ resumedPollingIds s)); [right; assumption|].
  destruct (pollTimers s !! id item) eqn:Hlook.
  - left. rewrite Hlook. eauto.
  - left. apply pollVideoStatus_registered.
Qed.

Lemma resume_fold l :
  ∀ s,
    resumed_from s (fold_left resume_item l s)
    ∧ (timers_ok s → timers_ok (fold_left resume_item l s))
    ∧ ∀ item, item ∈ l → stage item = polling →
        opt_truthy (igniteVideoId item) = true →
        is_Some (pollTimers (fold_left resume_item l s) !! id item)
        ∨ id item ∈ resumedPollingIds s.
Proof.
  induction l as [|x l IH]; intros s.
  - split; [apply resumed_from_refl|]. split; [auto|].
    intros item Hin. apply elem_of_nil in Hin. contradiction.
  - cbn [fold_left].
    destruct (IH (resume_item s x)) as (Hfrom & Hok & Hcov).
    pose proof (resume_item_from s x) as Hx.
    split; [eapply resumed_from_trans; eassumption|].
    split; [intros H; apply Hok, resume_item_ok, H|].
    intros item Hin Hst Hv.
    destruct Hfrom as (_ & Hkeep & _ & _).
    apply elem_of_cons in Hin as [->|Hin].
    + destruct (resume_item_covers s x Hst Hv) as [H|H];
        [left; apply Hkeep, H | right; exact H].
    + destruct (Hcov item Hin Hst Hv) as [H|H]; [left; exact H|].
      destruct Hx as (_ & _ & _ & Hnew).
      destruct (Hnew _ H) as [H'|H']; [right; exact H' | left; apply Hkeep, H'].
Qed.

Lemma persistEffects_loaded s :
  settingsLoaded s = true →
  stored_imports (storage (persistEffects s)) = Some (imports s)
  ∧ imports (persistEffects s) = imports s
  ∧ pollTimers (persistEffects s) = pollTimers s
  ∧ intervals (persistEffects s) = intervals s
  ∧ nextTimerId (persistEffects s) = nextTimerId s
  ∧ resumedPollingIds (persistEffects s) = resumedPollingIds s
  ∧ settingsLoaded (persistEffects s) = true
  ∧ igniteToken (persistEffects s) = igniteToken s.
Proof.
  intros Hl. unfold persistEffects. rewrite Hl. repeat split. exact Hl.
Qed.

(** The effects turn what holds after a handler into the invariant. *)
Lemma effects_ok s : handled_ok s → state_ok (effects s).
Proof.
  intros (Htm & Hnd & Hl & Htr). unfold effects.
  destruct (persistEffects_loaded s Hl)
    as (Hsto & Himp & Hpt & Hiv & Hnx & Hres & Hl' & Htok).
  set (s1 := persistEffects s) in *.
  assert (Htm1 : timers_ok s1) by (unfold timers_ok; rewrite Hpt, Hiv, Hnx; exact Htm).
  assert (Htr1 : polling_tracked s1).
  { intros item Hin Hst. rewrite Hpt, Hres. rewrite Himp in Hin. auto. }
  unfold resumeEffect. rewrite Hl'. cbn [negb orb].
  destruct (truthy (igniteToken s1)) eqn:Htk; cbn [negb].
  - destruct (resume_fold (imports s1) s1)
      as (((Hi & _ & Htok' & _ & Hl2 & Hst2) & Hkeep & Hmono & Hnew) & Hok & Hcov).
    split; [apply Hok, Htm1|].
    split; [rewrite Hi, Himp; exact Hnd|].
    split; [rewrite Hl2; exact Hl'|].
    split; [|rewrite Hst2, Hi, Hsto, Himp; reflexivity].
    intros item Hin Hst. rewrite Hi in Hin.
    destruct (opt_truthy (igniteVideoId item)) eqn:Hv.
    + left. destruct (Hcov item Hin Hst Hv) as [H|H]; [exact H|].
      destruct (Htr1 item Hin Hst) as [H'|H']; [apply Hkeep, H' | contradiction].
    + destruct (decide (id item ∈ resumedPollingIds (fold_left resume_item (imports s1) s1)))
        as [Hr|Hr].
      * left. destruct (Hnew _ Hr) as [H|H]; [|exact H].
        destruct (Htr1 item Hin Hst) as [H'|H']; [apply Hkeep, H' | contradiction].
      * right. split; [exact Hr | left; reflexivity].
  - split; [exact Htm1|]. split; [rewrite Himp; exact Hnd|].
    split; [exact Hl'|]. split; [|rewrite Hsto, Himp; reflexivity].
    intros item Hin Hst.
    destruct (Htr1 item Hin Hst) as [H|H]; [left; exact H|].
    right. split; [exact H | right; exact Htk].
Qed.

(** ** What every handler preserves *)

Lemma state_ok_handled s : state_ok s → handled_ok s.
Proof.
  intros (Htm & Hnd & Hl & Hp & _).
  split; [exact Htm|]. split; [exact Hnd|]. split; [exact Hl|].
  intros item Hin Hst. destruct (Hp item Hin Hst) as [H|[H _]]; auto.
Qed.

Lemma apply_patches_ids i ps s :
  id <$> imports (apply_patches i ps s) = id <$> imports s.
Proof.
  rewrite apply_patches_imports, <- list_fmap_compose.
  apply list_fmap_ext. intros _ item _. simpl.
  destruct (decide (id item = i)); [apply patched_id | reflexivity].
Qed.

Lemma apply_patches_timers_ok i ps s :
  timers_ok s → timers_ok (apply_patches i ps s).
Proof.
  unfold timers_ok.
  destruct (apply_patches_frame i ps s) as (_ & -> & -> & -> & _). auto.
Qed.

Lemma handled_patches i ps s :
  Forall not_to_polling ps → handled_ok s → handled_ok (apply_patches i ps s).
Proof.
  intros Hall (Htm & Hnd & Hl & Htr).
  split; [apply apply_patches_timers_ok, Htm|].
  split; [rewrite apply_patches_ids; exact Hnd|].
  split; [|apply tracked_patches; assumption].
  destruct (apply_patches_frame i ps s) as (_&_&_&_&_&_& -> & _). exact Hl.
Qed.

(** Patches that end outside 'polling', then a change of the timer of
    the same id only. *)
Lemma handled_after_stop i ps p x s s' :
  handled_ok s → p_stage p = Some x → x ≠ polling →
  touches_only i (apply_patches i (ps ++ [p]) s) s' →
  timers_ok s' → handled_ok s'.
Proof.
  intros (Htm & Hnd & Hl & Htr) Hp Hx Htouch Htm'.
  pose proof Htouch as (Himp & _ & Hl' & _).
  split; [exact Htm'|].
  split; [rewrite Himp, apply_patches_ids; exact Hnd|].
  split.
  - rewrite Hl'.
    destruct (apply_patches_frame i (ps ++ [p]) s) as (_&_&_&_&_&_& -> & _).
    exact Hl.
  - apply (tracked_of_none_polling i).
    + eapply tracked_but_touches; [exact Htouch|].
      apply tracked_but_patches, tracked_weaken, Htr.
    + eapply none_polling_touches; [exact Himp|].
      eapply none_polling_patches; eassumption.
Qed.

(** Any patches, then a registration of a timer under the same id. *)
Lemma handled_after_register i ps s s' :
  handled_ok s →
  touches_only i (apply_patches i ps s) s' →
  timers_ok s' → is_Some (pollTimers s' !! i) → handled_ok s'.
Proof.
  intros (Htm & Hnd & Hl & Htr) Htouch Htm' Hreg.
  pose proof Htouch as (Himp & _ & Hl' & _).
  split; [exact Htm'|].
  split; [rewrite Himp, apply_patches_ids; exact Hnd|].
  split.
  - rewrite Hl'.
    destruct (apply_patches_frame i ps s) as (_&_&_&_&_&_& -> & _).
    exact Hl.
  - apply (tracked_of_registered i); [|exact Hreg].
    eapply tracked_but_touches; [exact Htouch|].
    apply tracked_but_patches, tracked_weaken, Htr.
Qed.

Ltac patch_shape :=
  repeat match goal with
         | |- Forall _ [] => constructor
         | |- Forall _ (_ :: _) => constructor
         | |- not_to_polling _ => unfold not_to_polling; cbn; discriminate
         end.

(** The updates of a continuation: they stay out of 'polling' while the
    invocation goes on, and end with the error update when it is caught. *)
Lemma resume_task_shape t r o :
  resume_task t r = Some o →
  match next o with
  | Continue _ => Forall not_to_polling (patches o)
  | Caught => ∃ ps m, patches o = ps ++ [error_patch m]
  | StartPolling _ => True
  end.
Proof.
  unfold resume_task.
  destruct (pending t); destruct r as [r|r|r|r|r|r]; try discriminate;
    intros [= <-].
  - destruct (checkExistingVimeoImport r); cbn.
    + exists [], (extractAxiosError (new_Error (already_imported_message d))).
      reflexivity.
    + patch_shape.
  - destruct r as [e|vd]; cbn.
    + exists [], (extractAxiosError e). reflexivity.
    + destruct (select_download (download vd)) as [msg|sel]; cbn.
      * exists [with_vimeoData vd (with_progress 10 no_patch)],
          (extractAxiosError (new_Error msg)). reflexivity.
      * patch_shape.
  - destruct r as [e|b]; cbn; [|patch_shape].
    exists [], (extractAxiosError e). reflexivity.
  - destruct r as [e|[v u]]; cbn; [|patch_shape].
    exists [], (extractAxiosError e). reflexivity.
  - destruct r as [e|u]; cbn.
    + exists [], (extractAxiosError e). reflexivity.
    + destruct (select_thumbnail vimeoData0); cbn; [patch_shape | exact I].
  - destruct r as [e|b]; cbn; [exact I | patch_shape].
  - destruct r as [e|d]; cbn; exact I.
Qed.

Lemma taskReply_ok k r s s' :
  handled_ok s → taskReply k r s = Some s' → handled_ok s'.
Proof.
  intros Hok. unfold taskReply.
  destruct (tasks s !! k) as [t|]; [|discriminate]. cbn [mbind option_bind].
  destruct (resume_task t r) as [o|] eqn:Hres; [|discriminate].
  cbn [mbind option_bind]. intros [= <-].
  pose proof (resume_task_shape t r o Hres) as Hshape.
  set (i := id (importItem t)) in *.
  destruct (next o) as [p|v|].
  - apply (handled_patches i (patches o) s Hshape) in Hok. exact Hok.
  - eapply (handled_after_register i (patches o) s); [exact Hok| | |].
    + eapply touches_only_trans;
        [apply set_tasks_touches | apply pollVideoStatus_touches].
    + apply pollVideoStatus_ok.
      apply (apply_patches_timers_ok i (patches o) s), Hok.
    + apply pollVideoStatus_registered.
  - destruct Hshape as (ps & m & Hps). rewrite Hps.
    eapply (handled_after_stop i ps (error_patch m) error s);
      [exact Hok | reflexivity | discriminate | |].
    + eapply touches_only_trans;
        [apply set_tasks_touches | apply cancel_timer_touches].
    + apply cancel_timer_ok.
      apply (apply_patches_timers_ok i (ps ++ [error_patch m]) s), Hok.
Qed.

Lemma progress_patch_shape base verb loaded total p :
  progress_patch base verb loaded total = Some p → not_to_polling p.
Proof.
  unfold progress_patch. destruct total as [tot|]; [|discriminate].
  destruct (tot =? 0); [discriminate|]. intros [= <-].
  unfold not_to_polling. cbn. discriminate.
Qed.

Lemma updateImport_ok i p s :
  not_to_polling p → handled_ok s → handled_ok (updateImport i p s).
Proof.
  intros Hp Hok. apply (handled_patches i [p] s); [|exact Hok].
  constructor; [exact Hp | constructor].
Qed.

Lemma downloadProgress_ok k loaded total s s' :
  handled_ok s → downloadProgress k loaded total s = Some s' → handled_ok s'.
Proof.
  intros Hok. unfold downloadProgress.
  destruct (tasks s !! k) as [t|]; [|discriminate]. cbn [mbind option_bind].
  destruct (pending t); try discriminate. intros [= <-].
  destruct (progress_patch 15 "Downloading" loaded total) as [p|] eqn:Hp;
    [|exact Hok].
  apply updateImport_ok; [eapply progress_patch_shape; exact Hp | exact Hok].
Qed.

Lemma uploadProgress_ok k loaded total s s' :
  handled_ok s → uploadProgress k loaded total s = Some s' → handled_ok s'.
Proof.
  intros Hok. unfold uploadProgress.
  destruct (tasks s !! k) as [t|]; [|discriminate]. cbn [mbind option_bind].
  destruct (pending t); try discriminate. intros [= <-].
  destruct (progress_patch 55 "Uploading" loaded total) as [p|] eqn:Hp;
    [|exact Hok].
  apply updateImport_ok; [eapply progress_patch_shape; exact Hp | exact Hok].
Qed.

Lemma set_polls_touches i l s : touches_only i s (set_polls l s).
Proof. repeat split. Qed.

Lemma pollReply_ok k r s s' :
  handled_ok s → pollReply k r s = Some s' → handled_ok s'.
Proof.
  intros Hok. unfold pollReply.
  destruct (polls s !! k) as [c|]; [|discriminate]. cbn [mbind option_bind].
  intros [= <-]. destruct r as [e|raw]; [exact Hok|].
  unfold poll_patches.
  set (status := toUpperCase (default "" (or_else raw None))).
  set (shown := with_statusText ("Processing: " +:+ status) no_patch).
  assert (Hok1 : handled_ok (set_polls (delete k (polls s)) s)) by exact Hok.
  destruct (classify status).
  - cbn iota beta.
    eapply (handled_after_stop c.1 [shown]
              (with_stage complete
                 (with_statusText "Import complete!" (with_progress 100 no_patch)))
              complete);
      [exact Hok1 | reflexivity | discriminate | apply stop_poll_timer_touches |].
    apply stop_poll_timer_ok, apply_patches_timers_ok, Hok1.
  - cbn iota beta.
    eapply (handled_after_stop c.1 [shown]
              (with_stage error
                 (with_errorMessage ("Encoding failed: " +:+ status) no_patch))
              error);
      [exact Hok1 | reflexivity | discriminate | apply stop_poll_timer_touches |].
    apply stop_poll_timer_ok, apply_patches_timers_ok, Hok1.
  - apply (handled_patches c.1 [shown]); [|exact Hok1].
    subst shown. patch_shape.
Qed.

Lemma startImport_ok now input opts s :
  id (newImport now input opts) ∉ id <$> imports s →
  handled_ok s → handled_ok (startImport now input opts s).
Proof.
  intros Hfresh Hok. unfold startImport.
  destruct (canImport input s); [|exact Hok].
  set (item := newImport now input opts) in *.
  assert (Hok1 : handled_ok (setImports (λ prev, item :: prev) s)).
  { destruct Hok as (Htm & Hnd & Hl & Htr).
    split; [exact Htm|]. split; [|split; [exact Hl|]].
    - cbn. apply NoDup_cons. split; assumption.
    - intros it Hin Hst. cbn in Hin.
      apply elem_of_cons in Hin as [->|Hin]; [discriminate|].
      apply Htr; assumption. }
  apply (updateImport_ok (id item)
           (with_statusText "Checking for existing import..." no_patch))
    in Hok1; [exact Hok1|].
  unfold not_to_polling. cbn. discriminate.
Qed.

Lemma NoDup_fmap_filter {A B} (f : A → B) (P : A → Prop)
    `{!∀ x, Decision (P x)} (l : list A) :
  NoDup (f <$> l) → NoDup (f <$> filter P l).
Proof.
  induction l as [|x l IH]; intros Hnd; [constructor|].
  cbn in Hnd. apply NoDup_cons in Hnd as [Hx Hnd].
  destruct (decide (P x)) as [HP|HP].
  - rewrite filter_cons_True by exact HP. cbn. apply NoDup_cons.
    split; [|apply IH, Hnd].
    intros Hin. apply Hx. apply list_elem_of_fmap in Hin as (y & -> & Hy).
    apply list_elem_of_filter in Hy as [_ Hy].
    apply list_elem_of_fmap. eauto.
  - rewrite filter_cons_False by exact HP. apply IH, Hnd.
Qed.

Lemma removeImport_ok i s : handled_ok s → handled_ok (removeImport i s).
Proof.
  intros (Htm & Hnd & Hl & Htr). unfold removeImport.
  pose proof (cancel_timer_touches i s) as Htouch.
  pose proof Htouch as (Himp & Hres & Hl' & _).
  split; [apply (cancel_timer_ok i s Htm)|].
  split; [cbn; rewrite Himp; apply NoDup_fmap_filter, Hnd|].
  split; [cbn; rewrite Hl'; exact Hl|].
  intros item Hin Hst. cbn in Hin.
  apply list_elem_of_filter in Hin as [Hne Hin].
  apply (tracked_but_touches i s (cancel_timer i s) Htouch
           (tracked_weaken i s Htr) item Hin Hst Hne).
Qed.

(** The loop of [clearFinished] cancels the timers of the finished items
    and of no other id. *)
Lemma clear_fold l :
  ∀ s,
    let s1 :=
      fold_left
        (λ s item,
           if decide (finished item) then cancel_timer (id item) s else s)
        l s in
    imports s1 = imports s
    ∧ resumedPollingIds s1 = resumedPollingIds s
    ∧ settingsLoaded s1 = settingsLoaded s
    ∧ (timers_ok s → timers_ok s1)
    ∧ ∀ j, (∀ item, item ∈ l → finished item → id item ≠ j) →
           pollTimers s1 !! j = pollTimers s !! j.
Proof.
  induction l as [|x l IH]; intros s;
    [cbn; split; [|split; [|split; [|split]]]; auto|].
  cbn [fold_left].
  set (s0 := if decide (finished x) then cancel_timer (id x) s else s).
  destruct (IH s0) as (Himp & Hres & Hl & Htm & Hlook).
  assert (H0 : touches_only (id x) s s0 ∧ (timers_ok s → timers_ok s0)).
  { subst s0. destruct (decide (finished x)).
    - split; [apply cancel_timer_touches | apply cancel_timer_ok].
    - split; [apply touches_only_refl | auto]. }
  destruct H0 as ((Himp0 & Hres0 & Hl0 & _ & _ & Hlook0) & Htm0).
  split; [congruence|]. split; [congruence|]. split; [congruence|].
  split; [auto|].
  intros j Hj. rewrite Hlook by (intros item Hin; apply Hj; right; exact Hin).
  subst s0. destruct (decide (finished x)) as [Hf|Hf]; [|reflexivity].
  apply Hlook0. intros Heq. apply (Hj x); [left | exact Hf | symmetry; exact Heq].
Qed.

Lemma clearFinished_ok s : handled_ok s → handled_ok (clearFinished s).
Proof.
  intros (Htm & Hnd & Hl & Htr). unfold clearFinished.
  destruct (clear_fold (imports s) s) as (Himp & Hres & Hl' & Htm' & Hlook).
  cbn zeta in *.
  set (s1 := fold_left _ (imports s) s) in *.
  split; [apply Htm', Htm|].
  split; [cbn; rewrite Himp; apply NoDup_fmap_filter, Hnd|].
  split; [cbn; rewrite Hl'; exact Hl|].
  intros item Hin Hst. cbn in Hin. rewrite Himp in Hin.
  apply list_elem_of_filter in Hin as [Hnf Hin].
  cbn. rewrite Hres, Hlook; [apply Htr; assumption|].
  intros item' Hin' Hf Heq.
  apply Hnf. rewrite <- (NoDup_ids_eq _ _ _ Hnd Hin' Hin Heq). exact Hf.
Qed.

Lemma process_loaded_id item : id (process_loaded item) = id item.
Proof.
  unfold process_loaded.
  destruct (decide (stage item ∈ FINAL_STAGES)); [reflexivity|].
  destruct (decide (stage item ∈ RESUMABLE_STAGES)); reflexivity.
Qed.

Lemma loadEffect_ok st : valid_storage st → handled_ok (loadEffect st).
Proof.
  intros Hv. split; [apply timers_wf_empty|].
  split; [|split; [reflexivity|]].
  - cbn. unfold valid_storage in Hv.
    destruct (stored_imports st) as [l|]; [|constructor].
    rewrite <- list_fmap_compose.
    erewrite list_fmap_ext; [exact Hv|].
    intros _ item _. apply process_loaded_id.
  - intros item _ _. right. cbn. set_solver.
Qed.

Lemma handle_ok s e s' : state_ok s → handle s e = Some s' → handled_ok s'.
Proof.
  intros Hs. pose proof (state_ok_handled s Hs) as Hok.
  destruct e; cbn [handle].
  - intros [= <-]. exact Hok.
  - intros [= <-]. exact Hok.
  - destruct (canImport input s) eqn:Hcan; [|discriminate].
    destruct (decide (id (newImport now input opts) ∈ id <$> imports s));
      [discriminate|].
    intros [= <-]. apply startImport_ok; assumption.
  - apply taskReply_ok, Hok.
  - apply downloadProgress_ok, Hok.
  - apply uploadProgress_ok, Hok.
  - unfold timerFires. destruct (intervals s !! t); [|discriminate].
    intros [= <-]. exact Hok.
  - apply pollReply_ok, Hok.
  - destruct (decide (Exists _ (imports s))); [|discriminate].
    intros [= <-]. apply removeImport_ok, Hok.
  - intros [= <-]. apply clearFinished_ok, Hok.
  - intros [= <-]. apply loadEffect_ok.
    destruct Hs as (_ & Hnd & _ & _ & Hsto).
    unfold valid_storage. rewrite Hsto. exact Hnd.
Qed.

Lemma step_ok s e s' : state_ok s → step s e = Some s' → state_ok s'.
Proof.
  intros Hs. unfold step.
  destruct (handle s e) as [s1|] eqn:Hh; [|discriminate].
  intros [= <-]. apply effects_ok. eapply handle_ok; eassumption.
Qed.

Lemma run_ok evs : ∀ s s', state_ok s → run s evs = Some s' → state_ok s'.
Proof.
  induction evs as [|e evs IH]; intros s s' Hs; cbn [run].
  - intros [= <-]. exact Hs.
  - destruct (step s e) as [s1|] eqn:Hstep; [|discriminate].
    cbn [mbind option_bind]. apply IH. eapply step_ok; eassumption.
Qed.

(** The invariant holds in every reachable state. *)
Lemma reachable_ok s : reachable s → state_ok s.
Proof.
  intros (st & evs & Hv & Hrun).
  eapply run_ok; [|exact Hrun].
  apply effects_ok, loadEffect_ok, Hv.
Qed.

(** ** Poll timers *)

(** C3, as the code has it.  In every reachable state: an item in stage
    'polling' that carries a non-empty destination id has exactly one live
    poll timer, registered under its id, whenever a destination token is
    present; no item id has two live timers; and a poll registration for
    any id, with or without a live timer, leaves exactly one live timer
    for that id: a timer the id had is cleared, and the new handle takes
    its place in the ref. *)
Theorem poll_timers_unique s :
  reachable s →
  (∀ item, item ∈ imports s → stage item = polling →
     opt_truthy (igniteVideoId item) = true →
     truthy (igniteToken s) = true →
     exactly_one_timer s (id item))
  ∧ (∀ i t1 t2, timer_of s i t1 → timer_of s i t2 → t1 = t2)
  ∧ (∀ i v, exactly_one_timer (pollVideoStatus i v s) i)
  ∧ (∀ i v t, pollTimers s !! i = Some t →
       intervals (pollVideoStatus i v s) !! t = None
       ∧ pollTimers (pollVideoStatus i v s) !! i = Some (nextTimerId s)).
Proof.
  intros Hreach. destruct (reachable_ok s Hreach) as (Htm & _ & _ & Hp & _).
  split; [|split; [|split]]; cycle 3.
  - intros i v t Ht. unfold pollVideoStatus. rewrite Ht.
    rewrite (timers_wf_truthy _ _ _ _ _ Htm Ht). cbn.
    destruct Htm as (Hm & _ & Hlt & _). destruct (Hm i t Ht) as [v' Hv'].
    specialize (Hlt t _ Hv').
    rewrite lookup_insert_ne by lia.
    rewrite lookup_delete_eq, lookup_insert_eq. split; reflexivity.
  - intros item Hin Hst Hv Htok. apply timers_ok_exactly_one; [exact Htm|].
    destruct (Hp item Hin Hst) as [H|[_ [H|H]]]; [exact H|congruence..].
  - intros i t1 t2 [v1 H1] [v2 H2]. destruct Htm as (_ & Hiv & _).
    pose proof (Hiv _ _ _ H1). pose proof (Hiv _ _ _ H2). congruence.
  - intros i v. apply timers_ok_exactly_one.
    + apply pollVideoStatus_ok, Htm.
    + apply pollVideoStatus_registered.
Qed.

Lemma reachable_after evs s :
  run (mount empty_storage) evs = Some s → reachable s.
Proof. intros H. exists empty_storage, evs. split; [exact I | exact H]. Qed.

Lemma poll_timers_unique_witness :
  exactly_one_timer (after to_polling) "1700000000000-42"
  ∧ exactly_one_timer
      (pollVideoStatus "1700000000000-42" "rec-1" (after to_polling))
      "1700000000000-42".
Proof.
  assert (Hr : reachable (after to_polling))
    by (apply (reachable_after to_polling); vm_compute; reflexivity).
  destruct (poll_timers_unique (after to_polling) Hr) as (Hone & _ & Hreg & _).
  split; [|apply Hreg].
  apply (Hone (patched
                 [with_stage polling
                    (with_statusText "Processing..."
                       (with_progress 98 (with_thumbnailUrl None no_patch)));
                  with_igniteVideoId "rec-1" no_patch;
                  with_vimeoData sample_video no_patch]
                 (newImport 1700000000000 "42" sample_options)));
    [vm_compute; left | reflexivity | reflexivity | reflexivity].
Defined.

Lemma no_timer_not_exactly_one s i :
  pollTimers s !! i = None → ¬ exactly_one_timer s i.
Proof. intros Hnone (t & Ht & _). congruence. Qed.

(** C3 fails as stated.  A process started on a store that holds an item
    in 'polling' but no destination token is in a reachable state where
    that item has no poll timer.  The same happens on an empty store when
    the destination answers the record creation with an empty id: the
    import reaches 'polling', and after a reload the item is in 'polling'
    without a timer, the token being present. *)
Lemma polling_item_without_timer :
  (let s := mount storage_without_token in
   reachable s
   ∧ ∃ item, item ∈ imports s ∧ stage item = polling
             ∧ ¬ exactly_one_timer s (id item))
  ∧ (∃ s, run (mount empty_storage) empty_record_id_then_reload = Some s
          ∧ truthy (igniteToken s) = true
          ∧ ∃ item, item ∈ imports s ∧ stage item = polling
                    ∧ ¬ exactly_one_timer s (id item)).
Proof.
  split.
  - split.
    + exists storage_without_token, []. split; [|reflexivity].
      cbn. apply NoDup_singleton.
    + exists (sample_item "1700000000000-42" polling (Some "rec-1")).
      split; [vm_compute; left|]. split; [reflexivity|].
      apply no_timer_not_exactly_one. vm_compute. reflexivity.
  - eexists. split; [vm_compute; reflexivity|].
    split; [reflexivity|].
    eexists. split; [left|]. split; [reflexivity|].
    apply no_timer_not_exactly_one. reflexivity.
Qed.

(** ** Loading and resuming *)

Ltac stage_cases H :=
  repeat (apply elem_of_cons in H as [H|H]; [discriminate|]);
  apply elem_of_nil in H; contradiction.

Lemma process_loaded_kept item :
  stage item ∈ [complete; error; polling] → process_loaded item = item.
Proof.
  intros Hin. unfold process_loaded, FINAL_STAGES, RESUMABLE_STAGES.
  destruct (stage item); try reflexivity; exfalso; stage_cases Hin.
Qed.

Lemma process_loaded_interrupted item :
  stage item ∉ [complete; error; polling] →
  process_loaded item = apply_patch interrupted_patch item.
Proof.
  intros Hin. unfold process_loaded, FINAL_STAGES, RESUMABLE_STAGES.
  destruct (stage item); try reflexivity; exfalso; apply Hin;
    repeat first [apply list_elem_of_here | apply list_elem_of_further].
Qed.

Lemma resume_item_polled_once s item :
  polled_once s → polled_once (resume_item s item).
Proof.
  intros Hs. unfold resume_item.
  destruct (igniteVideoId item) as [v|]; [|exact Hs].
  destruct (decide (stage item = polling)); [|exact Hs].
  destruct (truthy v); [|exact Hs].
  destruct (decide (id item ∈ resumedPollingIds s)); [exact Hs|].
  destruct (pollTimers s !! id item) eqn:Hlook; [exact Hs|].
  intros i. specialize (Hs i). unfold polls_for, pollVideoStatus in *.
  cbn [pollTimers set_resumed]. rewrite Hlook.
  cbn [polls set_polls set_timers set_resumed pollTimers].
  rewrite filter_app, length_app.
  destruct (decide (i = id item)) as [->|Hne].
  - rewrite lookup_insert_eq. rewrite Hlook in Hs.
    rewrite decide_False in Hs by (intros [? ?]; discriminate).
    rewrite decide_True by eauto.
    rewrite filter_cons_True by reflexivity. cbn. lia.
  - rewrite lookup_insert_ne by congruence.
    rewrite filter_cons_False by (cbn; congruence). cbn. lia.
Qed.

Lemma resume_fold_polled_once l :
  ∀ s, polled_once s → polled_once (fold_left resume_item l s).
Proof.
  induction l as [|x l IH]; intros s Hs; [exact Hs|].
  cbn [fold_left]. apply IH, resume_item_polled_once, Hs.
Qed.

(** The effect does nothing to an item whose id has a timer. *)
Lemma resume_item_skips s item :
  (stage item = polling → opt_truthy (igniteVideoId item) = true →
   is_Some (pollTimers s !! id item)) →
  resume_item s item = s.
Proof.
  intros H. unfold resume_item.
  destruct (igniteVideoId item) as [v|]; [|reflexivity].
  destruct (decide (stage item = polling)) as [Hst|]; [|reflexivity].
  destruct (truthy v) eqn:Hv; [|reflexivity].
  destruct (decide (id item ∈ resumedPollingIds s)); [reflexivity|].
  destruct (H Hst Hv) as [t ->]. reflexivity.
Qed.

Lemma resume_fold_skips l :
  ∀ s,
    (∀ item, item ∈ l → stage item = polling →
       opt_truthy (igniteVideoId item) = true →
       is_Some (pollTimers s !! id item)) →
    fold_left resume_item l s = s.
Proof.
  induction l as [|x l IH]; intros s H; [reflexivity|].
  cbn [fold_left]. rewrite resume_item_skips by (apply H; left).
  apply IH. intros item Hin. apply H. right. exact Hin.
Qed.

(** The state right after the load effect and the persist effects. *)
Lemma loaded_state st :
  let s0 := persistEffects (loadEffect st) in
  imports s0 = imports (loadEffect st)
  ∧ pollTimers s0 = ∅ ∧ resumedPollingIds s0 = ∅ ∧ polls s0 = []
  ∧ settingsLoaded s0 = true ∧ igniteToken s0 = igniteToken (loadEffect st)
  ∧ timers_ok s0.
Proof.
  cbn. repeat (split; [reflexivity|]). apply timers_wf_empty.
Qed.

(** C4, as the code has it.  When the persisted queue is loaded, an item
    persisted in 'complete', 'error' or 'polling' is kept unchanged and an
    item persisted in any other stage is put in stage 'error' with the
    message "Import was interrupted. Please try again.".  When the store
    holds a non-empty destination token, each item loaded in 'polling'
    with a non-empty destination id has its poll timer registered exactly
    once: it has exactly one live timer and one request of [run] in
    flight.  Running the resume effect again registers nothing. *)
Theorem load_and_resume st parsed :
  stored_imports st = Some parsed →
  let s := mount st in
  imports s = process_loaded <$> parsed
  ∧ (∀ item, stage item ∈ [complete; error; polling] →
       process_loaded item = item)
  ∧ (∀ item, stage item ∉ [complete; error; polling] →
       process_loaded item = apply_patch interrupted_patch item
       ∧ stage (process_loaded item) = error
       ∧ errorMessage (process_loaded item)
         = Some "Import was interrupted. Please try again.")
  ∧ (opt_truthy (stored_ignite_token st) = true →
     ∀ item, item ∈ parsed → stage item = polling →
       opt_truthy (igniteVideoId item) = true →
       exactly_one_timer s (id item)
       ∧ length (polls_for (id item) s) = 1%nat)
  ∧ resumeEffect s = s.
Proof.
  intros Hst s.
  destruct (loaded_state st) as (Himp0 & Hpt0 & Hres0 & Hpolls0 & Hl0 & Htok0 & Htm0).
  cbn zeta in *. set (s0 := persistEffects (loadEffect st)) in *.
  assert (Himp : imports s0 = process_loaded <$> parsed).
  { rewrite Himp0. cbn. rewrite Hst. reflexivity. }
  assert (Honce0 : polled_once s0).
  { intros i. unfold polls_for. rewrite Hpolls0, Hpt0, lookup_empty.
    rewrite decide_False by (intros [? ?]; discriminate). reflexivity. }
  assert (Hs : s = resumeEffect s0) by reflexivity.
  split; [rewrite Hs; destruct (resumeEffect_same_queue s0) as [-> _]; exact Himp|].
  split; [apply process_loaded_kept|].
  split.
  { intros item Hin. rewrite (process_loaded_interrupted item Hin).
    repeat split. }
  destruct (truthy (igniteToken s0)) eqn:Htk.
  - assert (Hfold : s = fold_left resume_item (imports s0) s0).
    { rewrite Hs. unfold resumeEffect. rewrite Hl0, Htk. reflexivity. }
    destruct (resume_fold (imports s0) s0) as (Hfrom & Hok & Hcov).
    rewrite <- Hfold in *.
    assert (Hall : ∀ item, item ∈ imports s0 → stage item = polling →
              opt_truthy (igniteVideoId item) = true →
              is_Some (pollTimers s !! id item)).
    { intros item Hin Hsg Hv. destruct (Hcov item Hin Hsg Hv) as [H|H];
        [exact H|]. rewrite Hres0 in H. set_solver. }
    split.
    + intros _ item Hin Hsg Hv.
      assert (Hin' : item ∈ imports s0).
      { rewrite Himp. apply list_elem_of_fmap. exists item.
        split; [|exact Hin]. symmetry. apply process_loaded_kept.
        rewrite Hsg. set_solver. }
      pose proof (Hall item Hin' Hsg Hv) as Hreg.
      split; [apply timers_ok_exactly_one; [apply Hok, Htm0 | exact Hreg]|].
      pose proof (resume_fold_polled_once (imports s0) s0 Honce0 (id item))
        as Hc.
      rewrite <- Hfold in Hc. rewrite Hc.
      rewrite decide_True by exact Hreg. reflexivity.
    + unfold resumeEffect.
      destruct (negb (settingsLoaded s) || negb (truthy (igniteToken s)));
        [reflexivity|].
      destruct Hfrom as ((Hi & _) & _). rewrite Hi.
      apply resume_fold_skips. exact Hall.
  - assert (Hs0 : s = s0).
    { rewrite Hs. unfold resumeEffect. rewrite Hl0, Htk. reflexivity. }
    split.
    + intros Htoken. exfalso. rewrite Htok0 in Htk. cbn in Htk.
      destruct (stored_ignite_token st) as [t|]; [|discriminate].
      cbn in Htoken. rewrite Htoken in Htk. congruence.
    + rewrite Hs0. unfold resumeEffect. rewrite Hl0, Htk. reflexivity.
Qed.

Lemma load_and_resume_witness :
  let s := mount storage_with_queue in
  stage <$> imports s = [polling; error; complete]
  ∧ exactly_one_timer s "1700000000000-42"
  ∧ length (polls_for "1700000000000-42" s) = 1%nat
  ∧ resumeEffect s = s.
Proof.
  intros s.
  destruct (load_and_resume storage_with_queue
              [sample_item "1700000000000-42" polling (Some "rec-1");
               sample_item "1700000000001-43" uploading (Some "rec-2");
               sample_item "1700000000002-44" complete (Some "rec-3")]
              eq_refl) as (Himp & _ & _ & Hres & Hidem).
  split; [fold s in Himp; rewrite Himp; reflexivity|].
  destruct (Hres eq_refl (sample_item "1700000000000-42" polling (Some "rec-1")))
    as [Hone Hcount]; [left | reflexivity | reflexivity |].
  split; [exact Hone|]. split; [exact Hcount | exact Hidem].
Defined.

(** C4 fails as stated.  With no destination token in the store, the
    item loaded in 'polling' gets no timer and no request is sent; the
    same holds, with the token present, for an item in 'polling' that has
    no destination id. *)
Lemma polling_item_not_resumed :
  (let s := mount storage_without_token in
   stage <$> imports s = [polling]
   ∧ pollTimers s = ∅ ∧ intervals s = ∅ ∧ polls s = [])
  ∧ (let s := mount storage_without_record_id in
     stage <$> imports s = [polling]
     ∧ truthy (igniteToken s) = true
     ∧ pollTimers s = ∅ ∧ intervals s = ∅ ∧ polls s = []).
Proof. vm_compute. repeat split. Qed.

(** ** Completion *)

(** The transition to 'complete' sets the progress to 100 and leaves the
    error message as it was. *)
Lemma done_patches_keep_errorMessage raw ps item :
  poll_patches raw = (ps, IsDone) →
  stage (patched ps item) = complete
  ∧ progress (patched ps item) = 100%Q
  ∧ errorMessage (patched ps item) = errorMessage item.
Proof.
  unfold poll_patches.
  destruct (classify (toUpperCase (default "" (or_else raw None))));
    intros [= <-]. repeat split.
Qed.

(** C9 (the code departs from the claim).  When two status polls of one
    item overlap, and the first is answered "failed" and the second
    "ready", the item ends in stage 'complete' with progress 100 and with
    the error message of the failed poll still set. *)
Theorem complete_with_stale_error_message :
  ∃ s, run (mount empty_storage) overlapping_polls = Some s
       ∧ stage <$> imports s = [complete]
       ∧ progress <$> imports s = [100%Q]
       ∧ errorMessage <$> imports s = [Some "Encoding failed: FAILED"].
Proof.
  eexists. split; [vm_compute; reflexivity|]. repeat split.
Qed.

(** ** Further properties of the orchestrator *)

Lemma append_nonempty_r a b : b ≠ "" → a +:+ b ≠ "".
Proof.
  intros Hb. destruct a as [|x a]; [exact Hb|].
  change (String x a +:+ b) with (String x (a +:+ b)). discriminate.
Qed.

(** X14.  [extractAxiosError] keeps the three kinds of failure apart: a
    rejection reads "<status>: <text>", a request without response
    reads "No response from server", and a failure on the client side
    reads as its own message, or "Unknown error" when it has none.  The
    message is never empty (the JSON text of a body that is present is
    not empty). *)
Theorem extractAxiosError_kinds err :
  (∀ r d, response err = Some r → err_data r = Some d → body_json d ≠ "") →
  extractAxiosError err ≠ ""
  ∧ (∀ r, response err = Some r →
       ∃ msg, msg ≠ ""
              ∧ extractAxiosError err = pretty (err_status r) +:+ ": " +:+ msg)
  ∧ (response err = None → request err = true →
       extractAxiosError err = "No response from server")
  ∧ (response err = None → request err = false →
       extractAxiosError err
       = if truthy (message err) then message err else "Unknown error").
Proof.
  intros Hjson.
  assert (Hresp : ∀ r, response err = Some r →
            ∃ msg, msg ≠ ""
              ∧ extractAxiosError err = pretty (err_status r) +:+ ": " +:+ msg).
  { intros r Hr. unfold extractAxiosError. rewrite Hr.
    eexists. split; [|reflexivity].
    destruct (err_data r) as [d|] eqn:Hd; [|intros H; discriminate H].
    specialize (Hjson r d Hr Hd). unfold or_else.
    destruct (body_message d) as [[|x m]|]; cbn;
      try (intros H; discriminate H);
      (destruct (body_error d) as [[|y m']|]; cbn;
       try (intros H; discriminate H);
       destruct (body_json d); cbn;
       first [contradiction | intros H; discriminate H]). }
  split; [|split; [exact Hresp|split]].
  - destruct (response err) as [r|] eqn:Hr.
    + destruct (Hresp r eq_refl) as (msg & Hmsg & ->).
      apply append_nonempty_r, append_nonempty_r. exact Hmsg.
    + unfold extractAxiosError. rewrite Hr.
      destruct (request err); [discriminate|].
      destruct (message err); cbn; discriminate.
  - intros Hr Hq. unfold extractAxiosError. rewrite Hr, Hq. reflexivity.
  - intros Hr Hq. unfold extractAxiosError. rewrite Hr, Hq. reflexivity.
Qed.

Lemma extractAxiosError_kinds_witness :
  extractAxiosError (rejection 403) = "403: denied"
  ∧ extractAxiosError (rejection 403) ≠ "".
Proof.
  destruct (extractAxiosError_kinds (rejection 403)) as (Hne & _).
  - intros r d [= <-] [= <-]. discriminate.
  - split; [reflexivity | exact Hne].
Defined.

Lemma substring_prefix n :
  ∀ s, (String.length (substring 0 n s) ≤ n)%nat
       ∧ ∃ rest, s = substring 0 n s +:+ rest.
Proof.
  induction n as [|n IH]; intros s.
  - destruct s; cbn; (split; [lia|]); eexists; reflexivity.
  - destruct s as [|c s]; cbn [substring String.length].
    + split; [lia|]. exists "". reflexivity.
    + destruct (IH s) as [Hlen [rest Hrest]]. split; [lia|].
      exists rest.
      change (String c (substring 0 n s) +:+ rest)
        with (String c (substring 0 n s +:+ rest)).
      rewrite <- Hrest. reflexivity.
Qed.

Lemma trim_end_idem s : trim_end (trim_end s) = trim_end s.
Proof.
  induction s as [|c s IH]; [reflexivity|]. cbn [trim_end].
  destruct (trim_end s) as [|d r] eqn:E.
  - destruct (is_space c) eqn:Hc; [reflexivity|]. cbn. rewrite Hc.
    reflexivity.
  - assert (H : trim_end (String c (String d r))
                = match trim_end (String d r) with
                  | EmptyString =>
                      if is_space c then EmptyString else String c EmptyString
                  | r' => String c r'
                  end) by reflexivity.
    rewrite H, IH. reflexivity.
Qed.

Lemma trim_start_tight s : tight_start (trim_start s).
Proof.
  induction s as [|c s IH]; [exact I|]. cbn.
  destruct (is_space c) eqn:Hc; [exact IH | exact Hc].
Qed.

Lemma trim_start_of_tight s : tight_start s → trim_start s = s.
Proof. destruct s as [|c s]; [reflexivity|]. cbn. intros ->. reflexivity. Qed.

Lemma trim_end_tight s : tight_start s → tight_start (trim_end s).
Proof.
  destruct s as [|c s]; [intros; exact I|]. cbn. intros Hc.
  destruct (trim_end s); [rewrite Hc|]; exact Hc.
Qed.

Lemma trim_idem s : trim (trim s) = trim s.
Proof.
  unfold trim.
  rewrite (trim_start_of_tight (trim_end (trim_start s)))
    by apply trim_end_tight, trim_start_tight.
  apply trim_end_idem.
Qed.

(** X15.  The body [createIgniteVideo] sends: the title is the first 100
    characters of the source title at most; every tag is trimmed and
    non-empty (empty entries of the comma-separated option are dropped);
    the language is trimmed; and tags, language and categories are left
    out when their option is blank. *)
Theorem upload_payload_fields title vimeoVideoId o :
  let pl := upload_payload title vimeoVideoId o in
  (String.length (pl_title pl) ≤ 100)%nat
  ∧ (∃ rest, title = pl_title pl +:+ rest)
  ∧ (∀ ts t, pl_tags pl = Some ts → t ∈ ts → t ≠ "" ∧ trim t = t)
  ∧ (∀ l, pl_language pl = Some l → l ≠ "" ∧ trim l = l)
  ∧ (trim (tags o) = "" → pl_tags pl = None)
  ∧ (trim (language o) = "" → pl_language pl = None)
  ∧ (trim (categoryId o) = "" → pl_categories pl = None)
  ∧ pl_vimeoId pl = vimeoVideoId.
Proof.
  cbn zeta. unfold upload_payload. cbn [pl_title pl_tags pl_language
    pl_categories pl_vimeoId].
  destruct (substring_prefix 100 title) as [Hlen Hpre].
  split; [exact Hlen|]. split; [exact Hpre|]. split; [|split].
  - intros ts t. destruct (truthy (trim (tags o))); [|discriminate].
    intros [= <-] Hin. apply list_elem_of_filter in Hin as [Ht Hin].
    apply list_elem_of_fmap in Hin as (u & -> & _).
    split; [destruct (trim u); [discriminate | discriminate] | apply trim_idem].
  - intros l. destruct (truthy (trim (language o))) eqn:E; [|discriminate].
    intros [= <-]. split; [|apply trim_idem].
    destruct (trim (language o)); [discriminate | discriminate].
  - repeat split; intros ->; reflexivity.
Qed.

(** X16.  The validation of the download list: without a list, or with an
    empty one, the error is "No download links available."; when every
    rendition is of the source class it is "No suitable download
    rendition found."; otherwise a rendition of the list is selected, and
    it is never of the source class. *)
Theorem select_download_cases d :
  match select_download d with
  | inl msg =>
      (msg = "No download links available."
       ∧ (d = None ∨ d = Some []))
      ∨ (msg = "No suitable download rendition found."
         ∧ ∃ dl, d = Some dl ∧ dl ≠ [] ∧ Forall (λ e, ¬ not_source e) dl)
  | inr sel => ∃ dl, d = Some dl ∧ sel ∈ dl ∧ not_source sel
  end.
Proof.
  unfold select_download.
  destruct d as [[|d0 dl]|]; [left; split; auto | | left; split; auto].
  destruct (filter not_source (d0 :: dl)) as [|x rest] eqn:E; cbn [reduce].
  - right. split; [reflexivity|]. exists (d0 :: dl).
    split; [reflexivity|]. split; [discriminate|].
    apply Forall_forall. intros e Hin Hns.
    assert (He : e ∈ filter not_source (d0 :: dl))
      by (apply list_elem_of_filter; split; assumption).
    rewrite E in He. apply elem_of_nil in He. exact He.
  - exists (d0 :: dl). split; [reflexivity|].
    destruct (fold_larger_first_max rest x) as (pre & post & Heq & _).
    assert (Hin : fold_left larger rest x ∈ filter not_source (d0 :: dl)).
    { rewrite E, Heq. apply elem_of_app. right. left. }
    apply list_elem_of_filter in Hin as [Hns Hin]. split; assumption.
Qed.

Lemma fold_wider_first_max rest :
  ∀ x, ∃ pre post,
    x :: rest = pre ++ fold_left wider rest x :: post
    ∧ Forall (λ y, ps_width y < ps_width (fold_left wider rest x)) pre
    ∧ Forall (λ y, ps_width y ≤ ps_width (fold_left wider rest x)) post.
Proof.
  induction rest as [|y rest IH] using rev_ind; intros x.
  - exists [], []. repeat split; constructor.
  - destruct (IH x) as (pre & post & Heq & Hpre & Hpost).
    rewrite fold_left_app. cbn [fold_left]. unfold wider at 1 3 5.
    destruct (ps_width y >? ps_width (fold_left wider rest x)) eqn:Hgt.
    + exists (pre ++ fold_left wider rest x :: post), [].
      split; [rewrite <- Heq; reflexivity|].
      split; [|constructor].
      apply Forall_app. split.
      * eapply Forall_impl; [exact Hpre|]. simpl. intros; lia.
      * constructor; [lia|].
        eapply Forall_impl; [exact Hpost|]. simpl. intros; lia.
    + exists pre, (post ++ [y]).
      split; [rewrite app_comm_cons, Heq, <- app_assoc; reflexivity|].
      split; [exact Hpre|].
      apply Forall_app. split; [exact Hpost|].
      constructor; [lia | constructor].
Qed.

(** X17.  A thumbnail is transferred only when the pictures are active
    and list at least one size; the size chosen is then the widest of the
    list, the first of the widest winning. *)
Theorem select_thumbnail_cases d :
  match select_thumbnail d with
  | Some th =>
      ∃ p l pre post,
        pictures d = Some p ∧ active p = true ∧ sizes p = Some l
        ∧ l = pre ++ th :: post
        ∧ Forall (λ y, ps_width y < ps_width th) pre
        ∧ Forall (λ y, ps_width y ≤ ps_width th) post
  | None =>
      pictures d = None
      ∨ ∃ p, pictures d = Some p
             ∧ (active p = false ∨ sizes p = None ∨ sizes p = Some [])
  end.
Proof.
  unfold select_thumbnail.
  destruct (pictures d) as [p|]; [|left; reflexivity].
  destruct (active p) eqn:Ha; [|right; eauto].
  destruct (sizes p) as [[|x rest]|] eqn:Hs; cbn [reduce];
    [right; eauto | | right; eauto].
  destruct (fold_wider_first_max rest x) as (pre & post & Heq & Hpre & Hpost).
  exists p, (x :: rest), pre, post. repeat split; assumption.
Qed.

Lemma fold_smaller_first_min rest :
  ∀ x, ∃ pre post,
    x :: rest = pre ++ fold_left smaller rest x :: post
    ∧ Forall (λ y, size (fold_left smaller rest x) < size y) pre
    ∧ Forall (λ y, size (fold_left smaller rest x) ≤ size y) post.
Proof.
  induction rest as [|y rest IH] using rev_ind; intros x.
  - exists [], []. repeat split; constructor.
  - destruct (IH x) as (pre & post & Heq & Hpre & Hpost).
    rewrite fold_left_app. cbn [fold_left]. unfold smaller at 1 3 5.
    destruct (size y <? size (fold_left smaller rest x)) eqn:Hlt.
    + exists (pre ++ fold_left smaller rest x :: post), [].
      split; [rewrite <- Heq; reflexivity|].
      split; [|constructor].
      apply Forall_app. split.
      * eapply Forall_impl; [exact Hpre|]. simpl. intros; lia.
      * constructor; [lia|].
        eapply Forall_impl; [exact Hpost|]. simpl. intros; lia.
    + exists pre, (post ++ [y]).
      split; [rewrite app_comm_cons, Heq, <- app_assoc; reflexivity|].
      split; [exact Hpre|].
      apply Forall_app. split; [exact Hpost|].
      constructor; [lia | constructor].
Qed.

(** X18.  The CORS test probes the smallest rendition of the whole list,
    the source class included and the first of the smallest winning.
    Once there is a rendition to probe, the verdict is 'failure' only
    when the probe gets no response at all; a probe that the remote side
    rejects with a status counts as 'success', like one it accepts. *)
Theorem cors_test_verdict d sel probe :
  testDownload d = Some sel →
  (∃ dl pre post,
     download d = Some dl ∧ dl = pre ++ sel :: post
     ∧ Forall (λ y, size sel < size y) pre
     ∧ Forall (λ y, size sel ≤ size y) post)
  ∧ ((testCors (inr d) probe).1 = failure
     ↔ ∃ err, probe = inl err ∧ response err = None)
  ∧ ((testCors (inr d) probe).1 = failure
     ∨ (testCors (inr d) probe).1 = success).
Proof.
  intros Hsel. split; [|split].
  - unfold testDownload in Hsel.
    destruct (download d) as [[|x rest]|]; try discriminate.
    cbn [reduce] in Hsel. injection Hsel as <-.
    destruct (fold_smaller_first_min rest x) as (pre & post & Heq & H1 & H2).
    exists (x :: rest), pre, post. repeat split; assumption.
  - unfold testCors. rewrite Hsel. destruct probe as [err|u]; cbn.
    + destruct (response err) as [rs|] eqn:Hr; cbn; split.
      * discriminate.
      * intros (e0 & [= <-] & He). congruence.
      * eauto.
      * reflexivity.
    + split; [discriminate | intros (e0 & He & _); discriminate].
  - unfold testCors. rewrite Hsel. destruct probe as [err|u]; cbn; auto.
    destruct (response err); cbn; auto.
Qed.

Lemma cors_test_verdict_witness :
  (testCors (inr sample_video) (inl (rejection 403))).1 = success
  ∧ (testCors (inr sample_video) (inl (new_Error "Network Error"))).1 = failure
  ∧ testDownload sample_video = Some (sample_entry 8 None).
Proof.
  destruct (cors_test_verdict sample_video (sample_entry 8 None)
              (inl (rejection 403)) eq_refl) as (_ & Hf & Hs).
  split; [|split; reflexivity].
  destruct Hs as [H|H]; [|exact H].
  apply Hf in H as (e & [= <-] & He). discriminate.
Defined.




Lemma ranks_app ps qs : ranks (ps ++ qs) = ranks ps ++ ranks qs.
Proof. unfold ranks. rewrite omap_app, fmap_app. reflexivity. Qed.

Ltac rank_goals :=
  cbn; repeat split;
  repeat first [apply SSorted_nil | apply SSorted_cons
               | apply Forall_nil_2 | apply Forall_cons_2 | lia].

(** The stages one continuation assigns lie above the stage the
    invocation waited in, in pipeline order, and not above the stage it
    waits in next. *)
Lemma resume_task_ranks t r o :
  resume_task t r = Some o →
  StronglySorted lt (ranks (patches o))
  ∧ Forall (λ x, (pending_rank (pending t) < x)%nat) (ranks (patches o))
  ∧ match next o with
    | Continue p' =>
        Forall (λ x, (x ≤ pending_rank p')%nat) (ranks (patches o))
        ∧ (pending_rank (pending t) ≤ pending_rank p')%nat
    | _ => True
    end.
Proof.
  unfold resume_task.
  destruct (pending t); destruct r as [r|r|r|r|r|r]; try discriminate;
    intros [= <-].
  - destruct (checkExistingVimeoImport r); rank_goals.
  - destruct r as [e|vd]; [rank_goals|].
    destruct (select_download (download vd)); rank_goals.
  - destruct r as [e|b]; rank_goals.
  - destruct r as [e|[v u]]; rank_goals.
  - destruct r as [e|u]; [rank_goals|].
    destruct (select_thumbnail vimeoData0); rank_goals.
  - destruct r as [e|b]; rank_goals.
  - destruct r as [e|d]; rank_goals.
Qed.

Lemma run_task_ranks replies :
  ∀ t,
    StronglySorted lt (ranks (run_task t replies))
    ∧ Forall (λ x, (pending_rank (pending t) < x)%nat)
        (ranks (run_task t replies)).
Proof.
  induction replies as [|r replies IH]; intros t; cbn [run_task].
  - split; constructor.
  - destruct (resume_task t r) as [o|] eqn:Hres; [|split; constructor].
    destruct (resume_task_ranks t r o Hres) as (Hs & Hlow & Hnext).
    rewrite ranks_app.
    destruct (next o) as [p'|v|];
      try (cbn [ranks omap fmap list_fmap]; rewrite app_nil_r; split; assumption).
    destruct Hnext as [Hup Hle].
    destruct (IH {| importItem := importItem t; pending := p' |})
      as [Hs' Hlow']. cbn [pending] in Hlow'.
    rewrite Forall_forall in Hup, Hlow'. split.
    + apply StronglySorted_app_2; [|assumption..].
      intros x1 x2 H1 H2. specialize (Hup x1 H1). specialize (Hlow' x2 H2).
      lia.
    + apply Forall_app. split; [exact Hlow|].
      apply Forall_forall. intros x Hx. specialize (Hlow' x Hx). lia.
Qed.

(** X20.  Whatever the replies, one invocation of [runImport] assigns
    stages in strictly increasing pipeline order (checking <
    fetching_vimeo < downloading < creating_video < uploading <
    uploading_thumbnail < polling < complete < error): it never goes
    back to an earlier stage and never assigns a stage twice. *)
Theorem stages_only_advance item replies :
  let t := {| importItem := item; pending := AwaitCheck |} in
  StronglySorted lt (stage_rank <$> stages_assigned t replies)
  ∧ Forall (λ st, st ≠ checking) (stages_assigned t replies).
Proof.
  cbn zeta.
  destruct (run_task_ranks replies {| importItem := item; pending := AwaitCheck |})
    as [Hs Hlow].
  split; [exact Hs|].
  unfold ranks in Hlow. fold (stages_assigned
    {| importItem := item; pending := AwaitCheck |} replies) in Hlow.
  rewrite Forall_fmap in Hlow. eapply Forall_impl; [exact Hlow|].
  intros st Hst ->. cbn in Hst. lia.
Qed.



Lemma effects_keep_timers s i :
  is_Some (pollTimers s !! i) → is_Some (pollTimers (effects s) !! i).
Proof.
  intros Hi. unfold effects.
  assert (H1 : is_Some (pollTimers (persistEffects s) !! i)).
  { unfold persistEffects. destruct (settingsLoaded s); exact Hi. }
  unfold resumeEffect.
  destruct (negb (settingsLoaded (persistEffects s))
            || negb (truthy (igniteToken (persistEffects s)))); [exact H1|].
  destruct (resume_fold (imports (persistEffects s)) (persistEffects s))
    as ((_ & Hkeep & _) & _). apply Hkeep, H1.
Qed.

Lemma polling_patch_step s k t r v :
  tasks s !! k = Some t →
  resume_task t r = Some (step_start_polling None v) →
  ∃ s', step s (TaskReply k r) = Some s'
        ∧ imports s'
          = update_items (id (importItem t))
              (with_stage polling
                 (with_statusText "Processing..."
                    (with_progress 98 (with_thumbnailUrl None no_patch))))
              (imports s)
        ∧ is_Some (pollTimers s' !! id (importItem t))
        ∧ tasks s' = delete k (tasks s).
Proof.
  intros Ht Hres. unfold step, handle, taskReply.
  rewrite Ht. cbn [mbind option_bind]. rewrite Hres. cbn [mbind option_bind].
  eexists. split; [reflexivity|].
  rewrite effects_imports, effects_tasks.
  cbn [step_start_polling next patches].
  destruct (pollVideoStatus_same_queue (id (importItem t)) v
              (set_tasks (delete k
                 (tasks (apply_patches (id (importItem t))
                    [with_stage polling
                       (with_statusText "Processing..."
                          (with_progress 98 (with_thumbnailUrl None no_patch)))]
                    s)))
                 (apply_patches (id (importItem t))
                    [with_stage polling
                       (with_statusText "Processing..."
                          (with_progress 98 (with_thumbnailUrl None no_patch)))]
                    s))) as (Hi & Htk & _).
  rewrite Hi, Htk. split; [reflexivity|]. split; [|reflexivity].
  apply effects_keep_timers, pollVideoStatus_registered.
Qed.

(** X22.  A rejected thumbnail download or thumbnail upload does not fail
    the import: the item goes to 'polling' without a thumbnail, its
    error message is left as it was, a poll timer is registered under
    its id and the invocation is over. *)
Theorem thumbnail_failure_is_not_fatal s k t r :
  tasks s !! k = Some t →
  thumbnail_rejection (pending t) r →
  ∃ s', step s (TaskReply k r) = Some s'
        ∧ (∀ item', item' ∈ imports s' → id item' = id (importItem t) →
             stage item' = polling ∧ thumbnailUrl item' = None)
        ∧ errorMessage <$> imports s' = errorMessage <$> imports s
        ∧ is_Some (pollTimers s' !! id (importItem t))
        ∧ tasks s' = delete k (tasks s).
Proof.
  intros Ht Hrej.
  assert (∃ v, resume_task t r = Some (step_start_polling None v)) as [v Hres].
  { unfold thumbnail_rejection in Hrej. unfold resume_task.
    destruct (pending t); destruct r as [r|r|r|r|r|r]; try contradiction;
      destruct r as [e|x]; try contradiction; eexists; reflexivity. }
  destruct (polling_patch_step s k t r v Ht Hres)
    as (s' & Hstep & Himp & Htm & Htk).
  exists s'. split; [exact Hstep|]. rewrite Himp.
  split; [|split; [|split; assumption]].
  - intros item' Hin Hid. unfold update_items in Hin.
    apply list_elem_of_fmap in Hin as (item & -> & _).
    destruct (decide (id item = id (importItem t))) as [_|Hne];
      [split; reflexivity | contradiction].
  - unfold update_items. rewrite <- list_fmap_compose.
    apply list_fmap_ext. intros _ item _. cbn.
    destruct (decide (id item = id (importItem t))); reflexivity.
Qed.

Lemma thumbnail_failure_is_not_fatal_witness :
  ∃ s', step (after to_thumbnail)
          (TaskReply 0 (ThumbnailReply (inl (rejection 500)))) = Some s'
        ∧ ∀ item', item' ∈ imports s' → id item' = "1700000000000-42" →
            stage item' = polling ∧ thumbnailUrl item' = None.
Proof.
  destruct (thumbnail_failure_is_not_fatal (after to_thumbnail) 0
              {| importItem := newImport 1700000000000 "42" sample_options;
                 pending := AwaitThumbPut sample_pictures "rec-1" "jpeg" |}
              (ThumbnailReply (inl (rejection 500))))
    as (s' & Hstep & Hitems & _); [reflexivity | exact I |].
  exists s'. split; [exact Hstep | exact Hitems].
Defined.

Lemma process_loaded_settled item :
  stage (process_loaded item) ∈ [complete; error; polling].
Proof.
  unfold process_loaded, FINAL_STAGES, RESUMABLE_STAGES.
  destruct (decide (stage item ∈ [complete; error])) as [Hf|Hf].
  - apply elem_of_cons in Hf as [Hf|Hf]; [rewrite Hf; repeat constructor|].
    apply elem_of_cons in Hf as [Hf|Hf]; [rewrite Hf; repeat constructor|].
    apply elem_of_nil in Hf; contradiction.
  - destruct (decide (stage item ∈ [polling])) as [Hp|Hp].
    + apply elem_of_cons in Hp as [Hp|Hp]; [rewrite Hp; repeat constructor|].
      apply elem_of_nil in Hp; contradiction.
    + cbn. repeat constructor.
Qed.

Lemma process_loaded_fixed item :
  process_loaded item = item ↔ stage item ∉ activeStages.
Proof.
  unfold activeStages. split.
  - intros Heq. pose proof (process_loaded_settled item) as Hs.
    rewrite Heq in Hs. intros Hact.
    destruct (stage item); first [stage_cases Hs | stage_cases Hact].
  - intros Hact. apply process_loaded_kept.
    destruct (stage item); try (repeat constructor; fail);
      exfalso; apply Hact; repeat constructor.
Qed.

(** X23.  Reloading the page in a reachable state restores the queue
    from the store with every item that was in an active stage marked as
    interrupted: no invocation survives, no transfer is active
    afterwards, and the queue comes back unchanged exactly when
    [hasActiveTransfers] was false, the condition under which the page
    does not warn before unloading. *)
Theorem reload_loses_exactly_active_transfers s :
  reachable s →
  ∃ s', step s Reload = Some s'
        ∧ imports s' = process_loaded <$> imports s
        ∧ tasks s' = []
        ∧ hasActiveTransfers s' = false
        ∧ (imports s' = imports s ↔ hasActiveTransfers s = false).
Proof.
  intros Hr. apply reachable_ok in Hr as (_ & _ & _ & _ & Hst).
  exists (effects (loadEffect (storage s))).
  split; [reflexivity|].
  rewrite effects_imports, effects_tasks. cbn [loadEffect imports tasks].
  rewrite Hst. split; [reflexivity|]. split; [reflexivity|].
  unfold hasActiveTransfers. rewrite effects_imports.
  cbn [loadEffect imports]. rewrite Hst, !bool_decide_eq_false. split.
  - rewrite Exists_exists. intros (item' & Hin & Hact).
    apply list_elem_of_fmap in Hin as (item & -> & _).
    pose proof (process_loaded_settled item) as Hs.
    unfold activeStages in Hact.
    destruct (stage (process_loaded item));
      first [stage_cases Hs | stage_cases Hact].
  - rewrite Exists_exists. split.
    + intros Heq (item & Hin & Hact).
      apply list_elem_of_lookup in Hin as (k & Hk).
      assert (Hk' : (process_loaded <$> imports s) !! k = Some item)
        by (rewrite Heq; exact Hk).
      rewrite list_lookup_fmap, Hk in Hk'. cbn in Hk'.
      injection Hk' as Hfix. apply process_loaded_fixed in Hfix.
      contradiction.
    + intros Hno. transitivity (Datatypes.id <$> imports s);
        [|apply list_fmap_id].
      apply list_fmap_ext. intros k item Hk. apply process_loaded_fixed.
      intros Hact. apply Hno. exists item.
      split; [eapply list_elem_of_lookup_2; exact Hk | exact Hact].
Qed.

Lemma reload_loses_exactly_active_transfers_witness :
  ∃ s', step (after to_thumbnail) Reload = Some s'
        ∧ hasActiveTransfers s' = false
        ∧ imports s' ≠ imports (after to_thumbnail).
Proof.
  assert (Hr : reachable (after to_thumbnail))
    by (apply (reachable_after to_thumbnail); vm_compute; reflexivity).
  destruct (reload_loses_exactly_active_transfers (after to_thumbnail) Hr)
    as (s' & Hstep & _ & _ & Hidle & Hiff).
  exists s'. split; [exact Hstep|]. split; [exact Hidle|].
  intros Heq. apply Hiff in Heq. vm_compute in Heq. discriminate Heq.
Defined.

Lemma persistEffects_tokens s :
  settingsLoaded s = true → tokens_stored (persistEffects s).
Proof.
  intros Hl. unfold persistEffects. rewrite Hl. split; cbn; intros ->;
    reflexivity.
Qed.

Lemma effects_tokens s : settingsLoaded s = true → tokens_stored (effects s).
Proof.
  intros Hl. unfold effects.
  destruct (resumeEffect_same_queue (persistEffects s))
    as (_ & _ & Hi & Hv & _ & Hst).
  destruct (persistEffects_tokens s Hl) as [H1 H2].
  unfold tokens_stored. rewrite Hi, Hv, Hst. split; assumption.
Qed.

Lemma step_tokens s e s' :
  state_ok s → step s e = Some s' → tokens_stored s'.
Proof.
  intros Hok Hstep. unfold step in Hstep.
  destruct (handle s e) as [h|] eqn:Hh; [|discriminate Hstep].
  injection Hstep as <-. apply effects_tokens.
  apply (handle_ok s e h Hok Hh).
Qed.

Lemma run_tokens evs :
  ∀ s s', state_ok s → tokens_stored s → run s evs = Some s' →
          tokens_stored s'.
Proof.
  induction evs as [|e evs IH]; intros s s' Hok Htk Hrun.
  - injection Hrun as <-. exact Htk.
  - cbn in Hrun. destruct (step s e) as [s1|] eqn:Hs; [|discriminate Hrun].
    cbn in Hrun. apply (IH s1 s'); [| |exact Hrun].
    + apply (step_ok s e s1 Hok Hs).
    + apply (step_tokens s e s1 Hok Hs).
Qed.

Lemma reachable_tokens s : reachable s → tokens_stored s.
Proof.
  intros (st & evs & Hv & Hrun).
  apply (run_tokens evs (mount st) s); [| |exact Hrun].
  - apply effects_ok, loadEffect_ok, Hv.
  - apply effects_tokens. reflexivity.
Qed.

Lemma effects_tokens_kept s :
  vimeoToken (effects s) = vimeoToken s
  ∧ igniteToken (effects s) = igniteToken s.
Proof.
  unfold effects.
  destruct (resumeEffect_same_queue (persistEffects s))
    as (_ & _ & -> & -> & _).
  unfold persistEffects. destruct (settingsLoaded s); split; reflexivity.
Qed.

Lemma effects_blank_token s :
  settingsLoaded s = true →
  (truthy (vimeoToken s) = false →
   stored_vimeo_token (storage (effects s))
   = stored_vimeo_token (storage s))
  ∧ (truthy (igniteToken s) = false →
     stored_ignite_token (storage (effects s))
     = stored_ignite_token (storage s)).
Proof.
  intros Hl. unfold effects.
  destruct (resumeEffect_same_queue (persistEffects s))
    as (_ & _ & _ & _ & _ & ->).
  unfold persistEffects. rewrite Hl. split; cbn; intros ->; reflexivity.
Qed.

Lemma mount_tokens st :
  (∀ t, stored_vimeo_token st = Some t → truthy t = true →
        vimeoToken (mount st) = t)
  ∧ (∀ t, stored_ignite_token st = Some t → truthy t = true →
          igniteToken (mount st) = t).
Proof.
  unfold mount. destruct (effects_tokens_kept (loadEffect st)) as [-> ->].
  split; intros t Hst Ht; cbn; rewrite Hst, Ht; reflexivity.
Qed.

(** X24.  Emptying a token field does not erase the token from the
    store: when the source token is set in a reachable state, clearing
    the field and reloading the page brings the same token back, and the
    same holds for the destination token. *)
Theorem cleared_token_returns_on_reload s :
  reachable s →
  (truthy (vimeoToken s) = true →
   ∃ s', run s [EditVimeoToken ""; Reload] = Some s'
         ∧ vimeoToken s' = vimeoToken s)
  ∧ (truthy (igniteToken s) = true →
     ∃ s', run s [EditIgniteToken ""; Reload] = Some s'
           ∧ igniteToken s' = igniteToken s).
Proof.
  intros Hr. pose proof (reachable_ok s Hr) as Hok.
  destruct (reachable_tokens s Hr) as [Hv Hi].
  destruct Hok as (_ & _ & Hl & _).
  split; intros Ht; [specialize (Hv Ht) | specialize (Hi Ht)].
  - eexists. split; [reflexivity|].
    apply (proj1 (mount_tokens _)); [|exact Ht].
    rewrite (proj1 (effects_blank_token (setVimeoToken "" s) Hl));
      [exact Hv | reflexivity].
  - eexists. split; [reflexivity|].
    apply (proj2 (mount_tokens _)); [|exact Ht].
    rewrite (proj2 (effects_blank_token (setIgniteToken "" s) Hl));
      [exact Hi | reflexivity].
Qed.

Lemma cleared_token_returns_on_reload_witness :
  ∃ s', run (after [EditVimeoToken "vimeo-token"])
          [EditVimeoToken ""; Reload] = Some s'
        ∧ vimeoToken s' = "vimeo-token".
Proof.
  assert (Hr : reachable (after [EditVimeoToken "vimeo-token"]))
    by (apply (reachable_after [EditVimeoToken "vimeo-token"]);
        vm_compute; reflexivity).
  destruct (cleared_token_returns_on_reload _ Hr) as [Hv _].
  apply Hv. reflexivity.
Defined.

Lemma resume_item_other s item j :
  id item ≠ j → pollTimers (resume_item s item) !! j = pollTimers s !! j.
Proof.
  intros Hne. unfold resume_item.
  destruct (igniteVideoId item) as [v|]; [|reflexivity].
  destruct (decide (stage item = polling)); [|reflexivity].
  destruct (truthy v); [|reflexivity].
  destruct (decide (id item ∈ resumedPollingIds s)); [reflexivity|].
  destruct (pollTimers s !! id item) eqn:Hi; [reflexivity|].
  destruct (pollVideoStatus_touches (id item) v
              (set_resumed ({[id item]} ∪ resumedPollingIds s) s))
    as (_ & _ & _ & _ & _ & Ht).
  rewrite Ht by congruence. reflexivity.
Qed.

Lemma resume_item_keeps s item j t :
  pollTimers s !! j = Some t → pollTimers (resume_item s item) !! j = Some t.
Proof.
  intros Hj. destruct (decide (id item = j)) as [Heq|Hne].
  - subst j. unfold resume_item. rewrite Hj.
    destruct (igniteVideoId item) as [v|]; [|exact Hj].
    destruct (decide (stage item = polling)); [|exact Hj].
    destruct (truthy v); [|exact Hj].
    destruct (decide (id item ∈ resumedPollingIds s)); exact Hj.
  - rewrite resume_item_other; assumption.
Qed.

Lemma resume_fold_other l j :
  ∀ s, (∀ item, item ∈ l → id item ≠ j) →
       pollTimers (fold_left resume_item l s) !! j = pollTimers s !! j.
Proof.
  induction l as [|item l IH]; intros s Hl; [reflexivity|].
  cbn. rewrite IH.
  - apply resume_item_other, Hl. left.
  - intros item' Hin. apply Hl. right. exact Hin.
Qed.

Lemma resume_fold_keeps l j t :
  ∀ s, pollTimers s !! j = Some t →
       pollTimers (fold_left resume_item l s) !! j = Some t.
Proof.
  induction l as [|item l IH]; intros s Hj; [exact Hj|].
  cbn. apply IH, resume_item_keeps, Hj.
Qed.

Lemma persistEffects_frame s :
  imports (persistEffects s) = imports s
  ∧ pollTimers (persistEffects s) = pollTimers s.
Proof. unfold persistEffects. destruct (settingsLoaded s); split; reflexivity. Qed.

Lemma effects_other s j :
  (∀ item, item ∈ imports s → id item ≠ j) →
  pollTimers (effects s) !! j = pollTimers s !! j.
Proof.
  intros Hl. destruct (persistEffects_frame s) as [Hi Ht].
  unfold effects, resumeEffect.
  destruct (negb (settingsLoaded (persistEffects s))
            || negb (truthy (igniteToken (persistEffects s))));
    [rewrite Ht; reflexivity|].
  rewrite resume_fold_other; [rewrite Ht; reflexivity|].
  rewrite Hi. exact Hl.
Qed.

Lemma effects_keeps s j t :
  pollTimers s !! j = Some t → pollTimers (effects s) !! j = Some t.
Proof.
  intros Hj. destruct (persistEffects_frame s) as [_ Ht].
  unfold effects, resumeEffect.
  destruct (negb (settingsLoaded (persistEffects s))
            || negb (truthy (igniteToken (persistEffects s))));
    [rewrite Ht; exact Hj|].
  apply resume_fold_keeps. rewrite Ht. exact Hj.
Qed.

Lemma cancel_timer_gone i s :
  timers_ok s → pollTimers (cancel_timer i s) !! i = None.
Proof.
  intros Hok. unfold cancel_timer.
  destruct (pollTimers s !! i) as [t|] eqn:Hi; [|exact Hi].
  rewrite (timers_wf_truthy _ _ _ _ _ Hok Hi). cbn. apply lookup_delete_eq.
Qed.

(** X25.  Removing an item in a reachable state takes it, and nothing
    else, out of the queue; afterwards no handle is registered under its
    id and no live interval of the window polls for it, while the
    handles of the other items and the running invocations are as
    before. *)
Theorem remove_cancels_polling s i s' :
  reachable s →
  step s (RemoveImport i) = Some s' →
  imports s' = filter (λ item, id item ≠ i) (imports s)
  ∧ pollTimers s' !! i = None
  ∧ (∀ t, ¬ timer_of s' i t)
  ∧ (∀ j t, j ≠ i → pollTimers s !! j = Some t → pollTimers s' !! j = Some t)
  ∧ tasks s' = tasks s.
Proof.
  intros Hr Hstep. pose proof (reachable_ok s Hr) as Hok.
  pose proof (step_ok s _ s' Hok Hstep) as (Htm' & _).
  unfold step, handle in Hstep.
  destruct (decide (Exists (λ item, id item = i ∧ removable item) (imports s)))
    as [_|]; [|discriminate Hstep].
  injection Hstep as Hs'.
  assert (Himp : imports s' = filter (λ item, id item ≠ i) (imports s)).
  { rewrite <- Hs', effects_imports. unfold removeImport. cbn.
    rewrite cancel_timer_imports. reflexivity. }
  assert (Hnone : pollTimers s' !! i = None).
  { rewrite <- Hs'. rewrite effects_other.
    - unfold removeImport. cbn. apply cancel_timer_gone. apply Hok.
    - intros item Hin. unfold removeImport in Hin. cbn in Hin.
      apply list_elem_of_filter in Hin as [Hne _]. exact Hne. }
  split; [exact Himp|]. split; [exact Hnone|]. split; [|split].
  - intros t [v Hv]. destruct Htm' as (_ & Hiv & _).
    specialize (Hiv _ _ _ Hv). congruence.
  - intros j t Hne Hj. rewrite <- Hs'. apply effects_keeps.
    unfold removeImport. cbn.
    destruct (cancel_timer_touches i s) as (_ & _ & _ & _ & _ & Ht).
    rewrite Ht by exact Hne. exact Hj.
  - rewrite <- Hs', effects_tasks. unfold removeImport. cbn.
    apply cancel_timer_tasks.
Qed.

Lemma remove_cancels_polling_witness :
  ∃ s', step (after to_polling) (RemoveImport "1700000000000-42") = Some s'
        ∧ imports s' = [] ∧ pollTimers s' !! "1700000000000-42" = None.
Proof.
  assert (Hr : reachable (after to_polling))
    by (apply (reachable_after to_polling); vm_compute; reflexivity).
  exists (effects (removeImport "1700000000000-42" (after to_polling))).
  assert (Hs : step (after to_polling) (RemoveImport "1700000000000-42")
               = Some (effects (removeImport "1700000000000-42"
                                  (after to_polling))))
    by (vm_compute; reflexivity).
  destruct (remove_cancels_polling _ _ _ Hr Hs) as (Himp & Hnone & _).
  split; [exact Hs|]. split; [|exact Hnone].
  rewrite Himp. vm_compute. reflexivity.
Defined.

Lemma clear_fold_tasks l :
  ∀ s,
    tasks
      (fold_left
         (λ s item,
            if decide (finished item) then cancel_timer (id item) s else s)
         l s)
    = tasks s.
Proof.
  induction l as [|item l IH]; intros s; [reflexivity|].
  cbn. rewrite IH. destruct (decide (finished item)); [|reflexivity].
  apply cancel_timer_tasks.
Qed.

(** X26.  Clearing the finished items in a reachable state keeps exactly
    the items that are neither 'complete' nor 'error', in order; the
    handle of every item that stays is the one it had, and the running
    invocations are as before. *)
Theorem clear_finished_keeps_the_rest s s' :
  reachable s →
  step s ClearFinished = Some s' →
  imports s' = filter (λ item, ¬ finished item) (imports s)
  ∧ (∀ item t, item ∈ imports s' → pollTimers s !! id item = Some t →
               pollTimers s' !! id item = Some t)
  ∧ tasks s' = tasks s.
Proof.
  intros Hr Hstep. pose proof (reachable_ok s Hr) as (_ & Hnd & _).
  injection Hstep as Hs'.
  destruct (clear_fold (imports s) s) as (Hci & _ & _ & _ & Hct).
  assert (Himp : imports s' = filter (λ item, ¬ finished item) (imports s)).
  { rewrite <- Hs', effects_imports. unfold clearFinished. cbn.
    rewrite Hci. reflexivity. }
  split; [exact Himp|]. split.
  - intros item t Hin Hj. rewrite Himp in Hin.
    apply list_elem_of_filter in Hin as [Hnf Hin].
    rewrite <- Hs'. apply effects_keeps. unfold clearFinished. cbn.
    rewrite Hct; [exact Hj|].
    intros item0 Hin0 Hf0 Hid.
    apply Hnf. rewrite <- (NoDup_ids_eq _ _ _ Hnd Hin0 Hin Hid). exact Hf0.
  - rewrite <- Hs', effects_tasks. unfold clearFinished. cbn.
    apply clear_fold_tasks.
Qed.

Lemma clear_finished_keeps_the_rest_witness :
  ∃ s', step (after to_polling) ClearFinished = Some s'
        ∧ imports s' = imports (after to_polling).
Proof.
  assert (Hr : reachable (after to_polling))
    by (apply (reachable_after to_polling); vm_compute; reflexivity).
  exists (effects (clearFinished (after to_polling))).
  destruct (clear_finished_keeps_the_rest (after to_polling)
              (effects (clearFinished (after to_polling))) Hr eq_refl)
    as (Himp & _).
  split; [reflexivity|]. rewrite Himp. vm_compute. reflexivity.
Defined.

(** X27.  A poll that does not settle the import leaves it polling: when
    the request of a tick is rejected the queue is as before, and when
    the reported status is neither a done nor a failed one only the
    status text of the item changes; in both cases every handle stays
    registered. *)
Theorem unsettled_poll_keeps_polling s k c :
  polls s !! k = Some c →
  (∀ e, ∃ s', step s (PollReply k (inl e)) = Some s'
              ∧ imports s' = imports s
              ∧ ∀ j t, pollTimers s !! j = Some t →
                       pollTimers s' !! j = Some t)
  ∧ (∀ raw,
       let status := toUpperCase (default "" (or_else raw None)) in
       classify status = InProgress →
       ∃ s', step s (PollReply k (inr raw)) = Some s'
             ∧ imports s'
               = update_items c.1
                   (with_statusText ("Processing: " +:+ status) no_patch)
                   (imports s)
             ∧ stage <$> imports s' = stage <$> imports s
             ∧ ∀ j t, pollTimers s !! j = Some t →
                      pollTimers s' !! j = Some t).
Proof.
  intros Hk. split.
  - intros e. unfold step, handle, pollReply. rewrite Hk. cbn.
    eexists. split; [reflexivity|]. rewrite effects_imports.
    split; [reflexivity|]. intros j t Hj. apply effects_keeps. exact Hj.
  - intros raw status Hc. unfold step, handle, pollReply. rewrite Hk.
    cbn [mbind option_bind fmap option_fmap option_map].
    unfold poll_patches. fold status. rewrite Hc.
    eexists. split; [reflexivity|]. rewrite effects_imports.
    split; [reflexivity|]. split.
    + cbn. unfold update_items. rewrite <- list_fmap_compose.
      apply list_fmap_ext. intros _ item _. cbn.
      destruct (decide (id item = c.1)); reflexivity.
    + intros j t Hj. apply effects_keeps. exact Hj.
Qed.

Lemma unsettled_poll_keeps_polling_witness :
  ∃ s', step (after to_polling) (PollReply 0 (inr (Some "queued"))) = Some s'
        ∧ stage <$> imports s' = [polling].
Proof.
  destruct (unsettled_poll_keeps_polling (after to_polling) 0
              ("1700000000000-42", "rec-1")) as [_ Hprog];
    [vm_compute; reflexivity|].
  destruct (Hprog (Some "queued")) as (s' & Hstep & _ & Hst & _);
    [vm_compute; reflexivity|].
  exists s'. split; [exact Hstep|]. rewrite Hst. vm_compute. reflexivity.
Defined.

Lemma to_upper_ascii_idem c : to_upper_ascii (to_upper_ascii c) = to_upper_ascii c.
Proof. destruct c as [[] [] [] [] [] [] [] []]; reflexivity. Qed.

Lemma toUpperCase_idem x : toUpperCase (toUpperCase x) = toUpperCase x.
Proof.
  induction x as [|c x IH]; [reflexivity|].
  cbn. rewrite to_upper_ascii_idem, IH. reflexivity.
Qed.

(** X28.  The status a poll reports is compared without regard to letter
    case: a reply has the same updates and the same verdict as the reply
    with the status in upper case, and a status is done exactly when its
    upper-case form is one of COMPLETE, COMPLETED, READY and ENCODED. *)
Theorem poll_status_ignores_case raw :
  poll_patches (toUpperCase <$> raw) = poll_patches raw
  ∧ (snd (poll_patches raw) = IsDone
     ↔ toUpperCase (default "" raw)
       ∈ ["COMPLETE"; "COMPLETED"; "READY"; "ENCODED"]).
Proof.
  assert (Hor : ∀ r, default "" (or_else r None) = default "" r).
  { intros [[|a x]|]; reflexivity. }
  split.
  - unfold poll_patches. rewrite !Hor.
    destruct raw as [x|]; [|reflexivity].
    change (default "" (toUpperCase <$> Some x)) with (toUpperCase x).
    change (default "" (Some x)) with x.
    rewrite toUpperCase_idem. reflexivity.
  - unfold poll_patches. rewrite Hor. unfold classify, doneStatuses.
    destruct (decide (toUpperCase (default "" raw)
                      ∈ ["COMPLETE"; "COMPLETED"; "READY"; "ENCODED"]))
      as [Hd|Hd].
    + split; [intros _; exact Hd | reflexivity].
    + destruct (decide (toUpperCase (default "" raw) ∈ errorStatuses));
        (split; [intros H; discriminate H | intros H; contradiction]).
Qed.

End ImporterFacts.
